(** * Certificate hot-reload: cache, deduplicating queue, reloader

    A shallow embedding of the Go packages [sync/collections] (the
    channel-backed [Set] used as the reload queue) and [certs] ([Cert],
    [Cache], [RemoveSubdirectories], the [Reloader] life cycle), with the
    properties of the design document stated over it. *)

From Stdlib Require Import ZArith Ascii.
From stdpp Require Import base option list gmap strings sorting.

Local Open Scope nat_scope.

(** ** Package [collections]: the channel-backed set (sync/collections) *)

Module Collections.

Section WithElem.
Context {T : Type} `{Countable T}.

(** A buffered Go channel, seen by one goroutine at a time: the queued
    values (oldest first), the fixed capacity and the closed flag. *)
Record Chan := mkChan { buf : list T; cap : nat; closed : bool }.

(** [make(chan T, n)] *)
Definition make_chan (n : nat) : Chan := mkChan [] n false.

(** [type Set[T] struct { lock; set map[T]bool; ch chan T }] *)
Record SetT := mkSet { set : gmap T bool; ch : Chan }.

Definition NewSet (n : nat) : SetT := mkSet ∅ (make_chan n).

(** [s.ch <- i] when there is room *)
Definition send (c : Chan) (i : T) : Chan :=
  mkChan (buf c ++ [i]) (cap c) (closed c).

Definition Push (i : T) (s : SetT) : SetT :=
  match set s !! i with
  | Some _ => s
  | None =>
      if length (buf (ch s)) =? cap (ch s) then s
      else mkSet (set s) (send (ch s) i)
  end.

Definition Channel (s : SetT) : Chan := ch s.

Definition Remove (i : T) (s : SetT) : SetT :=
  mkSet (delete i (set s)) (ch s).

(** What one call of [Poll] does. [PollBlocked] stands for a call that
    stays in its [select] because neither case is ready. *)
Inductive PollResult :=
| PollValue (v : T)      (* (&v, nil) *)
| PollCtxErr             (* (nil, ctx.Err()) *)
| PollNil                (* (nil, nil): the channel was closed *)
| PollBlocked.

(** [ctxDone]: the context is cancelled. [preferDone]: the choice the
    runtime makes when both cases of the [select] are ready. *)
Definition Poll (ctxDone preferDone : bool) (s : SetT) : PollResult * SetT :=
  let c := Channel s in
  let recvReady := negb (length (buf c) =? 0) || closed c in
  if ctxDone && (negb recvReady || preferDone) then (PollCtxErr, s)
  else
    match buf c with
    | v :: rest =>
        (PollValue v, Remove v (mkSet (set s) (mkChan rest (cap c) (closed c))))
    | [] => if closed c then (PollNil, s) else (PollBlocked, s)
    end.

(** The unexported [empty]: drain the channel, then a fresh map. *)
Definition empty (s : SetT) : SetT :=
  mkSet ∅ (mkChan [] (cap (ch s)) (closed (ch s))).

Definition Empty (s : SetT) : SetT := empty s.

Definition Len (s : SetT) : nat := size (set s).

Definition Cap (s : SetT) : nat := cap (Channel s).

(** The transfer loop of [Expand]: while the old channel has a value,
    receive it and send it on the new one. The send has no [default]
    case, so with the new channel full it never returns ([None]). *)
Fixpoint transfer (old : list T) (new : Chan) : option Chan :=
  match old with
  | [] => Some new
  | v :: old' =>
      if length (buf new) <? cap new then transfer old' (send new v)
      else None
  end.

Inductive ExpandResult :=
| Expanded (s : SetT) (retired : Chan)  (* new state, and the old channel, now closed *)
| ExpandSkipped (s : SetT)              (* the guard returned early *)
| ExpandStuck.                          (* blocked in the transfer, lock held *)

Definition Expand (ns : nat) (s : SetT) : ExpandResult :=
  if cap (ch s) <? ns then ExpandSkipped s
  else
    let old := ch s in
    match transfer (buf old) (make_chan ns) with
    | Some new => Expanded (mkSet (set s) new) (mkChan [] (cap old) true)
    | None => ExpandStuck
    end.

(** A run of calls of [Push], and [n] calls of [Poll] on a live context. *)
Definition pushes (l : list T) (s : SetT) : SetT :=
  foldl (fun acc i => Push i acc) s l.

Fixpoint polls (n : nat) (s : SetT) : list PollResult * SetT :=
  match n with
  | 0 => ([], s)
  | S n' =>
      let '(r, s1) := Poll false false s in
      let '(rs, s2) := polls n' s1 in
      (r :: rs, s2)
  end.

End WithElem.

Arguments Chan : clear implicits.
Arguments SetT T {_ _}.
Arguments PollResult : clear implicits.
Arguments ExpandResult T {_ _}.

End Collections.

(** ** Package [certs] *)

Module Certs.

(** [time.Time] as an instant on the integer line; the zero value
    [time.Time{}] is instant 0. *)
Definition Time := Z.
Definition zeroTime : Time := 0%Z.
(** [t.After(u)] and [t.Before(u)] *)
Definition After (t u : Time) : bool := (u <? t)%Z.
Definition Before (t u : Time) : bool := (t <? u)%Z.

Record File := mkFile { Path : string; Mod : Time }.

(** The fields of [x509.Certificate] the package reads. *)
Record X509 := mkX509 {
  DNSNames : list string;
  CommonName : string;        (* Subject.CommonName *)
  NotBefore : Time;
  NotAfter : Time }.

(** [tls.Certificate]: the DER chain and the parsed leaf (nil until set). *)
Record TLSCertificate := mkTLS {
  Chain : list string;        (* the field Certificate [][]byte *)
  Leaf : option X509 }.

Record Cert := mkCert {
  Name : string;
  CertFile : File;
  KeyFile : File;
  Loaded : Time;
  Certificate : TLSCertificate }.

Inductive error :=
| ErrStat (file : string)     (* from os.Stat *)
| ErrLoadX509KeyPair          (* from tls.LoadX509KeyPair *)
| ErrNoCertsParsed            (* "no certs parsed" *)
| ErrParseCertificate         (* from x509.ParseCertificate *)
| ErrInvalidCertParsed        (* "invalid cert parsed" *)
| ErrNilCert                  (* "nil cert" *)
| ErrAbs (dir : string)       (* from filepath.Abs *)
| ErrAlreadyRunning.          (* "already running" *)

Inductive result (A : Type) :=
| Ok (a : A)
| Err (e : error).
Arguments Ok {A} a.
Arguments Err {A} e.

(** What the package asks of the operating system and the standard
    library during one call: the modification time [os.Stat] reports
    (None: an error), the key pair [tls.LoadX509KeyPair] reads from the two
    files, the parser [x509.ParseCertificate], and the two readings of
    [time.Now()] that [LoadCertPair] takes, in order. *)
Record Env := mkEnv {
  os_Stat : string -> option Time;
  tls_LoadX509KeyPair : string -> string -> option TLSCertificate;
  x509_ParseCertificate : string -> option X509;
  now_validity : Time;
  now_loaded : Time }.

(** [DNSNames] on a non-nil receiver: the names, and the receiver after the
    call (the parsed leaf is stored on it). *)
Definition Cert_DNSNames (env : Env) (c : Cert) : list string * Cert :=
  match Chain (Certificate c) with
  | [] => ([], c)
  | der :: _ =>
      match Leaf (Certificate c) with
      | Some leaf => (DNSNames leaf ++ [CommonName leaf], c)
      | None =>
          match x509_ParseCertificate env der with
          | None => ([], c)
          | Some leaf =>
              (DNSNames leaf ++ [CommonName leaf],
               mkCert (Name c) (CertFile c) (KeyFile c) (Loaded c)
                      (mkTLS (Chain (Certificate c)) (Some leaf)))
          end
      end
  end.

Fixpoint WildcardFor (name : string) : string :=
  match name with
  | EmptyString => ""
  | String c rest =>
      if Ascii.eqb c "."%char then "*" +:+ String c rest
      else WildcardFor rest
  end.

(** [LoadCertPair]: [Ok None] is the pair (nil, nil); the [Cert] of
    [Ok (Some _)] is the freshly allocated object the pointer refers to. *)
Definition LoadCertPair (env : Env) (name : string) (mod_ : Time)
  : result (option Cert) :=
  let certFile := name +:+ ".crt" in
  let keyFile := name +:+ ".key" in
  match os_Stat env certFile with
  | None => Err (ErrStat certFile)
  | Some cMod =>
  match os_Stat env keyFile with
  | None => Err (ErrStat keyFile)
  | Some kMod =>
  if After mod_ cMod && After mod_ kMod then Ok None
  else
  match tls_LoadX509KeyPair env certFile keyFile with
  | None => Err ErrLoadX509KeyPair
  | Some cert =>
  match Chain cert with
  | [] => Err ErrNoCertsParsed
  | der :: _ =>
  match x509_ParseCertificate env der with
  | None => Err ErrParseCertificate
  | Some xcert =>
  let now := now_validity env in
  if After now (NotAfter xcert) || Before now (NotBefore xcert)
  then Err ErrInvalidCertParsed
  else Ok (Some (mkCert name (mkFile certFile cMod) (mkFile keyFile kMod)
                        (now_loaded env) (mkTLS (Chain cert) (Some xcert))))
  end end end end end.

(** The method [Reload] of [Cert], on a non-nil receiver: the error, or the receiver
    after the call. *)
Definition Cert_Reload (env : Env) (c : Cert) : result Cert :=
  match LoadCertPair env (Name c) (Loaded c) with
  | Err e => Err e
  | Ok None => Ok c
  | Ok (Some nc) =>
      Ok (mkCert (Name c) (CertFile c) (KeyFile c) (Loaded nc) (Certificate nc))
  end.

(** *** The cache

    The maps hold pointers, and a [Cert] is updated in place through them,
    so the objects live in a store: [heap] maps an address to the [Cert]
    at it. A nil [*Cert] is [None]; the maps never hold one, since [set]
    skips nil. An address outside the store does not occur in Go; the
    functions below treat it as nil. *)
Definition ptr := positive.

Record Cache := mkCache {
  heap : gmap ptr Cert;
  certs : gmap string ptr;
  sni : gmap string ptr;
  modified : gmap string ptr }.

Definition NewCache : Cache := mkCache ∅ ∅ ∅ ∅.

Definition Cache_Len (c : Cache) : nat := size (certs c).

(** A lookup in a nil map gives the zero value, as in the empty map, so
    the guard [sni == nil] needs no case of its own. *)
Definition GetSNI (c : Cache) (dnsName : string) : option ptr :=
  match sni c !! dnsName with
  | Some cert => Some cert
  | None =>
      let wildcard := WildcardFor dnsName in
      if String.length wildcard =? 0 then None
      else sni c !! wildcard
  end.

Definition Get (c : Cache) (name : string) : option ptr := certs c !! name.

(** One round of the loop of [set]. *)
Definition set_one (env : Env) (c : Cache) (cert : option ptr) : Cache :=
  match cert with
  | None => c
  | Some p =>
      match heap c !! p with
      | None => c
      | Some obj =>
          let '(dnsNames, obj') := Cert_DNSNames env obj in
          mkCache (<[p := obj']> (heap c))
                  (<[Name obj' := p]> (certs c))
                  (foldl (fun m dn => <[dn := p]> m) (sni c) dnsNames)
                  (modified c)
      end
  end.

Definition set (env : Env) (c : Cache) (l : list (option ptr)) : Cache :=
  foldl (set_one env) c l.

(** The exported [Set]: the same under the lock. *)
Definition Cache_Set (env : Env) (c : Cache) (l : list (option ptr)) : Cache :=
  set env c l.

(** [Cache.Reload]: [Err e] is the pair (false, e), [Ok b] the pair
    (b, nil). *)
Definition Reload (env : Env) (c : Cache) (name : string)
  : result bool * Cache :=
  match certs c !! name ≫= (fun p => pair p <$> heap c !! p) with
  | Some (p, obj) =>
      match Cert_Reload env obj with
      | Err e => (Err e, c)
      | Ok obj' =>
          (Ok true,
           set env (mkCache (<[p := obj']> (heap c)) (certs c) (sni c) (modified c))
               [Some p])
      end
  | None =>
      match LoadCertPair env name zeroTime with
      | Err e => (Err e, c)
      | Ok None => (Ok false, set env c [None])
      | Ok (Some obj) =>
          let p := fresh (dom (heap c)) in
          (Ok false,
           set env (mkCache (<[p := obj]> (heap c)) (certs c) (sni c) (modified c))
               [Some p])
      end
  end.

(** *** Directory lists (file.go) *)

(** The loop that cuts trailing separators, [fuel] rounds at most; the
    length of the string is enough rounds (see [trimSlashes_done]). *)
Fixpoint trimSlashes_loop (fuel : nat) (dir : string) : string :=
  match fuel with
  | 0 => dir
  | S fuel' =>
      if (0 <? String.length dir)
         && bool_decide (String.get (String.length dir - 1) dir = Some "/"%char)
      then trimSlashes_loop fuel' (String.substring 0 (String.length dir - 1) dir)
      else dir
  end.

Definition trimSlashes (dir : string) : string :=
  trimSlashes_loop (String.length dir) dir.

(** The loop of [isSubdirOf] with [i] running from [n - 1] down to 0. *)
Fixpoint isSubdirOf_loop (set : gmap string bool) (dir : string) (n : nat) : bool :=
  match n with
  | 0 => false
  | S i =>
      if bool_decide (String.get i dir = Some "/"%char)
         && default false (set !! String.substring 0 i dir)
      then true
      else isSubdirOf_loop set dir i
  end.

Definition isSubdirOf (set : gmap string bool) (dir : string) : bool :=
  if default false (set !! dir) then true
  else isSubdirOf_loop set dir (String.length dir).

(** The first loop of [RemoveSubdirectories]: every non-empty entry is
    replaced by its absolute form; the first failure of [filepath.Abs]
    ends the call. [Abs] is the library function (None: an error). *)
Fixpoint absAll (Abs : string -> option string) (dirs : list string)
  : result (list string) :=
  match dirs with
  | [] => Ok []
  | d :: rest =>
      if String.length d =? 0 then
        match absAll Abs rest with
        | Ok r => Ok (d :: r)
        | Err e => Err e
        end
      else
        match Abs d with
        | None => Err (ErrAbs d)
        | Some a =>
            match absAll Abs rest with
            | Ok r => Ok (a :: r)
            | Err e => Err e
            end
        end
  end.

(** One round of the second loop. *)
Definition selectDir (set : gmap string bool) (d : string) : gmap string bool :=
  let dir := trimSlashes d in
  if String.length d =? 0 then set
  else if isSubdirOf set d then set
  else <[dir := true]> set.

(** [sortSlice] is [sort.Slice] with the comparison by length, which is
    not a stable sort: any ordering by length of the same entries is a
    possible outcome (see [sorts_by_length]). The result slice is filled
    by ranging over the map, in no particular order. *)
Definition RemoveSubdirectories
    (Abs : string -> option string) (sortSlice : list string -> list string)
    (dirs : list string) : result (list string) :=
  match absAll Abs dirs with
  | Err e => Err e
  | Ok dirs1 =>
      let set := foldl selectDir ∅ (sortSlice dirs1) in
      Ok (elements (dom set))
  end.

Definition shorter_eq (a b : string) : Prop := String.length a <= String.length b.

#[export] Instance shorter_eq_dec (a b : string) : Decision (shorter_eq a b) :=
  Nat.le_dec (String.length a) (String.length b).

Definition sorts_by_length (sortSlice : list string -> list string) : Prop :=
  forall l, sortSlice l ≡ₚ l /\ StronglySorted shorter_eq (sortSlice l).

(** *** The life cycle of the Reloader

    The fields the operations on the life cycle read and write: the flag
    [running], the channel [stopped] (nil, or whether it is closed) and
    the run context (nil, or whether it is cancelled), next to the cache
    and the reload queue the two loops work on. *)
Record Reloader := mkReloader {
  running : bool;
  stopped : option bool;
  runCtx : option bool;
  r_certs : Cache;
  reloadQueue : Collections.SetT string }.

(** A fresh Reloader, before [initialize]. *)
Definition NewReloader : Reloader :=
  mkReloader false None None NewCache (Collections.NewSet 32).

(** [run] up to the point where it waits for its two loops: the guard,
    taken before and after the lock, then the flag, the context and the
    channel. [ctxDone] is the state of the caller's context. *)
Definition run_enter (ctxDone : bool) (r : Reloader) : option error * Reloader :=
  if running r then (Some ErrAlreadyRunning, r)
  else if running r then (Some ErrAlreadyRunning, r)
  else (None, mkReloader true (Some false) (Some ctxDone) (r_certs r) (reloadQueue r)).

(** The rest of [run], once a loop has returned or the caller's context
    is done: cancel, collect both results, close [stopped]. *)
Definition run_leave (r : Reloader) : Reloader :=
  mkReloader (running r) (Some true) (Some true) (r_certs r) (reloadQueue r).

(** [Stop]: nothing when not running; else cancel the run context (and
    then wait for [stopped] to be closed). *)
Definition Stop (r : Reloader) : Reloader :=
  if negb (running r) then r
  else mkReloader (running r) (stopped r) (Some true) (r_certs r) (reloadQueue r).

(** The operations on a Reloader. [OpLoop f] is a round of the watch loop
    or of the queue loop, or a call of [Initialize]: they assign the
    cache and the queue only. *)
Inductive Op :=
| OpRun (ctxDone : bool)      (* Start or Run passes the guard or fails on it *)
| OpRunReturns                (* the pending run returns *)
| OpStop
| OpCancel                    (* the caller's context is cancelled *)
| OpLoop (f : Cache * Collections.SetT string -> Cache * Collections.SetT string).

Definition exec_op (r : Reloader) (o : Op) : Reloader :=
  match o with
  | OpRun ctxDone => snd (run_enter ctxDone r)
  | OpRunReturns => if running r then run_leave r else r
  | OpStop => Stop r
  | OpCancel =>
      mkReloader (running r) (stopped r) (const true <$> runCtx r)
                 (r_certs r) (reloadQueue r)
  | OpLoop f =>
      let '(c, q) := f (r_certs r, reloadQueue r) in
      mkReloader (running r) (stopped r) (runCtx r) c q
  end.

Definition exec (ops : list Op) (r : Reloader) : Reloader := foldl exec_op r ops.

End Certs.

(** ** A small world to run the code in

    Four certificate pairs on disk, all written at instant 50:
    "a" and "b" share a DNS name, "wild" is a wildcard for a top-level
    domain and has no Common Name, "old" ran out at instant 10, and
    "hollow" is a pair whose certificate file holds no certificate. *)

Module Demo.
Import Certs.

Definition leaf_a : X509 :=
  mkX509 ["a.example.com"; "shared.example.com"] "a.example.com" 0%Z 1000%Z.
Definition leaf_b : X509 :=
  mkX509 ["shared.example.com"] "b.example.com" 0%Z 1000%Z.
Definition leaf_wild : X509 := mkX509 ["*.com"] "" 0%Z 1000%Z.
Definition leaf_old : X509 := mkX509 ["old.example.com"] "old.example.com" 0%Z 10%Z.

Definition stat (file : string) : option Time :=
  if bool_decide (file ∈ ["a.crt"; "a.key"; "b.crt"; "b.key"; "wild.crt"; "wild.key";
                          "old.crt"; "old.key"; "hollow.crt"; "hollow.key"])
  then Some 50%Z else None.

Definition keypair (certFile keyFile : string) : option TLSCertificate :=
  if bool_decide (certFile = "a.crt" /\ keyFile = "a.key") then Some (mkTLS ["der-a"] None)
  else if bool_decide (certFile = "b.crt" /\ keyFile = "b.key") then Some (mkTLS ["der-b"] None)
  else if bool_decide (certFile = "wild.crt" /\ keyFile = "wild.key") then Some (mkTLS ["der-wild"] None)
  else if bool_decide (certFile = "old.crt" /\ keyFile = "old.key") then Some (mkTLS ["der-old"] None)
  else if bool_decide (certFile = "hollow.crt" /\ keyFile = "hollow.key") then Some (mkTLS [] None)
  else None.

Definition parse (der : string) : option X509 :=
  if bool_decide (der = "der-a") then Some leaf_a
  else if bool_decide (der = "der-b") then Some leaf_b
  else if bool_decide (der = "der-wild") then Some leaf_wild
  else if bool_decide (der = "der-old") then Some leaf_old
  else None.

(** The world at instant [t]. *)
Definition env (t : Time) : Env := mkEnv stat keypair parse t t.

(** The world at instant [t] after every file was written again at
    instant 150, with the same bytes. *)
Definition rewritten (t : Time) : Env :=
  mkEnv (fun file => const 150%Z <$> stat file) keypair parse t t.

(** The object that loading "a" at instant 100 puts in the store. *)
Definition cert_a : Cert :=
  mkCert "a" (mkFile "a.crt" 50%Z) (mkFile "a.key" 50%Z) 100%Z
         (mkTLS ["der-a"] (Some leaf_a)).

(** The pair "wild" as a caller of [Set] may hand it over: read, the leaf
    not parsed yet. *)
Definition cert_wild : Cert :=
  mkCert "wild" (mkFile "wild.crt" 50%Z) (mkFile "wild.key" 50%Z) 100%Z
         (mkTLS ["der-wild"] None).

(** The cache after loading the listed names, one call of [Reload] each,
    at instant 100. *)
Definition loaded (names : list string) : Cache :=
  foldl (fun c name => snd (Reload (env 100%Z) c name)) NewCache names.

(** [filepath.Abs] under the working directory [wd], on paths that are
    clean already (the cleaning itself is not modelled): a rooted path is
    its own absolute form, the empty path is the working directory, any
    other path is joined to it. *)
Definition AbsUnder (wd : string) (path : string) : option string :=
  match path with
  | EmptyString => Some wd
  | String c _ =>
      if Ascii.eqb c "/"%char then Some path else Some (wd +:+ "/" +:+ path)
  end.

(** A sort by length: stdpp's merge sort. *)
Definition sortByLength : list string -> list string := merge_sort shorter_eq.

End Demo.

(** ** Statements

    The notions the properties below are stated with, and the sentences
    of the design document that the code does not bear out, written down
    as they read. *)

Module Statements.
Import Certs.

(** A name has no label separator. *)
Definition no_dot (name : string) : Prop :=
  forall i, String.get i name <> Some "."%char.

(** "GetSNI("example.com") (no sub-label) never falls back to a wildcard" *)
Definition bare_domain_never_wildcard (c : Cache) : Prop :=
  sni c !! "example.com" = None -> GetSNI c "example.com" = None.

(** "If both modification times are not after cutoff, returns no update" *)
Definition no_update_unless_after (env : Env) (name : string) (cutoff : Time) : Prop :=
  forall cMod kMod,
    os_Stat env (name +:+ ".crt") = Some cMod ->
    os_Stat env (name +:+ ".key") = Some kMod ->
    After cMod cutoff = false -> After kMod cutoff = false ->
    LoadCertPair env name cutoff = Ok None.

(** What a handshake for [dnsName] is served: the [tls.Certificate] of the
    entry [GetSNI] finds. *)
Definition served (c : Cache) (dnsName : string) : option TLSCertificate :=
  GetSNI c dnsName ≫= fun p => Certificate <$> heap c !! p.

(** The files of the pair [name] are there and, by the test the code
    itself makes, not newer than the watermark [loaded]. *)
Definition files_unchanged (env : Env) (name : string) (loaded : Time) : Prop :=
  exists cMod kMod,
    os_Stat env (name +:+ ".crt") = Some cMod
    /\ os_Stat env (name +:+ ".key") = Some kMod
    /\ (cMod < loaded)%Z /\ (kMod < loaded)%Z.

(** "Calling Cache.Reload(name) twice with no intervening file change
    produces no DNS-index change and no error on either call" *)
Definition Reload_twice_changes_nothing (env1 env2 : Env) (c : Cache) (name : string) : Prop :=
  forall p obj,
    certs c !! name = Some p -> heap c !! p = Some obj ->
    files_unchanged env1 (Name obj) (Loaded obj) ->
    files_unchanged env2 (Name obj) (Loaded obj) ->
    let c1 := snd (Reload env1 c name) in
    let c2 := snd (Reload env2 c1 name) in
    (exists b, fst (Reload env1 c name) = Ok b)
    /\ (exists b, fst (Reload env2 c1 name) = Ok b)
    /\ forall dnsName, served c2 dnsName = served c dnsName.

(** The certificate [obj] at [p] is registered in the cache [c] the way
    [set] leaves it: under its name, under each of its DNS names, with its
    leaf parsed if it can be. *)
Definition published (env : Env) (c : Cache) (p : ptr) (obj : Cert) : Prop :=
  certs c !! Name obj = Some p
  /\ (forall dn, dn ∈ fst (Cert_DNSNames env obj) -> sni c !! dn = Some p)
  /\ snd (Cert_DNSNames env obj) = obj.

(** Paths. [below d a]: [d] is a path strictly under the directory [a]. *)
Definition is_absolute (path : string) : Prop := String.get 0 path = Some "/"%char.
Definition no_trailing_separator (path : string) : Prop :=
  String.get (String.length path - 1) path <> Some "/"%char.
Definition below (d a : string) : Prop := exists rest, d = a +:+ "/" +:+ rest.

(** The directories selected so far, and that none lies below another. *)
Definition member (set : gmap string bool) (dir : string) : Prop :=
  set !! dir = Some true.
Definition antichain (set : gmap string bool) : Prop :=
  forall k1 k2, member set k1 -> member set k2 -> ~ below k2 k1.
Definition all_true (set : gmap string bool) : Prop :=
  forall k v, set !! k = Some v -> v = true.

(** "Each surviving directory is in absolute form with trailing separators
    trimmed; the output contains no element that is a sub-path of another;
    every input directory either appears normalized in the output or has
    an ancestor in the output" *)
Definition normalizes_directories
    (Abs : string -> option string) (sortSlice : list string -> list string)
    (dirs : list string) : Prop :=
  forall out,
    RemoveSubdirectories Abs sortSlice dirs = Ok out ->
    (forall o, o ∈ out -> is_absolute o /\ no_trailing_separator o)
    /\ (forall o1 o2, o1 ∈ out -> o2 ∈ out -> ~ below o2 o1)
    /\ (forall d, d ∈ dirs ->
          exists a, Abs d = Some a /\ (a ∈ out \/ exists o, o ∈ out /\ below a o)).

End Statements.

(** ** Runs of operations on the reload queue *)

Module QueueOps.
Import Collections.

Section WithElem.
Context {T : Type} `{Countable T}.

(** A call on the queue. *)
Inductive QOp :=
| QPush (i : T)
| QPoll (ctxDone preferDone : bool)
| QRemove (i : T)
| QEmpty
| QExpand (ns : nat).

(** The queue after a call that returns; a call of [Expand] blocked in
    its transfer does not return. A call of [Poll] that stays in its
    [select] leaves the queue as it is. *)
Definition qstep (s : SetT T) (o : QOp) : option (SetT T) :=
  match o with
  | QPush i => Some (Push i s)
  | QPoll ctxDone preferDone => Some (snd (Poll ctxDone preferDone s))
  | QRemove i => Some (Remove i s)
  | QEmpty => Some (Empty s)
  | QExpand ns =>
      match Expand ns s with
      | Expanded s' _ => Some s'
      | ExpandSkipped s' => Some s'
      | ExpandStuck => None
      end
  end.


(** What every call keeps: the channel is within its capacity and open,
    and the map is empty. *)
Definition steady (s : SetT T) : Prop :=
  length (buf (ch s)) <= cap (ch s) /\ closed (ch s) = false /\ set s = ∅.

End WithElem.

Arguments QOp : clear implicits.

End QueueOps.

(** ** Package [certs]: file names, the side channel, the scan and the
    two loops *)

Module CertsMore.
Import Certs.

(** [FileType] is a string type with three named values. *)
Definition FileType := string.
Definition FileTypeUnknown : FileType := "".
Definition FileTypeCert : FileType := "crt".
Definition FileTypeKey : FileType := "key".

(** [filepath.Ext], the library function: the suffix of [path] from the
    last dot of its last element on, empty if that element has no dot.
    The loop runs [i] from [n - 1] down, and stops at a separator. *)
Fixpoint Ext_loop (path : string) (n : nat) : string :=
  match n with
  | 0 => ""
  | S i =>
      match String.get i path with
      | Some c =>
          if Ascii.eqb c "/"%char then ""
          else if Ascii.eqb c "."%char
               then String.substring i (String.length path - i) path
               else Ext_loop path i
      | None => ""
      end
  end.

Definition filepath_Ext (path : string) : string :=
  Ext_loop path (String.length path).

Definition FilePairNameAndType (file : string) : string * FileType :=
  let ext := filepath_Ext file in
  if bool_decide (ext = ".crt" \/ ext = ".key") then
    (String.substring 0 (String.length file - String.length ext) file,
     String.substring 1 (String.length ext - 1) ext)
  else ("", FileTypeUnknown).

Definition FilePairName (file : string) : string :=
  fst (FilePairNameAndType file).

(** The method [File] returns the address of one of the two [File]
    fields of its receiver, or nil. *)
Inductive FileField := TheCertFile | TheKeyFile.

Definition Cert_File (ft : FileType) : option FileField :=
  if bool_decide (ft = FileTypeCert) then Some TheCertFile
  else if bool_decide (ft = FileTypeKey) then Some TheKeyFile
  else None.

(** [f.Mod = mod] through that address. *)
Definition set_Mod (obj : Cert) (f : FileField) (mod_ : Time) : Cert :=
  match f with
  | TheCertFile =>
      mkCert (Name obj) (mkFile (Path (CertFile obj)) mod_) (KeyFile obj)
             (Loaded obj) (Certificate obj)
  | TheKeyFile =>
      mkCert (Name obj) (CertFile obj) (mkFile (Path (KeyFile obj)) mod_)
             (Loaded obj) (Certificate obj)
  end.

Definition SetModified (c : Cache) (file : string) (mod_ : Time) : Cache :=
  let '(name, ft) := FilePairNameAndType file in
  match Get c name ≫= (fun p => pair p <$> heap c !! p) with
  | None => c
  | Some (p, obj) =>
      match Cert_File ft with
      | None => c
      | Some f =>
          mkCache (<[p := set_Mod obj f mod_]> (heap c)) (certs c) (sni c) (modified c)
      end
  end.

(** [PopModified]: the names in the map, in no particular order, and the
    cache with a fresh map. *)
Definition PopModified (c : Cache) : list string * Cache :=
  (elements (dom (modified c)), mkCache (heap c) (certs c) (sni c) ∅).

(** The calls on a cache, and a run of them. [CSet] stands for a call of
    [Set] with objects the caller has made: each is put in the store at a
    fresh address, then registered. *)
Inductive COp :=
| CSet (env : Env) (objs : list Cert)
| CReload (env : Env) (name : string)
| CSetModified (file : string) (mod_ : Time)
| CPopModified.

Definition alloc (c : Cache) (obj : Cert) : ptr * Cache :=
  let p := fresh (dom (heap c)) in
  (p, mkCache (<[p := obj]> (heap c)) (certs c) (sni c) (modified c)).

Definition Set_objects (env : Env) (c : Cache) (objs : list Cert) : Cache :=
  foldl (fun c obj => let '(p, c') := alloc c obj in set env c' [Some p]) c objs.

Definition cstep (c : Cache) (o : COp) : Cache :=
  match o with
  | CSet env objs => Set_objects env c objs
  | CReload env name => snd (Reload env c name)
  | CSetModified file mod_ => SetModified c file mod_
  | CPopModified => snd (PopModified c)
  end.

Definition crun (ops : list COp) (c : Cache) : Cache := foldl cstep c ops.

(** A cache in which every name leads to an object of that name, every
    DNS name leads to an object, and the side map is empty. *)
Definition sound (c : Cache) : Prop :=
  (forall k p, certs c !! k = Some p ->
     exists obj, heap c !! p = Some obj /\ Name obj = k)
  /\ (forall dn p, sni c !! dn = Some p -> is_Some (heap c !! p))
  /\ modified c = ∅.

(** The second cache tracks every name and DNS name of the first. *)
Definition extends (c c' : Cache) : Prop :=
  (forall k, is_Some (certs c !! k) -> is_Some (certs c' !! k))
  /\ (forall dn, is_Some (sni c !! dn) -> is_Some (sni c' !! dn)).

(** *** The scan of a directory

    [filepath.WalkDir] calls its function once per file or directory under
    the root, and once more for a directory it cannot read; the walk ends
    with the first error the function returns. A [Visit] is one such call:
    the path, whether the entry is a directory, and the error passed in,
    if any, with what [os.IsNotExist] says of it. *)
Record Visit := mkVisit {
  v_path : string;
  v_isDir : bool;
  v_err : option bool }.

Inductive scan_error :=
| ErrWalk (path : string)     (* an error of the walk that is not "not exist" *)
| ErrCanceled.                (* ctx.Err() *)

(** The walk of [LoadDirectoryCerts]; [ctxDone] is the state of the
    context during the call. *)
Fixpoint walk_files (ctxDone : bool) (visits : list Visit) (files : gmap string bool)
  : scan_error + gmap string bool :=
  match visits with
  | [] => inr files
  | v :: rest =>
      match v_err v with
      | Some notExist =>
          if negb notExist then inl (ErrWalk (v_path v))
          else walk_files ctxDone rest files
      | None =>
          if ctxDone then inl ErrCanceled
          else if v_isDir v then walk_files ctxDone rest files
          else
            let name := FilePairName (v_path v) in
            if String.length name =? 0 then walk_files ctxDone rest files
            else walk_files ctxDone rest (<[name := true]> files)
      end
  end.

(** The loop over the names found. *)
Fixpoint load_names (env : Env) (ctxDone : bool) (names : list string)
  : scan_error + list Cert :=
  match names with
  | [] => inr []
  | name :: rest =>
      if ctxDone then inl ErrCanceled
      else
        match LoadCertPair env name zeroTime with
        | Ok (Some cert) =>
            match load_names env ctxDone rest with
            | inr certs => inr (cert :: certs)
            | inl e => inl e
            end
        | _ => load_names env ctxDone rest
        end
  end.

(** The file system as the scan sees it: the calls of the walk under a
    root, and the order in which ranging over a map of names yields its
    keys, which the language leaves open. *)
Record World := mkWorld {
  w_env : Env;
  w_walk : string -> list Visit;
  w_range : gmap string bool -> list string }.

Definition ranges (w : World) : Prop :=
  forall m, w_range w m ≡ₚ elements (dom m).

Definition LoadDirectoryCerts (w : World) (ctxDone : bool) (dir : string)
  : scan_error + list Cert :=
  match walk_files ctxDone (w_walk w dir) ∅ with
  | inl e => inl e
  | inr files => load_names (w_env w) ctxDone (w_range w files)
  end.

(** The walk came by a file, not a directory, whose path has the name
    [name], not empty, before ".crt" or ".key". *)
(** [n] separators in a row. *)
Fixpoint slashes (n : nat) : string :=
  match n with
  | 0 => ""
  | S n' => String "/"%char (slashes n')
  end.

Definition found (visits : list Visit) (name : string) : Prop :=
  name <> "" /\
  exists v, v ∈ visits /\ v_err v = None /\ v_isDir v = false
            /\ FilePairName (v_path v) = name.

(** [loadAllCerts]: nil, the error of the context, or the errors of the
    directories joined. *)
Inductive loadAll_error :=
| LoadCanceled
| LoadJoined (errs : list scan_error).

Fixpoint loadAllCerts_loop (w : World) (ctxDone : bool) (dirs : list string)
    (c : Cache) (errs : list scan_error) : option loadAll_error * Cache :=
  match dirs with
  | [] =>
      (match errs with [] => None | _ => Some (LoadJoined errs) end, c)
  | dir :: rest =>
      if ctxDone then (Some LoadCanceled, c)
      else
        match LoadDirectoryCerts w ctxDone dir with
        | inl e => loadAllCerts_loop w ctxDone rest c (errs ++ [e])
        | inr objs =>
            loadAllCerts_loop w ctxDone rest (Set_objects (w_env w) c objs) errs
        end
  end.

Definition loadAllCerts (w : World) (ctxDone : bool) (dirs : list string) (c : Cache)
  : option loadAll_error * Cache :=
  loadAllCerts_loop w ctxDone dirs c [].

(** *** The Reloader at work *)

Definition with_certs (r : Reloader) (c : Cache) : Reloader :=
  mkReloader (running r) (stopped r) (runCtx r) c (reloadQueue r).

Definition with_queue (r : Reloader) (q : Collections.SetT string) : Reloader :=
  mkReloader (running r) (stopped r) (runCtx r) (r_certs r) q.

Definition initializeAllCerts (w : World) (ctxDone : bool) (dirs : list string)
    (r : Reloader) : option loadAll_error * Reloader :=
  let '(err, c) := loadAllCerts w ctxDone dirs (r_certs r) in
  match err with
  | Some e => (Some e, with_certs r c)
  | None =>
      (None, with_queue (with_certs r c) (Collections.NewSet (Cache_Len c * 3)))
  end.

(** [GetCertificate]: the [tls.Certificate] of the entry for the server
    name of the handshake, or the error "no cert for name". *)
Definition GetCertificate (r : Reloader) (server : string) : option TLSCertificate :=
  match GetSNI (r_certs r) server ≫= (fun p => heap (r_certs r) !! p) with
  | None => None
  | Some cert => Some (Certificate cert)
  end.

(** [fsnotify.Op] is a set of bits; the two the Reloader looks for. *)
Definition fsnotify_Op := N.
Definition fsnotify_Create : fsnotify_Op := 1%N.
Definition fsnotify_Write : fsnotify_Op := 2%N.

Definition handleEvent (r : Reloader) (op : fsnotify_Op) (eventName : string) : Reloader :=
  if bool_decide (op = fsnotify_Create \/ op = fsnotify_Write) then
    let name := FilePairName eventName in
    if String.length name =? 0 then r
    else with_queue r (Collections.Push name (reloadQueue r))
  else r.

(** The growth step both loops end with. A call of [Expand] that blocks
    never returns ([None]). *)
Definition grow (r : Reloader) : option Reloader :=
  if (2 * Collections.Cap (reloadQueue r)) / 3 <=? Cache_Len (r_certs r) then
    match Collections.Expand (2 * Collections.Cap (reloadQueue r)) (reloadQueue r) with
    | Collections.Expanded q _ => Some (with_queue r q)
    | Collections.ExpandSkipped q => Some (with_queue r q)
    | Collections.ExpandStuck => None
    end
  else Some r.

(** One round of [processQueue]. *)
Inductive Round :=
| Continue (r : Reloader)                    (* on to the next round *)
| Return (err : bool) (r : Reloader)         (* the loop returns; [err]: with ctx.Err() *)
| Waiting                                    (* [Poll] stays in its [select] *)
| Hangs.                                     (* [Expand] never returns *)

Definition processQueue_round (env : Env) (ctxDone preferDone : bool) (r : Reloader)
  : Round :=
  match Collections.Poll ctxDone preferDone (reloadQueue r) with
  | (Collections.PollCtxErr, _) => Return true r
  | (Collections.PollNil, _) => Return false r
  | (Collections.PollBlocked, _) => Waiting
  | (Collections.PollValue name, q) =>
      let r1 := with_queue r q in
      match Reload env (r_certs r1) name with
      | (Err _, c) => Continue (with_certs r1 c)
      | (Ok add, c) =>
          let r2 := with_certs r1 c in
          if add then
            match grow r2 with
            | Some r3 => Continue r3
            | None => Hangs
            end
          else Continue r2
      end
  end.

(** The round of [watch] on a tick of the timer. *)
Definition watch_tick (w : World) (ctxDone : bool) (dirs : list string) (r : Reloader)
  : option Reloader :=
  let r1 := with_queue r (Collections.Empty (reloadQueue r)) in
  let '(_, c) := loadAllCerts w ctxDone dirs (r_certs r1) in
  grow (with_certs r1 c).

End CertsMore.

(** ** A directory to scan *)

Module DemoScan.
Import Certs CertsMore.

(** The walk of the directory ".", which holds the files of [Demo] and a
    file that is no part of a pair; any other root does not exist. *)
Definition walk (dir : string) : list Visit :=
  if bool_decide (dir = ".") then
    [mkVisit "." true None; mkVisit "README" false None;
     mkVisit "a.crt" false None; mkVisit "a.key" false None;
     mkVisit "old.crt" false None; mkVisit "old.key" false None;
     mkVisit "sub" true None]
  else [mkVisit dir false (Some true)].

Definition world (t : Time) : World :=
  mkWorld (Demo.env t) walk (fun m => elements (dom m)).

End DemoScan.

(** ** The vendored package [collections]: slices and the generic set *)

Module Generic.

Section Slices.
Context {T : Type} (zero : T) `{EqDecision T}.

(** [Reverse]: [i] runs from [n - 1] down to 0, appending [s[i]]. *)
Fixpoint Reverse_loop (s : list T) (n : nat) (res : list T) : list T :=
  match n with
  | 0 => res
  | S i =>
      match s !! i with
      | Some x => Reverse_loop s i (res ++ [x])
      | None => res
      end
  end.

Definition Reverse (s : list T) : list T := Reverse_loop s (length s) [].

(** [ReverseInPlace]: the two indices move towards each other, swapping;
    at most [fuel] rounds, and the length of the slice is enough. *)
Fixpoint ReverseInPlace_loop (fuel : nat) (s : list T) (i j : Z) : list T :=
  match fuel with
  | 0 => s
  | S fuel' =>
      if (i <? j)%Z then
        match s !! Z.to_nat i, s !! Z.to_nat j with
        | Some x, Some y =>
            ReverseInPlace_loop fuel' (<[Z.to_nat j := x]> (<[Z.to_nat i := y]> s))
                                (i + 1)%Z (j - 1)%Z
        | _, _ => s
        end
      else s
  end.

Definition ReverseInPlace (s : list T) : list T :=
  ReverseInPlace_loop (length s) s 0%Z (Z.of_nat (length s) - 1)%Z.

(** [zero] is the zero value of the element type. *)
Definition First (s : list T) : T :=
  if length s =? 0 then zero else default zero (s !! 0).

Definition Last (s : list T) : T :=
  if length s =? 0 then zero else default zero (s !! (length s - 1)).

Fixpoint Contains (s : list T) (target : T) : bool :=
  match s with
  | [] => false
  | e :: rest => if bool_decide (e = target) then true else Contains rest target
  end.

End Slices.

(** The generic set is a map to the empty struct: a finite set. Ranging
    over it yields its elements in an order the language leaves open:
    [range] is that order. *)
Section SetOf.
Context {T : Type} `{Countable T}.
Variable range : gset T -> list T.

Definition ranges_over : Prop := forall s, range s ≡ₚ elements s.

Definition NewSet (values : list T) : gset T :=
  foldl (fun output v => {[v]} ∪ output) ∅ values.

Definition Add (i : T) (s : gset T) : gset T := {[i]} ∪ s.
Definition Remove (i : T) (s : gset T) : gset T := s ∖ {[i]}.
Definition SetContains (s : gset T) (i : T) : bool := bool_decide (i ∈ s).
Definition Len (s : gset T) : nat := size s.

Definition Copy (s : gset T) : gset T :=
  foldl (fun newSet key => Add key newSet) (NewSet []) (range s).

Definition Union (s other : gset T) : gset T :=
  foldl (fun union k => Add k union)
        (foldl (fun union k => Add k union) (NewSet []) (range s))
        (range other).

Definition Intersect (s other : gset T) : gset T :=
  foldl (fun acc k => if SetContains other k then Add k acc else acc)
        (NewSet []) (range s).

Definition Subtract (s other : gset T) : gset T :=
  foldl (fun acc k => if negb (SetContains other k) then Add k acc else acc)
        (NewSet []) (range s).

Definition Difference (s other : gset T) : gset T :=
  foldl (fun acc k => if negb (SetContains s k) then Add k acc else acc)
        (foldl (fun acc k => if negb (SetContains other k) then Add k acc else acc)
               (NewSet []) (range s))
        (range other).

Fixpoint IsSubsetOf_loop (keys : list T) (other : gset T) : bool :=
  match keys with
  | [] => true
  | k :: rest => if negb (SetContains other k) then false else IsSubsetOf_loop rest other
  end.

Definition IsSubsetOf (s other : gset T) : bool := IsSubsetOf_loop (range s) other.

Definition AsSlice (s : gset T) : list T :=
  foldl (fun output key => output ++ [key]) [] (range s).

End SetOf.

End Generic.

(** ** The vendored package [collections]: the ring buffer *)

Module RingBuf.

Section WithElem.
Context {T : Type} (zero : T).

(** Go's [int] is an integer here; a slice is the list of its elements.
    Indexing out of range, making a slice of negative length and dividing
    by zero panic: [None]. *)
Record RingBuffer := mkRingBuffer {
  slice : list T;
  head : Z;
  tail : Z;
  size : Z
}.

Definition len (s : list T) : Z := Z.of_nat (length s).

Definition make (n : Z) : option (list T) :=
  if (n <? 0)%Z then None else Some (replicate (Z.to_nat n) zero).

Definition index (s : list T) (i : Z) : option T :=
  if (i <? 0)%Z then None else s !! Z.to_nat i.

Definition assign (s : list T) (i : Z) (v : T) : option (list T) :=
  if ((0 <=? i) && (i <? len s))%Z then Some (<[Z.to_nat i := v]> s) else None.

Definition remainder (a b : Z) : option Z :=
  if (b =? 0)%Z then None else Some (Z.rem a b).

Definition ringBufferMinimumGrow : Z := 4.
Definition ringBufferGrowFactor : Z := 200.
Definition ringBufferDefaultCapacity : Z := 4.

(** [sliceClear] and [sliceCopy]: [x] counts up from 0, [n] rounds are left. *)
Fixpoint sliceClear_loop (n : nat) (source : list T) (index_ x : Z)
  : option (list T) :=
  match n with
  | 0 => Some source
  | S n' =>
      source' ← assign source (x + index_) zero;
      sliceClear_loop n' source' index_ (x + 1)
  end.

Definition sliceClear (source : list T) (index_ length_ : Z) : option (list T) :=
  sliceClear_loop (Z.to_nat length_) source index_ 0.

Fixpoint sliceCopy_loop (n : nat) (source : list T) (sourceIndex : Z)
    (destination : list T) (destinationIndex x : Z) : option (list T) :=
  match n with
  | 0 => Some destination
  | S n' =>
      v ← index source (sourceIndex + x);
      destination' ← assign destination (destinationIndex + x) v;
      sliceCopy_loop n' source sourceIndex destination' destinationIndex (x + 1)
  end.

Definition sliceCopy (source : list T) (sourceIndex : Z)
    (destination : list T) (destinationIndex length_ : Z) : option (list T) :=
  sliceCopy_loop (Z.to_nat length_) source sourceIndex destination destinationIndex 0.

Definition NewRingBuffer : option RingBuffer :=
  s ← make ringBufferDefaultCapacity;
  Some {| slice := s; head := 0; tail := 0; size := 0 |}.

Definition NewRingBufferWithCapacity (capacity : Z) : option RingBuffer :=
  s ← make capacity;
  Some {| slice := s; head := 0; tail := 0; size := 0 |}.

Definition NewRingBufferFromValues (values : list T) : RingBuffer :=
  {| slice := values; head := 0; tail := len values - 1; size := len values |}.

Definition Len (rb : RingBuffer) : Z := size rb.

Definition Capacity (rb : RingBuffer) : Z := len (slice rb).

Definition Clear (rb : RingBuffer) : option RingBuffer :=
  s ← (if (head rb <? tail rb)%Z then
         sliceClear (slice rb) (head rb) (size rb)
       else
         s1 ← sliceClear (slice rb) (head rb) (len (slice rb) - head rb);
         sliceClear s1 0 (tail rb));
  Some {| slice := s; head := 0; tail := 0; size := 0 |}.

Definition setCapacity (rb : RingBuffer) (capacity : Z) : option RingBuffer :=
  newSlice ← make capacity;
  newSlice ← (if (0 <? size rb)%Z then
                if (head rb <? tail rb)%Z then
                  sliceCopy (slice rb) (head rb) newSlice 0 (size rb)
                else
                  n1 ← sliceCopy (slice rb) (head rb) newSlice 0
                         (len (slice rb) - head rb);
                  sliceCopy (slice rb) 0 n1 (len (slice rb) - head rb) (tail rb)
              else Some newSlice);
  Some {| slice := newSlice; head := 0;
          tail := (if (size rb =? capacity)%Z then 0 else size rb);
          size := size rb |}.

Definition Enqueue (value : T) (rb : RingBuffer) : option RingBuffer :=
  rb ← (if (size rb =? len (slice rb))%Z then
          let newCapacity := (len (slice rb) * (ringBufferGrowFactor / 100))%Z in
          let newCapacity :=
            if (newCapacity <? len (slice rb) + ringBufferMinimumGrow)%Z
            then (len (slice rb) + ringBufferMinimumGrow)%Z else newCapacity in
          setCapacity rb newCapacity
        else Some rb);
  s ← assign (slice rb) (tail rb) value;
  t ← remainder (tail rb + 1) (len s);
  Some {| slice := s; head := head rb; tail := t; size := size rb + 1 |}.

Definition Dequeue (rb : RingBuffer) : option (T * RingBuffer) :=
  if (size rb =? 0)%Z then Some (zero, rb)
  else
    removed ← index (slice rb) (head rb);
    h ← remainder (head rb + 1) (len (slice rb));
    Some (removed, {| slice := slice rb; head := h; tail := tail rb;
                      size := size rb - 1 |}).

Definition DequeueBack (rb : RingBuffer) : option (T * RingBuffer) :=
  if (size rb =? 0)%Z then Some (zero, rb)
  else if (tail rb =? 0)%Z then
    removed ← index (slice rb) (len (slice rb) - 1);
    Some (removed, {| slice := slice rb; head := head rb;
                      tail := len (slice rb) - 1; size := size rb - 1 |})
  else
    removed ← index (slice rb) (tail rb - 1);
    Some (removed, {| slice := slice rb; head := head rb;
                      tail := tail rb - 1; size := size rb - 1 |}).

Definition Peek (rb : RingBuffer) : option T :=
  if (size rb =? 0)%Z then Some zero else index (slice rb) (head rb).

Definition PeekBack (rb : RingBuffer) : option T :=
  if (size rb =? 0)%Z then Some zero
  else if (tail rb =? 0)%Z then index (slice rb) (len (slice rb) - 1)
  else index (slice rb) (tail rb - 1).

(** [Contents] returns the new slice and leaves the buffer with its slots
    cleared, and its indices and size as they were. *)
Definition Contents (rb : RingBuffer) : option (list T * RingBuffer) :=
  newSlice ← make (size rb);
  if (size rb =? 0)%Z then Some (newSlice, rb)
  else if (head rb <? tail rb)%Z then
    newSlice ← sliceCopy (slice rb) (head rb) newSlice 0 (size rb);
    s ← sliceClear (slice rb) (head rb) (size rb);
    Some (newSlice, {| slice := s; head := head rb; tail := tail rb;
                       size := size rb |})
  else
    newSlice ← sliceCopy (slice rb) (head rb) newSlice 0 (len (slice rb) - head rb);
    s ← sliceClear (slice rb) (head rb) (len (slice rb) - head rb);
    newSlice ← sliceCopy s 0 newSlice (len s - head rb) (tail rb);
    s ← sliceClear s 0 (tail rb);
    Some (newSlice, {| slice := s; head := head rb; tail := tail rb;
                       size := size rb |}).

Definition Drain (rb : RingBuffer) : option (list T * RingBuffer) :=
  newSlice ← make (size rb);
  if (size rb =? 0)%Z then Some (newSlice, rb)
  else
    newSlice ← (if (head rb <? tail rb)%Z then
                  sliceCopy (slice rb) (head rb) newSlice 0 (size rb)
                else
                  n1 ← sliceCopy (slice rb) (head rb) newSlice 0
                         (len (slice rb) - head rb);
                  sliceCopy (slice rb) 0 n1 (len (slice rb) - head rb) (tail rb));
    Some (newSlice, {| slice := slice rb; head := 0; tail := 0; size := 0 |}).

(** [Each]: the values handed to the consumer, in order. The cursor runs
    from [cursor] while it is below [bound]. *)
Fixpoint each_loop (n : nat) (s : list T) (cursor bound : Z) : option (list T) :=
  match n with
  | 0 => Some []
  | S n' =>
      if (cursor <? bound)%Z then
        v ← index s cursor;
        rest ← each_loop n' s (cursor + 1) bound;
        Some (v :: rest)
      else Some []
  end.

Definition each_range (s : list T) (from bound : Z) : option (list T) :=
  each_loop (Z.to_nat (bound - from)) s from bound.

Definition Each (rb : RingBuffer) : option (list T) :=
  if (size rb =? 0)%Z then Some []
  else if (head rb <? tail rb)%Z then each_range (slice rb) (head rb) (tail rb)
  else
    l1 ← each_range (slice rb) (head rb) (len (slice rb));
    l2 ← each_range (slice rb) 0 (tail rb);
    Some (l1 ++ l2).

(** [Consume]: the values handed to the consumer, and the buffer left. *)
Fixpoint Consume_loop (n : nat) (rb : RingBuffer) : option (list T * RingBuffer) :=
  match n with
  | 0 => Some ([], rb)
  | S n' =>
      '(v, rb') ← Dequeue rb;
      '(rest, rb'') ← Consume_loop n' rb';
      Some (v :: rest, rb'')
  end.

Definition Consume (rb : RingBuffer) : option (list T * RingBuffer) :=
  if (size rb =? 0)%Z then Some ([], rb)
  else Consume_loop (Z.to_nat (Len rb)) rb.

(** A buffer is well formed when its indices fit its slice: the size is at
    most the capacity, and the tail is [size] slots after the head, wrapping
    around. Its contents are the [size] slots from the head on. *)
Definition well_formed (rb : RingBuffer) : Prop :=
  (0 <= size rb <= len (slice rb))%Z /\
  ((len (slice rb) = 0 /\ head rb = 0 /\ tail rb = 0)%Z \/
   (0 <= head rb < len (slice rb) /\
    tail rb = (head rb + size rb) mod len (slice rb))%Z).

Definition rotated (h : nat) (s : list T) : list T := drop h s ++ take h s.

Definition queued (rb : RingBuffer) : list T :=
  take (Z.to_nat (size rb)) (rotated (Z.to_nat (head rb)) (slice rb)).

End WithElem.

End RingBuf.

(** ** The package [migration]: a sequence of linked migrations *)

Module Migrations.

(** The [Run] function of a migration is compared by its code pointer: it
    is that pointer here, 0 for a nil function. *)
Record Migration := mkMigration {
  Revision : string;
  Previous : string;
  Description : string;
  Run : N
}.

Definition zeroMigration : Migration :=
  {| Revision := ""; Previous := ""; Description := ""; Run := 0 |}.

Definition Equal (m o : option Migration) : bool :=
  match m, o with
  | None, None => true
  | None, Some _ | Some _, None => false
  | Some m, Some o =>
      bool_decide (Revision m = Revision o)
      && bool_decide (Previous m = Previous o)
      && bool_decide (Description m = Description o)
      && bool_decide (Run m = Run o)
  end.

(** [reverseSlice]: [i] counts up from 0, [n] rounds are left. *)
Fixpoint reverseSlice_loop (n i : nat) (ms ret : list Migration)
  : list Migration :=
  match n with
  | 0 => ret
  | S n' =>
      match ms !! i with
      | Some m => reverseSlice_loop n' (S i) ms (<[length ms - i - 1 := m]> ret)
      | None => ret
      end
  end.

Definition reverseSlice (ms : list Migration) : list Migration :=
  reverseSlice_loop (length ms) 0 ms (replicate (length ms) zeroMigration).

Record Sequence := mkSequence {
  order : gmap string Migration;
  root : option Migration;
  tail : option Migration
}.

Inductive error :=
| ErrDuplicateRevisions (cur m : Migration)
| ErrDuplicateRoots (r m : Migration)
| ErrMissingRoot
| ErrDuplicateTails (t m : Migration)
| ErrMissingTail
| ErrNoMigration
| ErrNotFound (revision : string).

Inductive result (A : Type) :=
| Ok (a : A)
| Err (e : error).
Arguments Ok {A} a.
Arguments Err {A} e.

(** One round of the first loop of [NewSequence], on the sequence under
    construction and the map [previous]. *)
Definition scan_one (st : Sequence * gmap string bool) (m : Migration)
  : result (Sequence * gmap string bool) :=
  let '(s, previous) := st in
  match order s !! Revision m with
  | Some cur =>
      if negb (Equal (Some cur) (Some m)) then Err (ErrDuplicateRevisions cur m)
      else Ok (s, previous)
  | None =>
      let s := {| order := <[Revision m := m]> (order s);
                  root := root s; tail := tail s |} in
      if negb (bool_decide (Previous m = "")) then
        Ok (s, <[Previous m := true]> previous)
      else
        match root s with
        | Some r => Err (ErrDuplicateRoots r m)
        | None => Ok ({| order := order s; root := Some m; tail := tail s |},
                      previous)
        end
  end.

Fixpoint scan (all : list Migration) (st : Sequence * gmap string bool)
  : result (Sequence * gmap string bool) :=
  match all with
  | [] => Ok st
  | m :: rest =>
      match scan_one st m with
      | Ok st' => scan rest st'
      | Err e => Err e
      end
  end.

(** One round of the second loop, on an entry of the map [order]. *)
Definition pick_one (previous : gmap string bool) (s : Sequence)
    (entry : string * Migration) : result Sequence :=
  let '(rev, m) := entry in
  if default false (previous !! rev) then Ok s
  else
    match tail s with
    | Some t => Err (ErrDuplicateTails t m)
    | None => Ok {| order := order s; root := root s; tail := Some m |}
    end.

Fixpoint pick (previous : gmap string bool) (entries : list (string * Migration))
    (s : Sequence) : result Sequence :=
  match entries with
  | [] => Ok s
  | entry :: rest =>
      match pick_one previous s entry with
      | Ok s' => pick previous rest s'
      | Err e => Err e
      end
  end.

Section WithRange.
(** Ranging over a map yields its entries in an order the language leaves
    open: [range] is that order. *)
Variable range : gmap string Migration -> list (string * Migration).

Definition ranges_map : Prop := forall m, range m ≡ₚ map_to_list m.

Definition NewSequence (all : list Migration) : result Sequence :=
  match scan all ({| order := ∅; root := None; tail := None |}, ∅) with
  | Err e => Err e
  | Ok (s, previous) =>
      match root s with
      | None => Err ErrMissingRoot
      | Some _ =>
          match pick previous (range (order s)) s with
          | Err e => Err e
          | Ok s =>
              match tail s with
              | None => Err ErrMissingTail
              | Some _ => Ok s
              end
          end
      end
  end.

End WithRange.

Definition Get (s : Sequence) (revision : string) : result Migration :=
  match order s !! revision with
  | Some m => Ok m
  | None => Err ErrNoMigration
  end.

(** The loop of [MigrationsFrom]. Every round counts one up and the loop
    gives up when the count passes the number of migrations: [fuel] rounds
    are allowed, and [None] is the loop not done by then. *)
Fixpoint MigrationsFrom_loop (fuel : nat) (s : Sequence) (start : Migration)
    (ret : list Migration) (count : nat) (curr : Migration)
  : option (result (list Migration)) :=
  if negb (bool_decide (Revision curr = Revision start)) then
    match fuel with
    | 0 => None
    | S fuel' =>
        let ret := ret ++ [curr] in
        let count := count + 1 in
        if bool_decide (Previous curr = "") || (size (order s) <? count) then
          Some (Err (ErrNotFound (Revision start)))
        else
          MigrationsFrom_loop fuel' s start ret count
            (default zeroMigration (order s !! Previous curr))
    end
  else Some (Ok (reverseSlice (ret ++ [start]))).

(** Dereferencing a nil [tail] or [root] panics: [None]. *)
Definition MigrationsFrom (s : Sequence) (start : Migration)
  : option (result (list Migration)) :=
  curr ← tail s;
  MigrationsFrom_loop (size (order s) + 1) s start [] 0 curr.

Definition All (s : Sequence) : option (result (list Migration)) :=
  r ← root s;
  MigrationsFrom s r.

(** A chain of migrations: the first has no previous revision, every other
    one names the revision of the one before it, and no revision occurs
    twice. *)
Fixpoint linked (prev : string) (ms : list Migration) : Prop :=
  match ms with
  | [] => True
  | m :: rest =>
      Previous m = prev /\ (rest = [] \/ Revision m <> "") /\
      linked (Revision m) rest
  end.

Definition chain (ms : list Migration) : Prop :=
  ms <> [] /\ linked "" ms /\ NoDup (Revision <$> ms).

End Migrations.

(** * Properties *)

(** ** The reload queue *)

Module QueueFacts.
Import Collections.

Section WithElem.
Context {T : Type} `{Countable T}.
Implicit Types (s : SetT T) (i v : T).

(** [Push] has two guards, and returns the receiver as it is on both. *)
Lemma Push_member s i : is_Some (set s !! i) -> Push i s = s.
Proof. intros [b Hb]. unfold Push. now rewrite Hb. Qed.

Lemma Push_full s i : length (buf (ch s)) = cap (ch s) -> Push i s = s.
Proof.
  intros Hfull. unfold Push. destruct (set s !! i); [reflexivity|].
  apply Nat.eqb_eq in Hfull. now rewrite Hfull.
Qed.

(** Past the guards it sends on the channel, and that is all it does. *)
Lemma Push_sends s i :
  set s !! i = None -> length (buf (ch s)) <> cap (ch s) ->
  Push i s = mkSet (set s) (send (ch s) i).
Proof.
  intros Hnone Hroom. unfold Push. rewrite Hnone.
  apply Nat.eqb_neq in Hroom. now rewrite Hroom.
Qed.

(** No call of [Push] writes the map. *)
Lemma Push_keeps_set s i : set (Push i s) = set s.
Proof.
  unfold Push. destruct (set s !! i); [reflexivity|].
  now destruct (_ =? _).
Qed.

Lemma pushes_keeps_set (l : list T) s : set (pushes l s) = set s.
Proof.
  revert s. induction l as [|i l IH]; intros s; [reflexivity|].
  unfold pushes in *. simpl. rewrite IH. apply Push_keeps_set.
Qed.

Lemma pushes_keeps_cap (l : list T) s : Cap (pushes l s) = Cap s.
Proof.
  revert s. induction l as [|i l IH]; intros s; [reflexivity|].
  unfold pushes in *. simpl. rewrite IH. unfold Cap, Channel, Push.
  destruct (set s !! i); [reflexivity|]. now destruct (_ =? _).
Qed.

(** With the map never written, a queue that starts with an empty map
    keeps it empty, and the first guard of [Push] never fires. *)
Lemma pushes_NewSet_set (n : nat) (l : list T) : set (pushes l (NewSet n)) = ∅.
Proof. now rewrite pushes_keeps_set. Qed.

(** The guard of [Expand] returns early for every larger capacity. *)
Lemma Expand_larger_skipped s (ns : nat) :
  Cap s < ns -> Expand ns s = ExpandSkipped s.
Proof.
  intros Hlt. unfold Expand. unfold Cap, Channel in Hlt.
  apply Nat.ltb_lt in Hlt. now rewrite Hlt.
Qed.

(** The call the two loops make, [Expand(2 * Cap())], does nothing on a
    queue with room for at least one value. *)
Lemma Expand_double_skipped s : 0 < Cap s -> Expand (2 * Cap s) s = ExpandSkipped s.
Proof. intros Hpos. apply Expand_larger_skipped. lia. Qed.

(** The transfer keeps the order and stops at the new capacity. *)
Lemma transfer_fits (old : list T) (new : Chan T) :
  length (buf new) + length old <= cap new ->
  transfer old new = Some (mkChan (buf new ++ old) (cap new) (closed new)).
Proof.
  revert new. induction old as [|v old IH]; intros new Hfit; simpl in *.
  - rewrite app_nil_r. now destruct new.
  - assert (Hlt : (length (buf new) <? cap new) = true) by (apply Nat.ltb_lt; lia).
    rewrite Hlt, IH; simpl.
    + now rewrite <- app_assoc.
    + rewrite length_app. simpl. lia.
Qed.

Lemma transfer_overflow (old : list T) (new : Chan T) :
  length (buf new) <= cap new ->
  cap new < length (buf new) + length old -> transfer old new = None.
Proof.
  revert new. induction old as [|v old IH]; intros new Hle Hover; simpl in *.
  - lia.
  - destruct (Nat.ltb_spec (length (buf new)) (cap new)) as [Hlt|Hge]; [|reflexivity].
    apply IH; simpl; rewrite length_app; simpl; lia.
Qed.



(** What is polled was in the channel, and what is in the channel after
    [Empty] was pushed since. *)
Lemma Push_buf s i v : v ∈ buf (ch (Push i s)) -> v ∈ buf (ch s) \/ v = i.
Proof.
  unfold Push. destruct (set s !! i); [auto|].
  destruct (_ =? _); [auto|]. simpl. intros Hin.
  apply elem_of_app in Hin as [Hin|Hin]; [auto|].
  apply list_elem_of_singleton in Hin. auto.
Qed.

Lemma pushes_buf (l : list T) s v :
  v ∈ buf (ch (pushes l s)) -> v ∈ buf (ch s) \/ v ∈ l.
Proof.
  revert s. induction l as [|i l IH]; intros s; [auto|].
  unfold pushes in *. simpl. intros Hin.
  destruct (IH _ Hin) as [Hbuf|Hl]; [|right; now right].
  destruct (Push_buf s i v Hbuf) as [? | ->]; [auto|right; now left].
Qed.

Lemma polls_from_buf (n : nat) s v :
  PollValue v ∈ fst (polls n s) -> v ∈ buf (ch s).
Proof.
  revert s. induction n as [|n IH]; intros s; simpl.
  - intros Hin. now apply elem_of_nil in Hin.
  - destruct (Poll false false s) as [r s1] eqn:Hpoll.
    destruct (polls n s1) as [rs s2] eqn:Hrest. simpl.
    unfold Poll, Channel in Hpoll. simpl in Hpoll.
    destruct (buf (ch s)) as [|v0 rest] eqn:Hbuf.
    + destruct (closed (ch s)); injection Hpoll as <- <-; intros Hin;
        apply elem_of_cons in Hin as [Hin|Hin]; try discriminate;
        specialize (IH s); rewrite Hrest in IH; simpl in IH;
        specialize (IH Hin); rewrite Hbuf in IH; exact IH.
    + injection Hpoll as <- <-. intros Hin.
      apply elem_of_cons in Hin as [[= ->]|Hin]; [now left|].
      right. specialize (IH (Remove v0 (mkSet (set s) (mkChan rest (cap (ch s)) (closed (ch s)))))).
      rewrite Hrest in IH. exact (IH Hin).
Qed.

Lemma polls_after_Empty (l : list T) s (n : nat) v :
  PollValue v ∈ fst (polls n (pushes l (Empty s))) -> v ∈ l.
Proof.
  intros Hin. apply polls_from_buf in Hin.
  apply pushes_buf in Hin as [Hin|Hin]; [|exact Hin].
  simpl in Hin. now apply elem_of_nil in Hin.
Qed.

End WithElem.

(** C1. The queue does not deduplicate: [Push] checks the membership map
    but never writes it. On a fresh queue of capacity 2, two pushes of the
    key "a" leave the map empty and both in the channel, and two polls
    deliver "a" twice, where the design asks for one delivery. *)
Theorem Push_same_key_twice_delivered_twice :
  let s := pushes ["a"; "a"] (NewSet 2) in
  Len s = 0
  /\ buf (ch s) = ["a"; "a"]
  /\ fst (polls 2 s) = [PollValue "a"; PollValue "a"].
Proof. vm_compute. repeat split. Qed.

(** C2. [Expand] with a larger capacity does nothing: on a queue of
    capacity 2 holding "a", [Expand 4] takes the early return and the
    capacity stays 2, while [Expand 1] replaces the channel by one of
    capacity 1, so the capacity goes down. *)
Theorem Expand_guard_inverted :
  let s := pushes ["a"] (NewSet 2) in
  Expand 4 s = ExpandSkipped s
  /\ Cap s = 2
  /\ Expand 1 s = Expanded (mkSet ∅ (mkChan ["a"] 1 false)) (mkChan [] 2 true).
Proof. vm_compute. repeat split. Qed.

End QueueFacts.

(** ** Names and the DNS index *)

Module CacheFacts.
Import Certs Statements.

Lemma no_dot_cons (c : ascii) (s : string) :
  no_dot (String c s) <-> c <> "."%char /\ no_dot s.
Proof.
  unfold no_dot. split.
  - intros Hno. split.
    + intros ->. now apply (Hno 0).
    + intros i. apply (Hno (S i)).
  - intros [Hc Hs] [|i]; simpl.
    + congruence.
    + apply Hs.
Qed.

(** [WildcardFor] cuts a name at its first separator. *)
Lemma WildcardFor_no_dot (name : string) : no_dot name -> WildcardFor name = "".
Proof.
  induction name as [|c rest IH]; simpl; intros Hno; [reflexivity|].
  apply no_dot_cons in Hno as [Hc Hrest].
  destruct (Ascii.eqb_spec c "."); [contradiction|auto].
Qed.

Lemma WildcardFor_first_dot (pre suf : string) :
  no_dot pre -> WildcardFor (pre +:+ "." +:+ suf) = "*." +:+ suf.
Proof.
  induction pre as [|c rest IH]; simpl; intros Hno; [reflexivity|].
  apply no_dot_cons in Hno as [Hc Hrest].
  destruct (Ascii.eqb_spec c "."); [contradiction|auto].
Qed.

(** C4, amended. [GetSNI] returns the exact entry when there is one; on a
    miss, a name with a separator is looked up again under "*" followed by
    the name from its first separator on, and a name without a separator
    gives nil. The name "example.com" has a separator, so on a miss it is
    looked up under "*.com". *)
Theorem GetSNI_exact_then_wildcard (c : Cache) :
  (forall d p, sni c !! d = Some p -> GetSNI c d = Some p)
  /\ (forall pre suf, no_dot pre ->
        sni c !! (pre +:+ "." +:+ suf) = None ->
        GetSNI c (pre +:+ "." +:+ suf) = sni c !! ("*." +:+ suf))
  /\ (forall d, no_dot d -> sni c !! d = None -> GetSNI c d = None)
  /\ (sni c !! "example.com" = None ->
      GetSNI c "example.com" = sni c !! "*.com").
Proof.
  repeat split.
  - intros d p Hd. unfold GetSNI. now rewrite Hd.
  - intros pre suf Hno Hmiss. unfold GetSNI. rewrite Hmiss.
    now rewrite WildcardFor_first_dot.
  - intros d Hno Hmiss. unfold GetSNI. rewrite Hmiss.
    now rewrite WildcardFor_no_dot.
  - intros Hmiss. unfold GetSNI. now rewrite Hmiss.
Qed.

Lemma no_dot_api : no_dot "api".
Proof. intros [|[|[|[|i]]]]; simpl; congruence. Qed.

Lemma no_dot_localhost : no_dot "localhost".
Proof. do 10 (try (intros [|i]; [simpl; congruence|revert i])); simpl; congruence. Qed.

Lemma GetSNI_exact_then_wildcard_witness :
  let c := Demo.loaded ["a"; "wild"] in
  GetSNI c "a.example.com" = Some 1%positive
  /\ GetSNI c "api.example.com" = sni c !! "*.example.com"
  /\ GetSNI c "localhost" = None
  /\ GetSNI c "example.com" = sni c !! "*.com".
Proof.
  intros c.
  destruct (GetSNI_exact_then_wildcard c) as (Hexact & Hwild & Hbare & Hcom).
  split; [|split; [|split]].
  - apply Hexact. vm_compute. reflexivity.
  - apply (Hwild "api" "example.com" no_dot_api). vm_compute. reflexivity.
  - apply (Hbare "localhost" no_dot_localhost). vm_compute. reflexivity.
  - apply Hcom. vm_compute. reflexivity.
Defined.

(** C4, as stated, fails: with the wildcard certificate for "*.com"
    loaded and no entry for "example.com", the lookup of "example.com"
    returns the wildcard certificate. *)
Lemma GetSNI_example_com_falls_back :
  ~ bare_domain_never_wildcard (Demo.loaded ["wild"]).
Proof.
  unfold bare_domain_never_wildcard. intros Hnever.
  assert (Hmiss : sni (Demo.loaded ["wild"]) !! "example.com" = None)
    by (vm_compute; reflexivity).
  specialize (Hnever Hmiss). vm_compute in Hnever. discriminate.
Qed.

(** The inner loop of [set]: afterwards every name of the list maps to
    [p], and every other name to what it mapped to. *)
Lemma lookup_foldl_insert (p : ptr) (l : list string) (m : gmap string ptr) (k : string) :
  foldl (fun m dn => <[dn := p]> m) m l !! k
  = if decide (k ∈ l) then Some p else m !! k.
Proof.
  revert m. induction l as [|dn l IH]; intros m; simpl.
  - destruct (decide (k ∈ [])) as [Hin|_]; [|reflexivity]. now apply elem_of_nil in Hin.
  - rewrite IH. destruct (decide (k ∈ l)) as [Hin|Hnin].
    + rewrite decide_True; [reflexivity|now right].
    + destruct (decide (dn = k)) as [->|Hne].
      * rewrite lookup_insert_eq. rewrite decide_True; [reflexivity|now left].
      * rewrite lookup_insert_ne by assumption.
        rewrite decide_False; [reflexivity|].
        intros Hin. apply elem_of_cons in Hin as [->|Hin]; congruence.
Qed.

(** [DNSNames] with a chain and a leaf, cached or parsed now. *)
Lemma Cert_DNSNames_leaf (env : Env) (c : Cert) (der : string) (rest : list string) (leaf : X509) :
  Chain (Certificate c) = der :: rest ->
  (Leaf (Certificate c) = Some leaf
   \/ (Leaf (Certificate c) = None /\ x509_ParseCertificate env der = Some leaf)) ->
  fst (Cert_DNSNames env c) = DNSNames leaf ++ [CommonName leaf]
  /\ Name (snd (Cert_DNSNames env c)) = Name c.
Proof.
  intros Hchain Hleaf. unfold Cert_DNSNames. rewrite Hchain.
  destruct Hleaf as [Hcached|[Hnil Hparse]].
  - now rewrite Hcached.
  - now rewrite Hnil, Hparse.
Qed.

(** C10. For a certificate with a chain whose leaf is parsed (cached on
    the object, or parsed from the first entry of the chain now),
    [DNSNames] is the leaf's SAN entries followed by its Common Name, also
    when the Common Name is empty; [Set] then registers the certificate
    under the empty name, and [GetSNI] of the empty name returns it. *)
Theorem DNSNames_ends_with_CommonName
    (env : Env) (c : Cert) (der : string) (rest : list string) (leaf : X509) :
  Chain (Certificate c) = der :: rest ->
  (Leaf (Certificate c) = Some leaf
   \/ (Leaf (Certificate c) = None /\ x509_ParseCertificate env der = Some leaf)) ->
  fst (Cert_DNSNames env c) = DNSNames leaf ++ [CommonName leaf]
  /\ (CommonName leaf = "" ->
      forall (cache : Cache) (p : ptr), heap cache !! p = Some c ->
        sni (Cache_Set env cache [Some p]) !! "" = Some p
        /\ GetSNI (Cache_Set env cache [Some p]) "" = Some p).
Proof.
  intros Hchain Hleaf.
  destruct (Cert_DNSNames_leaf env c der rest leaf Hchain Hleaf) as [Hnames _].
  split; [exact Hnames|].
  intros Hcn cache p Hp.
  assert (Hsni : sni (Cache_Set env cache [Some p]) !! "" = Some p).
  { unfold Cache_Set, set. simpl. rewrite Hp.
    destruct (Cert_DNSNames env c) as [names c'] eqn:Hcall. simpl in *.
    rewrite lookup_foldl_insert, Hnames, Hcn.
    rewrite decide_True; [reflexivity|].
    apply elem_of_app. right. now left. }
  split; [exact Hsni|]. unfold GetSNI. now rewrite Hsni.
Qed.

Lemma DNSNames_ends_with_CommonName_witness :
  fst (Cert_DNSNames (Demo.env 100%Z) Demo.cert_wild) = ["*.com"; ""]
  /\ GetSNI (Cache_Set (Demo.env 100%Z)
                       (mkCache {[5%positive := Demo.cert_wild]} ∅ ∅ ∅)
                       [Some 5%positive]) "" = Some 5%positive.
Proof.
  destruct (DNSNames_ends_with_CommonName (Demo.env 100%Z) Demo.cert_wild
              "der-wild" [] Demo.leaf_wild eq_refl (or_intror (conj eq_refl eq_refl)))
    as [Hnames Hempty].
  split; [exact Hnames|].
  apply (Hempty eq_refl). vm_compute. reflexivity.
Defined.

(** ** Loading and reloading *)

(** C6. A failing [Reload] leaves the cache as it was: the store, the
    name map and the DNS index. *)
Theorem Reload_error_keeps_cache (env : Env) (c : Cache) (name : string) (e : error) :
  fst (Reload env c name) = Err e -> snd (Reload env c name) = c.
Proof.
  unfold Reload.
  destruct (certs c !! name ≫= _) as [[p obj]|].
  - destruct (Cert_Reload env obj); simpl; [discriminate|reflexivity].
  - destruct (LoadCertPair env name zeroTime) as [[obj|]|e']; simpl;
      [discriminate|discriminate|reflexivity].
Qed.

Lemma Reload_error_keeps_cache_witness :
  fst (Reload (Demo.rewritten 2000%Z) (Demo.loaded ["a"; "b"]) "a") = Err ErrInvalidCertParsed
  /\ snd (Reload (Demo.rewritten 2000%Z) (Demo.loaded ["a"; "b"]) "a") = Demo.loaded ["a"; "b"].
Proof.
  assert (Hfails : fst (Reload (Demo.rewritten 2000%Z) (Demo.loaded ["a"; "b"]) "a")
                   = Err ErrInvalidCertParsed) by (vm_compute; reflexivity).
  split; [exact Hfails|].
  exact (Reload_error_keeps_cache _ _ _ _ Hfails).
Defined.

(** The staleness test of [LoadCertPair], as an order on instants. *)
Lemma stale_test (cutoff cMod kMod : Time) :
  After cutoff cMod && After cutoff kMod = true <-> (cMod < cutoff)%Z /\ (kMod < cutoff)%Z.
Proof.
  unfold After. rewrite andb_true_iff, !Z.ltb_lt. reflexivity.
Qed.

(** The validity test, likewise. *)
Lemma validity_test (now : Time) (leaf : X509) :
  After now (NotAfter leaf) || Before now (NotBefore leaf) = false
  <-> (NotBefore leaf <= now <= NotAfter leaf)%Z.
Proof.
  unfold After, Before. rewrite orb_false_iff, !Z.ltb_ge. lia.
Qed.

(** With both files there and the cutoff strictly after both
    modification times, nothing is read. *)
Lemma LoadCertPair_no_update (env : Env) (name : string) (cutoff cMod kMod : Time) :
  os_Stat env (name +:+ ".crt") = Some cMod ->
  os_Stat env (name +:+ ".key") = Some kMod ->
  (cMod < cutoff)%Z /\ (kMod < cutoff)%Z ->
  LoadCertPair env name cutoff = Ok None.
Proof.
  intros Hc Hk Hstale. unfold LoadCertPair. rewrite Hc, Hk.
  apply stale_test in Hstale. now rewrite Hstale.
Qed.

(** C5, amended. [LoadCertPair] fails when either file is missing; with
    both there and the cutoff strictly after both modification times it
    returns no update; in every other case (one of the two times equal to
    the cutoff or after it) it reads the pair and fails if the key pair
    does not load, if the chain is empty, if the leaf does not parse or if
    the current instant is outside NotBefore..NotAfter, and returns the
    loaded Cert otherwise. *)
Theorem LoadCertPair_cases (env : Env) (name : string) (cutoff : Time) :
  let certFile := name +:+ ".crt" in
  let keyFile := name +:+ ".key" in
  (os_Stat env certFile = None \/ os_Stat env keyFile = None ->
     exists e, LoadCertPair env name cutoff = Err e)
  /\ (forall cMod kMod,
        os_Stat env certFile = Some cMod -> os_Stat env keyFile = Some kMod ->
        ((cMod < cutoff)%Z /\ (kMod < cutoff)%Z ->
           LoadCertPair env name cutoff = Ok None)
        /\ (~ ((cMod < cutoff)%Z /\ (kMod < cutoff)%Z) ->
            (tls_LoadX509KeyPair env certFile keyFile = None ->
               LoadCertPair env name cutoff = Err ErrLoadX509KeyPair)
            /\ forall kp, tls_LoadX509KeyPair env certFile keyFile = Some kp ->
                (Chain kp = [] -> LoadCertPair env name cutoff = Err ErrNoCertsParsed)
                /\ forall der rest, Chain kp = der :: rest ->
                    (x509_ParseCertificate env der = None ->
                       LoadCertPair env name cutoff = Err ErrParseCertificate)
                    /\ forall leaf, x509_ParseCertificate env der = Some leaf ->
                        (~ (NotBefore leaf <= now_validity env <= NotAfter leaf)%Z ->
                           LoadCertPair env name cutoff = Err ErrInvalidCertParsed)
                        /\ ((NotBefore leaf <= now_validity env <= NotAfter leaf)%Z ->
                            LoadCertPair env name cutoff
                            = Ok (Some (mkCert name (mkFile certFile cMod) (mkFile keyFile kMod)
                                               (now_loaded env)
                                               (mkTLS (Chain kp) (Some leaf))))))).
Proof.
  intros certFile keyFile. split.
  - intros [Hc|Hk]; unfold LoadCertPair; fold certFile keyFile.
    + rewrite Hc. eauto.
    + rewrite Hk. destruct (os_Stat env certFile); eauto.
  - intros cMod kMod Hc Hk. unfold LoadCertPair. fold certFile keyFile.
    rewrite Hc, Hk. split.
    + intros Hstale. apply stale_test in Hstale. now rewrite Hstale.
    + intros Hfresh.
      assert (Htest : After cutoff cMod && After cutoff kMod = false).
      { apply not_true_is_false. now rewrite stale_test. }
      rewrite Htest. split; [intros Hload; now rewrite Hload|].
      intros kp Hload. rewrite Hload. split; [intros Hnil; now rewrite Hnil|].
      intros der rest Hchain. rewrite Hchain.
      split; [intros Hparse; now rewrite Hparse|].
      intros leaf Hparse. rewrite Hparse. split.
      * intros Hout.
        assert (Hv : After (now_validity env) (NotAfter leaf)
                     || Before (now_validity env) (NotBefore leaf) = true).
        { apply not_false_is_true. now rewrite validity_test. }
        now rewrite Hv.
      * intros Hin. apply validity_test in Hin. now rewrite Hin.
Qed.

Lemma LoadCertPair_cases_witness :
  LoadCertPair (Demo.env 100%Z) "a" 51%Z = Ok None
  /\ LoadCertPair (Demo.env 100%Z) "a" 50%Z
     = Ok (Some (mkCert "a" (mkFile "a.crt" 50%Z) (mkFile "a.key" 50%Z) 100%Z
                        (mkTLS ["der-a"] (Some Demo.leaf_a))))
  /\ LoadCertPair (Demo.env 100%Z) "old" 0%Z = Err ErrInvalidCertParsed
  /\ LoadCertPair (Demo.env 100%Z) "hollow" 0%Z = Err ErrNoCertsParsed
  /\ exists e, LoadCertPair (Demo.env 100%Z) "missing" 0%Z = Err e.
Proof.
  split; [|split; [|split; [|split]]].
  - apply (proj2 (LoadCertPair_cases (Demo.env 100%Z) "a" 51%Z) 50%Z 50%Z eq_refl eq_refl).
    lia.
  - destruct (proj2 (LoadCertPair_cases (Demo.env 100%Z) "a" 50%Z) 50%Z 50%Z eq_refl eq_refl)
      as [_ Hfresh].
    destruct Hfresh as [_ Hload]; [lia|].
    destruct (Hload (mkTLS ["der-a"] None) eq_refl) as [_ Hchain].
    destruct (Hchain "der-a" [] eq_refl) as [_ Hleaf].
    destruct (Hleaf Demo.leaf_a eq_refl) as [_ Hvalid].
    apply Hvalid. simpl. lia.
  - destruct (proj2 (LoadCertPair_cases (Demo.env 100%Z) "old" 0%Z) 50%Z 50%Z eq_refl eq_refl)
      as [_ Hfresh].
    destruct Hfresh as [_ Hload]; [lia|].
    destruct (Hload (mkTLS ["der-old"] None) eq_refl) as [_ Hchain].
    destruct (Hchain "der-old" [] eq_refl) as [_ Hleaf].
    destruct (Hleaf Demo.leaf_old eq_refl) as [Hinvalid _].
    apply Hinvalid. simpl. lia.
  - destruct (proj2 (LoadCertPair_cases (Demo.env 100%Z) "hollow" 0%Z) 50%Z 50%Z eq_refl eq_refl)
      as [_ Hfresh].
    destruct Hfresh as [_ Hload]; [lia|].
    destruct (Hload (mkTLS [] None) eq_refl) as [Hnil _].
    now apply Hnil.
  - apply (proj1 (LoadCertPair_cases (Demo.env 100%Z) "missing" 0%Z)). now left.
Defined.

(** C5, as stated, fails where a modification time equals the cutoff:
    the files of "a" were written at instant 50, and with the cutoff at 50
    they are not after it, yet the pair is read and a Cert returned. *)
Lemma LoadCertPair_reloads_at_cutoff :
  ~ no_update_unless_after (Demo.env 100%Z) "a" 50%Z.
Proof.
  intros Hclaim.
  specialize (Hclaim 50%Z 50%Z eq_refl eq_refl eq_refl eq_refl).
  vm_compute in Hclaim. discriminate.
Qed.

(** With the files unchanged, the method [Reload] of [Cert] returns nil
    and leaves the receiver alone. *)
Lemma Cert_Reload_unchanged (env : Env) (obj : Cert) :
  files_unchanged env (Name obj) (Loaded obj) -> Cert_Reload env obj = Ok obj.
Proof.
  intros (cMod & kMod & Hc & Hk & Hlt).
  unfold Cert_Reload.
  now rewrite (LoadCertPair_no_update env (Name obj) (Loaded obj) cMod kMod Hc Hk Hlt).
Qed.

(** A second call of [DNSNames] gives the same names and changes nothing. *)
Lemma Cert_DNSNames_again (env env' : Env) (obj : Cert) :
  x509_ParseCertificate env' = x509_ParseCertificate env ->
  Cert_DNSNames env' (snd (Cert_DNSNames env obj)) = Cert_DNSNames env obj.
Proof.
  intros Hparse. unfold Cert_DNSNames at 2 3.
  destruct (Chain (Certificate obj)) as [|der rest] eqn:Hchain; simpl.
  - unfold Cert_DNSNames. now rewrite Hchain.
  - destruct (Leaf (Certificate obj)) as [leaf|] eqn:Hleaf; simpl.
    + unfold Cert_DNSNames. now rewrite Hchain, Hleaf.
    + destruct (x509_ParseCertificate env der) as [leaf|] eqn:Hder; simpl.
      * reflexivity.
      * unfold Cert_DNSNames. now rewrite Hchain, Hleaf, Hparse, Hder.
Qed.

Lemma Cert_DNSNames_keeps (env : Env) (obj : Cert) :
  Name (snd (Cert_DNSNames env obj)) = Name obj
  /\ Loaded (snd (Cert_DNSNames env obj)) = Loaded obj.
Proof.
  unfold Cert_DNSNames.
  destruct (Chain (Certificate obj)); [easy|].
  destruct (Leaf (Certificate obj)); [easy|].
  now destruct (x509_ParseCertificate env _).
Qed.

(** What one round of [set] does to a certificate in the store. *)
Lemma set_one_eq (env : Env) (c : Cache) (p : ptr) (obj : Cert) :
  heap c !! p = Some obj ->
  set_one env c (Some p)
  = mkCache (<[p := snd (Cert_DNSNames env obj)]> (heap c))
            (<[Name obj := p]> (certs c))
            (foldl (fun m dn => <[dn := p]> m) (sni c) (fst (Cert_DNSNames env obj)))
            (modified c).
Proof.
  intros Hp. unfold set_one. rewrite Hp.
  destruct (Cert_DNSNames_keeps env obj) as [Hname _].
  destruct (Cert_DNSNames env obj) as [names obj']. simpl in *. now rewrite Hname.
Qed.

(** Right after [set], the certificate is [published]. *)
Lemma set_publishes (env : Env) (c : Cache) (p : ptr) (obj : Cert) :
  heap c !! p = Some obj ->
  published env (set env c [Some p]) p (snd (Cert_DNSNames env obj)).
Proof.
  intros Hp. change (set env c [Some p]) with (set_one env c (Some p)).
  rewrite (set_one_eq env c p obj Hp).
  destruct (Cert_DNSNames_keeps env obj) as [Hname _].
  unfold published. simpl. rewrite (Cert_DNSNames_again env env obj eq_refl).
  repeat split.
  - rewrite Hname. apply lookup_insert_eq.
  - intros dn Hdn. rewrite lookup_foldl_insert. now rewrite decide_True.
Qed.

(** [Reload] of a tracked name with unchanged files is [set] on it. *)
Lemma Reload_unchanged (env : Env) (c : Cache) (name : string) (p : ptr) (obj : Cert) :
  certs c !! name = Some p -> heap c !! p = Some obj ->
  files_unchanged env (Name obj) (Loaded obj) ->
  Reload env c name = (Ok true, set_one env c (Some p)).
Proof.
  intros Hname Hp Hfiles. unfold Reload. rewrite Hname. simpl. rewrite Hp. simpl.
  rewrite (Cert_Reload_unchanged env obj Hfiles).
  rewrite (insert_id (heap c) p obj Hp). now rewrite Hp.
Qed.

(** Registering the same names for the same certificate again changes
    nothing, and neither does registering names that map to it already. *)
Lemma foldl_insert_again (p : ptr) (l : list string) (m : gmap string ptr) :
  foldl (fun m dn => <[dn := p]> m) (foldl (fun m dn => <[dn := p]> m) m l) l
  = foldl (fun m dn => <[dn := p]> m) m l.
Proof.
  apply map_eq. intros k. rewrite !lookup_foldl_insert.
  now destruct (decide (k ∈ l)).
Qed.

Lemma foldl_insert_id (p : ptr) (l : list string) (m : gmap string ptr) :
  (forall dn, dn ∈ l -> m !! dn = Some p) ->
  foldl (fun m dn => <[dn := p]> m) m l = m.
Proof.
  intros Hall. apply map_eq. intros k. rewrite lookup_foldl_insert.
  destruct (decide (k ∈ l)) as [Hin|]; [|reflexivity]. now rewrite (Hall k Hin).
Qed.

(** C7, amended. For a name tracked by the cache whose two files are
    there with modification times strictly before the certificate's Loaded
    watermark, at both calls: neither call of [Reload] returns an error;
    the first call registers the certificate again under its DNS names
    (each of them maps to it afterwards, every other name is as before);
    the second call changes nothing; and when the certificate was still
    registered under all its names, as [set] leaves it, the first call
    changes nothing either, so every lookup is served as before. *)
Theorem Reload_twice_unchanged_files
    (env1 env2 : Env) (c : Cache) (name : string) (p : ptr) (obj : Cert) :
  certs c !! name = Some p -> heap c !! p = Some obj ->
  files_unchanged env1 (Name obj) (Loaded obj) ->
  files_unchanged env2 (Name obj) (Loaded obj) ->
  x509_ParseCertificate env2 = x509_ParseCertificate env1 ->
  let c1 := snd (Reload env1 c name) in
  let c2 := snd (Reload env2 c1 name) in
  fst (Reload env1 c name) = Ok true
  /\ fst (Reload env2 c1 name) = Ok true
  /\ c2 = c1
  /\ (forall dn, sni c1 !! dn
                 = if decide (dn ∈ fst (Cert_DNSNames env1 obj)) then Some p
                   else sni c !! dn)
  /\ (published env1 c p obj ->
      c1 = c /\ forall dn, served c2 dn = served c dn).
Proof.
  intros Hname Hp Hfiles1 Hfiles2 Hparse c1 c2.
  pose proof (Reload_unchanged env1 c name p obj Hname Hp Hfiles1) as E1.
  rewrite (set_one_eq env1 c p obj Hp) in E1.
  destruct (Cert_DNSNames_keeps env1 obj) as [Hn Hl].
  set (obj' := snd (Cert_DNSNames env1 obj)) in *.
  set (names := fst (Cert_DNSNames env1 obj)) in *.
  assert (Hc1 : c1 = mkCache (<[p := obj']> (heap c)) (<[Name obj := p]> (certs c))
                             (foldl (fun m dn => <[dn := p]> m) (sni c) names)
                             (modified c))
    by (unfold c1; now rewrite E1).
  assert (Hname1 : certs c1 !! name = Some p).
  { rewrite Hc1. simpl. rewrite lookup_insert. now destruct (decide (Name obj = name)). }
  assert (Hp1 : heap c1 !! p = Some obj')
    by (rewrite Hc1; simpl; apply lookup_insert_eq).
  assert (Hfiles2' : files_unchanged env2 (Name obj') (Loaded obj'))
    by now rewrite Hn, Hl.
  pose proof (Reload_unchanged env2 c1 name p obj' Hname1 Hp1 Hfiles2') as E2.
  rewrite (set_one_eq env2 c1 p obj' Hp1) in E2.
  unfold obj' in E2 at 1 3. rewrite (Cert_DNSNames_again env1 env2 obj Hparse) in E2.
  fold obj' names in E2. rewrite Hn in E2.
  assert (Hc2 : c2 = c1).
  { unfold c2. rewrite E2. simpl. rewrite Hc1 at 4. rewrite Hc1 at 1 2 3 4. simpl.
    now rewrite !insert_insert_eq, foldl_insert_again. }
  split; [now rewrite E1|]. split; [now rewrite E2|]. split; [exact Hc2|].
  split.
  - intros dn. rewrite Hc1. simpl. apply lookup_foldl_insert.
  - intros (Hcerts & Hsni & Hleaf).
    assert (Hsame : c1 = c).
    { rewrite Hc1. unfold obj'. rewrite Hleaf.
      rewrite (insert_id (heap c) p obj Hp), (insert_id (certs c) _ p Hcerts).
      rewrite (foldl_insert_id p names (sni c) Hsni). now destruct c. }
    split; [exact Hsame|]. intros dn. now rewrite Hc2, Hsame.
Qed.

Lemma files_unchanged_a (t : Time) :
  files_unchanged (Demo.env t) (Name Demo.cert_a) (Loaded Demo.cert_a).
Proof. exists 50%Z, 50%Z. repeat split; simpl; lia. Qed.

Lemma Reload_twice_unchanged_files_witness :
  let c := Demo.loaded ["a"] in
  fst (Reload (Demo.env 200%Z) c "a") = Ok true
  /\ fst (Reload (Demo.env 300%Z) (snd (Reload (Demo.env 200%Z) c "a")) "a") = Ok true
  /\ snd (Reload (Demo.env 200%Z) c "a") = c.
Proof.
  intros c.
  assert (Hname : certs c !! "a" = Some 1%positive) by (vm_compute; reflexivity).
  assert (Hp : heap c !! 1%positive = Some Demo.cert_a) by (vm_compute; reflexivity).
  destruct (Reload_twice_unchanged_files (Demo.env 200%Z) (Demo.env 300%Z) c "a"
              1%positive Demo.cert_a Hname Hp
              (files_unchanged_a 200%Z) (files_unchanged_a 300%Z) eq_refl)
    as (Hfirst & Hsecond & _ & _ & Hpublished).
  split; [exact Hfirst|]. split; [exact Hsecond|].
  apply Hpublished. split; [|split].
  - vm_compute. reflexivity.
  - intros dn Hdn. vm_compute in Hdn.
    repeat (apply elem_of_cons in Hdn as [->|Hdn]; [vm_compute; reflexivity|]).
    now apply elem_of_nil in Hdn.
  - vm_compute. reflexivity.
Defined.

(** C7, as stated, fails when two certificates share a DNS name: with "a"
    and then "b" loaded, "shared.example.com" is served by "b"; after
    [Reload] of "a", with no file touched, it is served by "a". *)
Lemma Reload_repoints_shared_name :
  ~ Reload_twice_changes_nothing (Demo.env 200%Z) (Demo.env 300%Z)
      (Demo.loaded ["a"; "b"]) "a".
Proof.
  intros Hclaim.
  assert (Hname : certs (Demo.loaded ["a"; "b"]) !! "a" = Some 1%positive)
    by (vm_compute; reflexivity).
  assert (Hp : heap (Demo.loaded ["a"; "b"]) !! 1%positive = Some Demo.cert_a)
    by (vm_compute; reflexivity).
  destruct (Hclaim 1%positive Demo.cert_a Hname Hp
              (files_unchanged_a 200%Z) (files_unchanged_a 300%Z))
    as (_ & _ & Hserved).
  specialize (Hserved "shared.example.com").
  vm_compute in Hserved. discriminate.
Qed.

End CacheFacts.

(** ** The life cycle of the Reloader *)

Module ReloaderFacts.
Import Certs.

(** [run] leaves the flag set, whether it passes the guard or not. *)
Lemma run_enter_running (ctxDone : bool) (r : Reloader) :
  running (snd (run_enter ctxDone r)) = true.
Proof. unfold run_enter. destruct (running r) eqn:Hr; simpl; auto. Qed.

(** On a running Reloader [run] fails on the guard and touches nothing. *)
Lemma run_enter_already (ctxDone : bool) (r : Reloader) :
  running r = true -> run_enter ctxDone r = (Some ErrAlreadyRunning, r).
Proof. intros Hr. unfold run_enter. now rewrite Hr. Qed.

(** No operation clears the flag. *)
Lemma exec_op_keeps_running (r : Reloader) (o : Op) :
  running r = true -> running (exec_op r o) = true.
Proof.
  intros Hr. destruct o as [ctxDone| | | |f]; simpl.
  - apply run_enter_running.
  - now rewrite Hr.
  - unfold Stop. now rewrite Hr.
  - exact Hr.
  - now destruct (f _).
Qed.

Lemma exec_keeps_running (ops : list Op) (r : Reloader) :
  running r = true -> running (exec ops r) = true.
Proof.
  revert r. induction ops as [|o ops IH]; intros r Hr; [exact Hr|].
  unfold exec in *. simpl. apply IH. now apply exec_op_keeps_running.
Qed.

(** C9. Once a call of [run] has passed the guard, the flag stays set
    through every later operation (the return of that run, [Stop],
    cancellation, rounds of the two loops, further calls of [run]), and
    every later call of [run] returns the already-running error and
    changes nothing. *)
Theorem Reloader_runs_at_most_once
    (r : Reloader) (ctxDone : bool) (ops : list Op) (ctxDone' : bool) :
  fst (run_enter ctxDone r) = None ->
  let r' := exec ops (snd (run_enter ctxDone r)) in
  running r' = true
  /\ run_enter ctxDone' r' = (Some ErrAlreadyRunning, r').
Proof.
  intros _ r'.
  assert (Hr' : running r' = true)
    by (apply exec_keeps_running, run_enter_running).
  split; [exact Hr'|]. now apply run_enter_already.
Qed.

Lemma Reloader_runs_at_most_once_witness :
  let r' := exec [OpRunReturns; OpStop; OpCancel]
                 (snd (run_enter false NewReloader)) in
  running r' = true
  /\ run_enter false r' = (Some ErrAlreadyRunning, r').
Proof.
  exact (Reloader_runs_at_most_once NewReloader false
           [OpRunReturns; OpStop; OpCancel] false eq_refl).
Defined.

End ReloaderFacts.

(** ** Directory lists *)

Module DirFacts.
Import Certs Statements.

(** *** Strings by index *)

Lemma length_app (a b : string) :
  String.length (a +:+ b) = String.length a + String.length b.
Proof. induction a as [|c a IH]; simpl; [reflexivity|now rewrite IH]. Qed.

Lemma get_app_at_length (a : string) (c : ascii) (rest : string) :
  String.get (String.length a) (a +:+ String c rest) = Some c.
Proof. induction a as [|c' a IH]; simpl; [reflexivity|exact IH]. Qed.

Lemma substring_app_length (a rest : string) :
  String.substring 0 (String.length a) (a +:+ rest) = a.
Proof.
  induction a as [|c a IH]; simpl.
  - now destruct rest.
  - now rewrite IH.
Qed.

Lemma get_split (s : string) (i : nat) (c : ascii) :
  String.get i s = Some c ->
  exists rest, s = String.substring 0 i s +:+ String c rest.
Proof.
  revert i. induction s as [|c' s IH]; intros [|i]; simpl; try discriminate.
  - intros [= ->]. now exists s.
  - intros Hget. destruct (IH i Hget) as [rest Hrest].
    exists rest.
    change (String c' s = String c' (String.substring 0 i s +:+ String c rest)).
    now rewrite <- Hrest.
Qed.

Lemma get_lt (s : string) (i : nat) (c : ascii) :
  String.get i s = Some c -> i < String.length s.
Proof.
  revert i. induction s as [|c' s IH]; intros [|i]; simpl; try discriminate.
  - lia.
  - intros Hget. apply IH in Hget. lia.
Qed.

Lemma length_substring_prefix (s : string) (i : nat) :
  i <= String.length s -> String.length (String.substring 0 i s) = i.
Proof.
  revert i. induction s as [|c s IH]; intros [|i]; simpl; try lia.
  intros Hle. rewrite IH; lia.
Qed.

(** [below d a] in terms of the index the loop of [isSubdirOf] runs over. *)
Lemma below_index (d a : string) :
  below d a <->
  exists i, i < String.length d
            /\ String.get i d = Some "/"%char /\ String.substring 0 i d = a.
Proof.
  split.
  - intros [rest ->]. exists (String.length a). split; [|split].
    + rewrite length_app. simpl. lia.
    + apply get_app_at_length.
    + apply substring_app_length.
  - intros (i & _ & Hget & Hsub). destruct (get_split d i _ Hget) as [rest Hrest].
    exists rest. rewrite <- Hsub. exact Hrest.
Qed.

Lemma below_longer (d a : string) : below d a -> String.length a < String.length d.
Proof. intros [rest ->]. rewrite length_app. simpl. lia. Qed.

(** *** The two loops on strings *)

(** The trimming loop ends within its fuel: the result has no trailing
    separator left. *)
Lemma trimSlashes_loop_done (fuel : nat) (dir : string) :
  String.length dir <= fuel -> no_trailing_separator (trimSlashes_loop fuel dir).
Proof.
  revert dir. induction fuel as [|fuel IH]; intros dir Hlen; simpl.
  - destruct dir; [|simpl in Hlen; lia]. unfold no_trailing_separator. simpl. congruence.
  - destruct (Nat.ltb_spec 0 (String.length dir)) as [Hpos|Hzero]; simpl.
    + case_bool_decide as Hlast.
      * apply IH. rewrite length_substring_prefix; lia.
      * exact Hlast.
    + destruct dir; [|simpl in Hzero; lia]. unfold no_trailing_separator. simpl. congruence.
Qed.

Lemma trimSlashes_done (dir : string) : no_trailing_separator (trimSlashes dir).
Proof. apply trimSlashes_loop_done. reflexivity. Qed.

(** A path without a trailing separator is left as it is. *)
Lemma trimSlashes_clean (dir : string) :
  no_trailing_separator dir -> trimSlashes dir = dir.
Proof.
  intros Hclean. unfold trimSlashes. destruct (String.length dir) eqn:Hlen; [reflexivity|].
  simpl. rewrite Hlen. simpl. rewrite bool_decide_eq_false_2; [reflexivity|].
  unfold no_trailing_separator in Hclean. now rewrite Hlen in Hclean.
Qed.

Lemma default_member (set : gmap string bool) (dir : string) :
  default false (set !! dir) = true <-> member set dir.
Proof.
  unfold member. destruct (set !! dir) as [[|]|]; simpl; split; congruence.
Qed.

Lemma isSubdirOf_loop_spec (set : gmap string bool) (dir : string) (n : nat) :
  isSubdirOf_loop set dir n = true <->
  exists i, i < n /\ String.get i dir = Some "/"%char
            /\ member set (String.substring 0 i dir).
Proof.
  induction n as [|n IH]; simpl.
  - split; [discriminate|]. intros (i & Hi & _). lia.
  - destruct (bool_decide (String.get n dir = Some "/"%char)
              && default false (set !! String.substring 0 n dir)) eqn:Hhere.
    + apply andb_true_iff in Hhere as [Hget Hset].
      apply bool_decide_eq_true in Hget. apply default_member in Hset.
      split; [|reflexivity]. intros _. exists n. auto.
    + rewrite IH. split.
      * intros (i & Hi & Hrest). exists i. split; [lia|exact Hrest].
      * intros (i & Hi & Hget & Hset).
        destruct (decide (i = n)) as [->|Hne].
        -- apply andb_false_iff in Hhere as [Hno|Hno].
           ++ apply bool_decide_eq_false in Hno. contradiction.
           ++ apply default_member in Hset. congruence.
        -- exists i. split; [lia|auto].
Qed.

(** [isSubdirOf] holds of a directory that is selected or lies below a
    selected one. *)
Lemma isSubdirOf_spec (set : gmap string bool) (dir : string) :
  isSubdirOf set dir = true <->
  member set dir \/ exists a, member set a /\ below dir a.
Proof.
  unfold isSubdirOf. destruct (default false (set !! dir)) eqn:Hself.
  - apply default_member in Hself. split; auto.
  - rewrite isSubdirOf_loop_spec. split.
    + intros (i & Hi & Hget & Hset). right. exists (String.substring 0 i dir).
      split; [exact Hset|]. apply below_index. exists i. auto.
    + intros [Hset|(a & Hset & Hbelow)].
      * apply default_member in Hset. congruence.
      * apply below_index in Hbelow as (i & Hi & Hget & <-). exists i. auto.
Qed.

Lemma length_zero (d : string) : (String.length d =? 0) = true <-> d = "".
Proof. destruct d; simpl; split; congruence. Qed.

(** The three ways a round of the second loop can go. *)
Lemma selectDir_cases (set : gmap string bool) (d : string) :
  (d = "" /\ selectDir set d = set)
  \/ (d <> "" /\ isSubdirOf set d = true /\ selectDir set d = set)
  \/ (d <> "" /\ isSubdirOf set d = false
      /\ selectDir set d = <[trimSlashes d := true]> set).
Proof.
  unfold selectDir. destruct (String.length d =? 0) eqn:Hlen.
  - left. apply length_zero in Hlen. auto.
  - assert (d <> "") by (intros ->; discriminate).
    destruct (isSubdirOf set d); auto.
Qed.

Lemma member_insert (set : gmap string bool) (d k : string) :
  member (<[d := true]> set) k <-> k = d \/ member set k.
Proof.
  unfold member. rewrite lookup_insert. destruct (decide (d = k)) as [->|Hne].
  - split; auto.
  - split; [auto|]. intros [->|Hk]; [congruence|exact Hk].
Qed.

Lemma foldl_selectDir_all_true (l : list string) (set : gmap string bool) :
  all_true set -> all_true (foldl selectDir set l).
Proof.
  revert set. induction l as [|d l IH]; intros set Hset; simpl; [exact Hset|].
  apply IH.
  destruct (selectDir_cases set d) as [[_ ->]|[(_ & _ & ->)|(_ & _ & ->)]]; try exact Hset.
  intros k v. rewrite lookup_insert. destruct (decide (trimSlashes d = k)); [congruence|apply Hset].
Qed.

(** Whatever the entries, a selected directory has no trailing separator. *)
Lemma foldl_selectDir_trimmed (l : list string) (set : gmap string bool) :
  (forall k, member set k -> no_trailing_separator k) ->
  forall k, member (foldl selectDir set l) k -> no_trailing_separator k.
Proof.
  revert set. induction l as [|d l IH]; intros set Hset; simpl; [exact Hset|].
  apply IH.
  destruct (selectDir_cases set d) as [[_ ->]|[(_ & _ & ->)|(_ & _ & ->)]]; try exact Hset.
  intros k Hk. apply member_insert in Hk as [->|Hk]; [apply trimSlashes_done|auto].
Qed.

(** The second loop over entries in order of length, from a selection
    [set] of directories none longer than the entries: no selected
    directory lies below another, nothing is dropped from the selection,
    what is added is a non-empty entry, and every non-empty entry is
    selected or lies below a selected directory. *)
Lemma foldl_selectDir_sorted (l : list string) :
  forall set : gmap string bool,
    StronglySorted shorter_eq l ->
    Forall no_trailing_separator l ->
    (forall k, member set k -> Forall (shorter_eq k) l) ->
    antichain set ->
    antichain (foldl selectDir set l)
    /\ (forall k, member set k -> member (foldl selectDir set l) k)
    /\ (forall k, member (foldl selectDir set l) k ->
          member set k \/ (k ∈ l /\ k <> ""))
    /\ (forall d, d ∈ l -> d <> "" ->
          member (foldl selectDir set l) d
          \/ exists a, member (foldl selectDir set l) a /\ below d a).
Proof.
  induction l as [|d l IH]; intros set Hsorted Hclean Hshort Hanti; simpl.
  - repeat split; auto.
    intros d Hd. now apply elem_of_nil in Hd.
  - apply StronglySorted_cons in Hsorted as [Hd_short Hsorted].
    apply Forall_cons in Hclean as [Hd_clean Hclean].
    assert (Hshort_tl : forall k, member set k -> Forall (shorter_eq k) l).
    { intros k Hk. specialize (Hshort k Hk). now apply Forall_cons in Hshort as [_ ?]. }
    destruct (selectDir_cases set d) as [[Hempty ->]|[(Hne & Hsub & ->)|(Hne & Hsub & ->)]].
    + destruct (IH set Hsorted Hclean Hshort_tl Hanti) as (Ha & Hmono & Hnew & Hcover).
      split; [exact Ha|]. split; [exact Hmono|]. split.
      * intros k Hk. destruct (Hnew k Hk) as [?|[Hin ?]]; [now left|].
        right. split; [now right|assumption].
      * intros d' Hd' Hne'. apply elem_of_cons in Hd' as [->|Hd']; [contradiction|auto].
    + destruct (IH set Hsorted Hclean Hshort_tl Hanti) as (Ha & Hmono & Hnew & Hcover).
      split; [exact Ha|]. split; [exact Hmono|]. split.
      * intros k Hk. destruct (Hnew k Hk) as [?|[Hin ?]]; [now left|].
        right. split; [now right|assumption].
      * intros d' Hd' Hne'. apply elem_of_cons in Hd' as [->|Hd']; [|auto].
        apply isSubdirOf_spec in Hsub as [Hself|(a & Ha_in & Hbelow)].
        -- left. auto.
        -- right. exists a. auto.
    + rewrite (trimSlashes_clean d Hd_clean).
      assert (Hshort1 : forall k, member (<[d := true]> set) k -> Forall (shorter_eq k) l).
      { intros k Hk. apply member_insert in Hk as [->|Hk]; auto. }
      assert (Hanti1 : antichain (<[d := true]> set)).
      { intros k1 k2 Hk1 Hk2 Hbelow.
        apply member_insert in Hk1 as [->|Hk1]; apply member_insert in Hk2 as [->|Hk2].
        - apply below_longer in Hbelow. lia.
        - apply below_longer in Hbelow.
          specialize (Hshort k2 Hk2). apply Forall_cons in Hshort as [Hle _].
          unfold shorter_eq in Hle. lia.
        - assert (Htrue : isSubdirOf set d = true)
            by (apply isSubdirOf_spec; right; exists k1; auto).
          congruence.
        - exact (Hanti k1 k2 Hk1 Hk2 Hbelow). }
      destruct (IH _ Hsorted Hclean Hshort1 Hanti1) as (Ha & Hmono & Hnew & Hcover).
      split; [exact Ha|]. split; [|split].
      * intros k Hk. apply Hmono. apply member_insert. now right.
      * intros k Hk. destruct (Hnew k Hk) as [Hk1|[Hin ?]].
        -- apply member_insert in Hk1 as [->|Hk1]; [|now left].
           right. split; [now left|assumption].
        -- right. split; [now right|assumption].
      * intros d' Hd' Hne'. apply elem_of_cons in Hd' as [->|Hd']; [|auto].
        left. apply Hmono. apply member_insert. now left.
Qed.

(** The first loop: when [filepath.Abs] succeeds on every non-empty
    entry, the list after it holds the empty entries as they were and the
    absolute forms of the others. *)
Lemma absAll_spec (Abs : string -> option string) (dirs : list string) :
  (forall d, d ∈ dirs -> d <> "" -> is_Some (Abs d)) ->
  exists l, absAll Abs dirs = Ok l
    /\ (forall a, a ∈ l -> a = "" \/ exists d, d ∈ dirs /\ d <> "" /\ Abs d = Some a)
    /\ (forall d a, d ∈ dirs -> d <> "" -> Abs d = Some a -> a ∈ l).
Proof.
  induction dirs as [|d dirs IH]; intros Hok; simpl.
  - exists []. split; [reflexivity|]. split.
    + intros a Ha. now apply elem_of_nil in Ha.
    + intros d a Hd. now apply elem_of_nil in Hd.
  - destruct IH as (l & -> & Hfrom & Hto).
    { intros d' Hd'. apply Hok. now right. }
    destruct (String.length d =? 0) eqn:Hlen.
    + apply length_zero in Hlen. subst d. exists ("" :: l).
      split; [reflexivity|]. split.
      * intros a Ha. apply elem_of_cons in Ha as [->|Ha]; [now left|].
        destruct (Hfrom a Ha) as [?|(d & Hd & ?)]; [now left|].
        right. exists d. split; [now right|assumption].
      * intros d a Hd Hne Ha. apply elem_of_cons in Hd as [->|Hd]; [contradiction|].
        right. eauto.
    + assert (Hne : d <> "") by (intros ->; discriminate).
      destruct (Hok d) as [a Ha]; [now left|exact Hne|].
      rewrite Ha. exists (a :: l). split; [reflexivity|]. split.
      * intros a' Ha'. apply elem_of_cons in Ha' as [->|Ha'].
        -- right. exists d. split; [now left|auto].
        -- destruct (Hfrom a' Ha') as [?|(d' & Hd' & ?)]; [now left|].
           right. exists d'. split; [now right|assumption].
      * intros d' a' Hd' Hne' Ha'. apply elem_of_cons.
        apply elem_of_cons in Hd' as [->|Hd'].
        -- left. congruence.
        -- right. eauto.
Qed.

(** The first failure of [filepath.Abs] is the result of the call. *)
Lemma absAll_fails (Abs : string -> option string) (dirs : list string) (d : string) :
  d ∈ dirs -> d <> "" -> Abs d = None ->
  exists e, RemoveSubdirectories Abs (fun l => l) dirs = Err e
            /\ forall sortSlice, RemoveSubdirectories Abs sortSlice dirs = Err e.
Proof.
  intros Hd Hne Hnone.
  assert (Hall : exists e, absAll Abs dirs = Err e).
  { induction dirs as [|d' dirs IH]; [now apply elem_of_nil in Hd|]. simpl.
    destruct (String.length d' =? 0) eqn:Hlen.
    - apply length_zero in Hlen. subst d'.
      apply elem_of_cons in Hd as [->|Hd]; [contradiction|].
      destruct (IH Hd) as [e ->]. eauto.
    - destruct (Abs d') as [a|] eqn:Ha; [|eauto].
      apply elem_of_cons in Hd as [->|Hd]; [congruence|].
      destruct (IH Hd) as [e ->]. eauto. }
  destruct Hall as [e He]. exists e. unfold RemoveSubdirectories. rewrite He. auto.
Qed.

(** C8, amended. When [filepath.Abs] resolves every non-empty entry to an
    absolute path that does not end in a separator (any path but the
    root), [RemoveSubdirectories] returns a list in which every directory
    is the absolute form of a non-empty entry, no directory lies below
    another, and for every non-empty entry its absolute form is in the
    list or lies below a directory of the list. Empty entries are
    skipped. *)
Theorem RemoveSubdirectories_selects
    (Abs : string -> option string) (sortSlice : list string -> list string)
    (dirs : list string) :
  sorts_by_length sortSlice ->
  (forall d, d ∈ dirs -> d <> "" ->
     exists a, Abs d = Some a /\ is_absolute a /\ no_trailing_separator a) ->
  exists out,
    RemoveSubdirectories Abs sortSlice dirs = Ok out
    /\ (forall o, o ∈ out ->
          is_absolute o /\ no_trailing_separator o
          /\ exists d, d ∈ dirs /\ d <> "" /\ Abs d = Some o)
    /\ (forall o1 o2, o1 ∈ out -> o2 ∈ out -> ~ below o2 o1)
    /\ (forall d a, d ∈ dirs -> d <> "" -> Abs d = Some a ->
          a ∈ out \/ exists o, o ∈ out /\ below a o).
Proof.
  intros Hsort Habs.
  destruct (absAll_spec Abs dirs) as (l & Hl & Hfrom & Hto).
  { intros d Hd Hne. destruct (Habs d Hd Hne) as (a & -> & _). eauto. }
  destruct (Hsort l) as [Hperm Hsorted].
  assert (Hclean : Forall no_trailing_separator (sortSlice l)).
  { apply Forall_forall. intros a Ha. rewrite Hperm in Ha.
    destruct (Hfrom a Ha) as [->|(d & Hd & Hne & Hda)].
    - unfold no_trailing_separator. simpl. congruence.
    - destruct (Habs d Hd Hne) as (a' & Ha' & _ & Htrim). congruence. }
  destruct (foldl_selectDir_sorted (sortSlice l) ∅ Hsorted Hclean)
    as (Hanti & _ & Hnew & Hcover).
  { intros k Hk. unfold member in Hk. now rewrite lookup_empty in Hk. }
  { intros k1 k2 Hk1. unfold member in Hk1. now rewrite lookup_empty in Hk1. }
  assert (Htrue : all_true (foldl selectDir ∅ (sortSlice l))).
  { apply foldl_selectDir_all_true. intros k v. now rewrite lookup_empty. }
  assert (Hout : forall o, o ∈ elements (dom (foldl selectDir ∅ (sortSlice l)))
                           <-> member (foldl selectDir ∅ (sortSlice l)) o).
  { intros o. rewrite elem_of_elements, elem_of_dom. unfold member. split.
    - intros [v Hv]. rewrite Hv. f_equal. exact (Htrue o v Hv).
    - intros Ho. eauto. }
  exists (elements (dom (foldl selectDir ∅ (sortSlice l)))).
  split; [unfold RemoveSubdirectories; now rewrite Hl|]. split; [|split].
  - intros o Ho. apply Hout in Ho. destruct (Hnew o Ho) as [Hempty|[Hin Hne]].
    { unfold member in Hempty. now rewrite lookup_empty in Hempty. }
    rewrite Hperm in Hin. destruct (Hfrom o Hin) as [?|(d & Hd & Hdne & Hdo)]; [contradiction|].
    destruct (Habs d Hd Hdne) as (a & Ha & Habsolute & Htrim).
    assert (a = o) by congruence. subst a. eauto 8.
  - intros o1 o2 Ho1 Ho2. apply Hout in Ho1, Ho2. now apply Hanti.
  - intros d a Hd Hne Ha.
    destruct (Habs d Hd Hne) as (a' & Ha' & Habsolute & _).
    assert (a' = a) by congruence. subst a'.
    assert (Hane : a <> "") by (intros ->; discriminate).
    assert (Hin : a ∈ sortSlice l) by (rewrite Hperm; eauto).
    destruct (Hcover a Hin Hane) as [Hself|(o & Ho & Hbelow)].
    + left. now apply Hout.
    + right. exists o. split; [now apply Hout|exact Hbelow].
Qed.

(** The merge sort by length is a sort by length. *)
Lemma sortByLength_sorts : sorts_by_length Demo.sortByLength.
Proof.
  intros l. split.
  - apply merge_sort_Permutation.
  - apply (@StronglySorted_merge_sort _ shorter_eq _).
    + intros a b c. unfold shorter_eq. lia.
    + intros a b. unfold shorter_eq. lia.
Qed.

Lemma RemoveSubdirectories_selects_witness :
  exists out,
    RemoveSubdirectories (Demo.AbsUnder "/srv") Demo.sortByLength
      ["/a/b"; "certs"; ""; "/a"] = Ok out
    /\ (forall o, o ∈ out ->
          is_absolute o /\ no_trailing_separator o
          /\ exists d, d ∈ ["/a/b"; "certs"; ""; "/a"] /\ d <> ""
                       /\ Demo.AbsUnder "/srv" d = Some o)
    /\ (forall o1 o2, o1 ∈ out -> o2 ∈ out -> ~ below o2 o1)
    /\ (forall d a, d ∈ ["/a/b"; "certs"; ""; "/a"] -> d <> "" ->
          Demo.AbsUnder "/srv" d = Some a ->
          a ∈ out \/ exists o, o ∈ out /\ below a o).
Proof.
  apply (RemoveSubdirectories_selects (Demo.AbsUnder "/srv") Demo.sortByLength
           ["/a/b"; "certs"; ""; "/a"] sortByLength_sorts).
  intros d Hd Hne.
  repeat (apply elem_of_cons in Hd as [->|Hd];
          [first [ congruence
                 | eexists; split; [reflexivity|]; split;
                   [reflexivity|unfold no_trailing_separator; simpl; congruence] ]|]).
  now apply elem_of_nil in Hd.
Defined.

(** C8, as stated, fails on the root directory and on an empty entry:
    the root is selected as the empty string, which is not an absolute
    path, and an empty entry is skipped, so that neither the working
    directory it stands for nor an ancestor of it is in the result. *)
Lemma RemoveSubdirectories_root_and_empty :
  ~ normalizes_directories (Demo.AbsUnder "/srv") Demo.sortByLength ["/"]
  /\ ~ normalizes_directories (Demo.AbsUnder "/srv") Demo.sortByLength [""].
Proof.
  split; intros Hclaim.
  - destruct (Hclaim [""] eq_refl) as (Habsolute & _).
    destruct (Habsolute "") as [Hroot _]; [now left|]. discriminate.
  - destruct (Hclaim [] eq_refl) as (_ & _ & Hcover).
    destruct (Hcover "") as (a & _ & [Hin|(o & Hin & _)]); [now left| |];
      now apply elem_of_nil in Hin.
Qed.

End DirFacts.

(** ** More on the reload queue *)

Module QueueMore.
Import Collections QueueOps.

Section WithElem.
Context {T : Type} `{Countable T}.
Implicit Types (s : SetT T) (i v : T).

Lemma steady_NewSet (n : nat) : steady (NewSet n : SetT T).
Proof. unfold steady. simpl. repeat split. lia. Qed.

Lemma steady_qstep s (o : QOp T) s' : steady s -> qstep s o = Some s' -> steady s'.
Proof.
  intros (Hlen & Hopen & Hset). destruct o as [i|ctxDone preferDone|i| |ns]; simpl.
  - intros [= <-]. unfold steady, Push. rewrite Hset, lookup_empty.
    destruct (Nat.eqb_spec (length (buf (ch s))) (cap (ch s))) as [Heq|Hne]; simpl.
    + auto.
    + rewrite length_app. simpl. repeat split; auto. lia.
  - intros [= <-]. unfold Poll, Channel.
    destruct (ctxDone && _); simpl; [now repeat split|].
    destruct (buf (ch s)) as [|v rest] eqn:Hbuf; simpl.
    + rewrite Hopen. simpl. unfold steady. now rewrite Hbuf.
    + unfold steady. simpl. simpl in Hlen. rewrite Hset, delete_empty.
      repeat split; auto. lia.
  - intros [= <-]. unfold steady. simpl. rewrite Hset, delete_empty. auto.
  - intros [= <-]. unfold steady. simpl. repeat split; auto. lia.
  - unfold Expand. destruct (Nat.ltb_spec (cap (ch s)) ns) as [Hlt|Hge].
    + intros [= <-]. now repeat split.
    + destruct (le_lt_dec (length (buf (ch s))) ns) as [Hfit|Hover].
      * rewrite QueueFacts.transfer_fits by (simpl; lia). simpl.
        intros [= <-]. unfold steady. simpl. auto.
      * rewrite QueueFacts.transfer_overflow by (simpl; lia). discriminate.
Qed.



(** Pushing onto a steady queue appends what fits, in order. *)
Lemma pushes_steady (l : list T) s :
  steady s ->
  steady (pushes l s)
  /\ buf (ch (pushes l s)) = buf (ch s) ++ take (cap (ch s) - length (buf (ch s))) l
  /\ cap (ch (pushes l s)) = cap (ch s).
Proof.
  revert s. induction l as [|i l IH]; intros s Hs.
  - simpl. rewrite take_nil, app_nil_r. auto.
  - assert (Hs1 : steady (Push i s)) by (apply (steady_qstep s (QPush i)); auto).
    destruct (IH (Push i s) Hs1) as (Hst & Hbuf & Hcap).
    change (pushes (i :: l) s) with (pushes l (Push i s)).
    split; [exact Hst|]. rewrite Hbuf, Hcap.
    destruct Hs as (Hlen & _ & Hset). unfold Push. rewrite Hset, lookup_empty.
    destruct (Nat.eqb_spec (length (buf (ch s))) (cap (ch s))) as [Heq|Hne].
    + rewrite Heq, Nat.sub_diag. simpl. auto.
    + simpl. rewrite length_app. simpl. split; [|reflexivity].
      replace (cap (ch s) - length (buf (ch s)))
        with (S (cap (ch s) - (length (buf (ch s)) + 1))) by lia.
      simpl. now rewrite <- app_assoc.
Qed.

(** Polling a steady queue as often as it holds values delivers them in
    order and empties the channel. *)
Lemma polls_steady s :
  steady s ->
  fst (polls (length (buf (ch s))) s) = PollValue <$> buf (ch s)
  /\ buf (ch (snd (polls (length (buf (ch s))) s))) = [].
Proof.
  destruct s as [m [b c cl]]. simpl. revert m.
  induction b as [|v b IH]; intros m (Hlen & Hopen & Hset); simpl in *.
  - auto.
  - unfold Poll, Remove. simpl.
    destruct (IH (delete v m)) as [Hvals Hrest].
    { unfold steady. simpl. subst m. rewrite delete_empty. repeat split; auto. lia. }
    destruct (polls (length b) _) as [rs s2]. simpl in *. now rewrite Hvals.
Qed.

Lemma polls_keep_steady (k : nat) s : steady s -> steady (snd (polls k s)).
Proof.
  revert s. induction k as [|k IH]; intros s Hst; simpl; [exact Hst|].
  destruct (Poll false false s) as [r s1] eqn:Hpoll.
  assert (Hs1 : steady s1).
  { apply (steady_qstep s (QPoll false false)); [exact Hst|]. simpl. now rewrite Hpoll. }
  specialize (IH s1 Hs1). destruct (polls k s1) as [rs s2]. exact IH.
Qed.

(** A fresh queue of capacity [n] holds the first [n] values pushed, in
    the order of the calls, repeated keys included; what is pushed beyond
    the capacity is dropped. Polling delivers them in that order, and with
    the channel empty the next call of [Poll] waits. *)
Theorem pushes_then_polls (n : nat) (l : list T) :
  let s := pushes l (NewSet n) in
  buf (ch s) = take n l
  /\ fst (polls (length (take n l)) s) = PollValue <$> take n l
  /\ fst (Poll false false (snd (polls (length (take n l)) s))) = PollBlocked.
Proof.
  intros s.
  destruct (pushes_steady l (NewSet n) (steady_NewSet n)) as (Hst & Hbuf & _).
  simpl in Hbuf. rewrite Nat.sub_0_r in Hbuf. fold s in Hst, Hbuf.
  destruct (polls_steady s Hst) as [Hvals Hempty]. rewrite Hbuf in Hvals, Hempty.
  split; [exact Hbuf|]. split; [exact Hvals|].
  destruct (polls_keep_steady (length (take n l)) s Hst) as (_ & Hopen & _).
  unfold Poll, Channel. rewrite Hempty, Hopen. reflexivity.
Qed.

(** After [Empty], polling delivers only what was pushed since. *)
Theorem Empty_discards_pending (l : list T) s (n : nat) v :
  PollValue v ∈ fst (polls n (pushes l (Empty s))) -> v ∈ l.
Proof. apply QueueFacts.polls_after_Empty. Qed.


End WithElem.


Lemma Empty_discards_pending_witness :
  "b" ∈ ["b"; "c"].
Proof.
  apply (Empty_discards_pending ["b"; "c"] (pushes ["a"] (NewSet 4)) 2 "b").
  vm_compute. left.
Defined.


End QueueMore.

(** ** File names *)

Module NameFacts.
Import Certs CertsMore.

Lemma get_app_r (a b : string) (k : nat) :
  String.get (String.length a + k) (a +:+ b) = String.get k b.
Proof. induction a as [|c a IH]; simpl; [reflexivity|exact IH]. Qed.

Lemma substring_app_r (a b : string) (m : nat) :
  String.substring (String.length a) m (a +:+ b) = String.substring 0 m b.
Proof. induction a as [|c a IH]; simpl; [reflexivity|exact IH]. Qed.

Lemma app_empty_r (s : string) : s +:+ "" = s.
Proof.
  induction s as [|c s IH]; [reflexivity|].
  change (String c (s +:+ "") = String c s). now f_equal.
Qed.

Lemma substring_all (s : string) : String.substring 0 (String.length s) s = s.
Proof. induction s as [|c s IH]; simpl; [reflexivity|now rewrite IH]. Qed.

Lemma substring_split (s : string) (i : nat) :
  i <= String.length s ->
  s = String.substring 0 i s +:+ String.substring i (String.length s - i) s.
Proof.
  revert i. induction s as [|c s IH]; intros [|i] Hle.
  - reflexivity.
  - simpl in Hle. lia.
  - rewrite Nat.sub_0_r, substring_all. now destruct s.
  - simpl in Hle.
    change (String c s = String c (String.substring 0 i s
                                    +:+ String.substring i (String.length s - i) s)).
    f_equal. apply IH. lia.
Qed.

Lemma length_substring (s : string) (i m : nat) :
  i + m <= String.length s -> String.length (String.substring i m s) = m.
Proof.
  revert i m. induction s as [|c s IH]; intros [|i] [|m] Hle; simpl in *; try lia.
  - rewrite (IH 0 m); lia.
  - apply (IH i 0). lia.
  - apply (IH i (S m)). lia.
Qed.

(** A round of the loop of [filepath.Ext]. *)
Lemma Ext_loop_skip (path : string) (i : nat) (c : ascii) :
  String.get i path = Some c -> c <> "/"%char -> c <> "."%char ->
  Ext_loop path (S i) = Ext_loop path i.
Proof.
  intros Hget Hsep Hdot. simpl. rewrite Hget.
  destruct (Ascii.eqb_spec c "/"); [contradiction|].
  destruct (Ascii.eqb_spec c "."); [contradiction|reflexivity].
Qed.

Lemma Ext_loop_dot (path : string) (i : nat) :
  String.get i path = Some "."%char ->
  Ext_loop path (S i) = String.substring i (String.length path - i) path.
Proof. intros Hget. simpl. now rewrite Hget. Qed.

(** The extension of a name followed by a dot and three letters that are
    neither a dot nor a separator. *)
Lemma Ext_three (name : string) (x y z : ascii) :
  Forall (fun c => c <> "/"%char /\ c <> "."%char) [x; y; z] ->
  filepath_Ext (name +:+ String "." (String x (String y (String z ""))))
  = String "." (String x (String y (String z ""))).
Proof.
  intros Hxyz.
  apply Forall_cons in Hxyz as [[Hx1 Hx2] Hxyz].
  apply Forall_cons in Hxyz as [[Hy1 Hy2] Hxyz].
  apply Forall_cons in Hxyz as [[Hz1 Hz2] _].
  set (ext := String "." (String x (String y (String z "")))).
  unfold filepath_Ext. rewrite DirFacts.length_app.
  change (String.length ext) with 4.
  replace (String.length name + 4) with (S (String.length name + 3)) by lia.
  rewrite (Ext_loop_skip _ _ z); [|apply get_app_r|assumption|assumption].
  replace (String.length name + 3) with (S (String.length name + 2)) by lia.
  rewrite (Ext_loop_skip _ _ y); [|apply get_app_r|assumption|assumption].
  replace (String.length name + 2) with (S (String.length name + 1)) by lia.
  rewrite (Ext_loop_skip _ _ x); [|apply get_app_r|assumption|assumption].
  replace (String.length name + 1) with (S (String.length name + 0)) by lia.
  rewrite Ext_loop_dot by apply get_app_r.
  rewrite DirFacts.length_app, Nat.add_0_r.
  replace (String.length name + String.length ext - String.length name)
    with (String.length ext) by lia.
  apply substring_app_r.
Qed.

(** The extension is a suffix of the path. *)
Lemma Ext_loop_suffix (path : string) (n : nat) :
  n <= String.length path ->
  Ext_loop path n = ""
  \/ exists i, i < n /\ Ext_loop path n = String.substring i (String.length path - i) path.
Proof.
  induction n as [|n IH]; intros Hle; simpl; [now left|].
  destruct (String.get n path) as [c|]; [|now left].
  destruct (Ascii.eqb c "/"); [now left|].
  destruct (Ascii.eqb c ".").
  - right. exists n. split; [lia|reflexivity].
  - destruct IH as [Hempty|(i & Hi & Hsub)]; [lia|now left|].
    right. exists i. split; [lia|exact Hsub].
Qed.

Lemma Ext_suffix (path : string) :
  path = String.substring 0 (String.length path - String.length (filepath_Ext path)) path
         +:+ filepath_Ext path.
Proof.
  unfold filepath_Ext.
  destruct (Ext_loop_suffix path (String.length path)) as [->|(i & Hi & ->)]; [lia| |].
  - change (String.length "") with 0. rewrite Nat.sub_0_r, app_empty_r.
    symmetry. apply substring_all.
  - rewrite length_substring by lia.
    replace (String.length path - (String.length path - i)) with i by lia.
    apply substring_split. lia.
Qed.

Lemma FilePairNameAndType_crt (name : string) :
  FilePairNameAndType (name +:+ ".crt") = (name, FileTypeCert).
Proof.
  unfold FilePairNameAndType.
  rewrite (Ext_three name "c" "r" "t")
    by (repeat constructor; discriminate).
  rewrite bool_decide_eq_true_2 by now left.
  rewrite DirFacts.length_app. change (String.length ".crt") with 4.
  replace (String.length name + 4 - 4) with (String.length name) by lia.
  now rewrite DirFacts.substring_app_length.
Qed.

Lemma FilePairNameAndType_key (name : string) :
  FilePairNameAndType (name +:+ ".key") = (name, FileTypeKey).
Proof.
  unfold FilePairNameAndType.
  rewrite (Ext_three name "k" "e" "y")
    by (repeat constructor; discriminate).
  rewrite bool_decide_eq_true_2 by now right.
  rewrite DirFacts.length_app. change (String.length ".key") with 4.
  replace (String.length name + 4 - 4) with (String.length name) by lia.
  now rewrite DirFacts.substring_app_length.
Qed.

(** A path that [FilePairNameAndType] gives a type to is the name it
    returns followed by a dot and the type. *)
Lemma FilePairNameAndType_typed (file name : string) (ft : FileType) :
  FilePairNameAndType file = (name, ft) -> ft <> FileTypeUnknown ->
  (ft = FileTypeCert \/ ft = FileTypeKey) /\ file = name +:+ "." +:+ ft.
Proof.
  unfold FilePairNameAndType. intros Hpair Hknown.
  pose proof (Ext_suffix file) as Hsuffix.
  case_bool_decide as Hext.
  - injection Hpair as Hname Hft. rewrite Hname in Hsuffix.
    destruct Hext as [Hext|Hext]; rewrite Hext in Hft, Hsuffix; simpl in Hft; subst ft.
    + split; [now left|exact Hsuffix].
    + split; [now right|exact Hsuffix].
  - injection Hpair as _ Hft. unfold FileTypeUnknown in *. congruence.
Qed.

Lemma FilePairNameAndType_other (file : string) :
  (forall n, file <> n +:+ ".crt") -> (forall n, file <> n +:+ ".key") ->
  FilePairNameAndType file = ("", FileTypeUnknown).
Proof.
  intros Hcrt Hkey.
  destruct (FilePairNameAndType file) as [n ft] eqn:Hpair.
  destruct (decide (ft = FileTypeUnknown)) as [->|Hknown].
  - unfold FilePairNameAndType in Hpair. case_bool_decide as Hx; [|now symmetry].
    injection Hpair as _ Hft. destruct Hx as [Hx|Hx]; rewrite Hx in Hft; discriminate.
  - destruct (FilePairNameAndType_typed file n ft Hpair Hknown) as [[->| ->] Hfile].
    + now destruct (Hcrt n).
    + now destruct (Hkey n).
Qed.

(** [FilePairNameAndType] undoes the naming of the two files of a pair,
    and gives a type to nothing else: it returns a name with the type
    "crt" exactly on the name followed by ".crt", with the type "key"
    exactly on the name followed by ".key", and the empty name with the
    unknown type on every other path. *)
Theorem FilePairNameAndType_inverts_naming (file name : string) :
  (FilePairNameAndType file = (name, FileTypeCert) <-> file = name +:+ ".crt")
  /\ (FilePairNameAndType file = (name, FileTypeKey) <-> file = name +:+ ".key")
  /\ ((forall n, file <> n +:+ ".crt") -> (forall n, file <> n +:+ ".key") ->
      FilePairNameAndType file = ("", FileTypeUnknown)).
Proof.
  split; [|split].
  - split.
    + intros Hpair. now destruct (FilePairNameAndType_typed file name _ Hpair).
    + intros ->. apply FilePairNameAndType_crt.
  - split.
    + intros Hpair. now destruct (FilePairNameAndType_typed file name _ Hpair).
    + intros ->. apply FilePairNameAndType_key.
  - apply FilePairNameAndType_other.
Qed.

Lemma FilePairNameAndType_inverts_naming_witness :
  FilePairNameAndType "/etc/ssl.d/a.crt" = ("/etc/ssl.d/a", FileTypeCert)
  /\ FilePairNameAndType "README" = ("", FileTypeUnknown).
Proof.
  split.
  - apply (proj1 (FilePairNameAndType_inverts_naming "/etc/ssl.d/a.crt" "/etc/ssl.d/a")).
    reflexivity.
  - apply (proj2 (proj2 (FilePairNameAndType_inverts_naming "README" ""))).
    + intros n Hn. apply (f_equal filepath_Ext) in Hn.
      rewrite (Ext_three n "c" "r" "t") in Hn by (repeat constructor; discriminate).
      vm_compute in Hn. discriminate.
    + intros n Hn. apply (f_equal filepath_Ext) in Hn.
      rewrite (Ext_three n "k" "e" "y") in Hn by (repeat constructor; discriminate).
      vm_compute in Hn. discriminate.
Defined.

(** The two files [LoadCertPair] reads for a name are the paths that
    [FilePairNameAndType] maps back to that name, so that an event on
    either of them asks for the reload of the certificate that was loaded
    from them. *)
Theorem loaded_files_name_the_pair (env : Env) (name : string) (cutoff : Time) (cert : Cert) :
  LoadCertPair env name cutoff = Ok (Some cert) ->
  Name cert = name
  /\ FilePairNameAndType (Path (CertFile cert)) = (name, FileTypeCert)
  /\ FilePairNameAndType (Path (KeyFile cert)) = (name, FileTypeKey).
Proof.
  unfold LoadCertPair.
  destruct (os_Stat env (name +:+ ".crt")); [|discriminate].
  destruct (os_Stat env (name +:+ ".key")); [|discriminate].
  destruct (After cutoff t && After cutoff t0); [discriminate|].
  destruct (tls_LoadX509KeyPair env _ _) as [kp|]; [|discriminate].
  destruct (Chain kp) as [|der rest]; [discriminate|].
  destruct (x509_ParseCertificate env der) as [leaf|]; [|discriminate].
  destruct (After _ _ || Before _ _); [discriminate|].
  intros [= <-]. simpl.
  split; [reflexivity|]. split.
  - apply FilePairNameAndType_crt.
  - apply FilePairNameAndType_key.
Qed.

Lemma loaded_files_name_the_pair_witness :
  FilePairNameAndType "a.crt" = ("a", FileTypeCert)
  /\ FilePairNameAndType "a.key" = ("a", FileTypeKey).
Proof.
  destruct (loaded_files_name_the_pair (Demo.env 100%Z) "a" 0%Z Demo.cert_a eq_refl)
    as (_ & Hcrt & Hkey).
  split; [exact Hcrt|exact Hkey].
Defined.

End NameFacts.

(** ** More on the cache *)

Module CacheMore.
Import Certs CertsMore Statements.

(** What [set] does for one certificate in the store, read through the
    two lookups: the certificate is found under its name and under each of
    its DNS names, and every other name, DNS name and object is as it
    was. *)
Theorem Set_then_lookup (env : Env) (c : Cache) (p : ptr) (obj : Cert) :
  heap c !! p = Some obj ->
  let c' := Cache_Set env c [Some p] in
  Get c' (Name obj) = Some p
  /\ (forall dn, dn ∈ fst (Cert_DNSNames env obj) -> GetSNI c' dn = Some p)
  /\ (forall k, k <> Name obj -> Get c' k = Get c k)
  /\ (forall dn, dn ∉ fst (Cert_DNSNames env obj) -> sni c' !! dn = sni c !! dn)
  /\ (forall q, q <> p -> heap c' !! q = heap c !! q).
Proof.
  intros Hp c'.
  assert (Hc' : c' = set_one env c (Some p)) by reflexivity.
  rewrite (CacheFacts.set_one_eq env c p obj Hp) in Hc'. rewrite Hc'.
  unfold Get, GetSNI. simpl. split; [apply lookup_insert_eq|]. split; [|split; [|split]].
  - intros dn Hdn. rewrite CacheFacts.lookup_foldl_insert. now rewrite decide_True.
  - intros k Hk. now apply lookup_insert_ne.
  - intros dn Hdn. rewrite CacheFacts.lookup_foldl_insert. now rewrite decide_False.
  - intros q Hq. now apply lookup_insert_ne.
Qed.

Lemma Set_then_lookup_witness :
  let c' := Cache_Set (Demo.env 100%Z) (mkCache {[5%positive := Demo.cert_wild]} ∅ ∅ ∅)
                      [Some 5%positive] in
  Get c' "wild" = Some 5%positive /\ GetSNI c' "*.com" = Some 5%positive.
Proof.
  intros c'.
  assert (Hp : heap (mkCache {[5%positive := Demo.cert_wild]} ∅ ∅ ∅) !! 5%positive
               = Some Demo.cert_wild) by (vm_compute; reflexivity).
  destruct (Set_then_lookup (Demo.env 100%Z) _ 5%positive Demo.cert_wild Hp)
    as (Hget & Hsni & _).
  split; [exact Hget|]. apply Hsni. vm_compute. left.
Defined.

Lemma GetCertificate_found (r : Reloader) (server : string) (p : ptr) (obj : Cert) :
  GetSNI (r_certs r) server = Some p -> heap (r_certs r) !! p = Some obj ->
  GetCertificate r server = Some (Certificate obj).
Proof. intros Hsni Hp. unfold GetCertificate. rewrite Hsni. simpl. now rewrite Hp. Qed.

(** After [Set] of a certificate, a handshake is served that certificate
    for each of its DNS names, and, where the index has no entry for the
    server name itself, for every server name that one of its wildcard
    names covers: one label, a dot, and the rest of the wildcard name. *)
Theorem Set_then_GetCertificate
    (env : Env) (r : Reloader) (p : ptr) (obj : Cert) :
  heap (r_certs r) !! p = Some obj ->
  let r' := with_certs r (Cache_Set env (r_certs r) [Some p]) in
  let served := Some (Certificate (snd (Cert_DNSNames env obj))) in
  (forall dn, dn ∈ fst (Cert_DNSNames env obj) -> GetCertificate r' dn = served)
  /\ (forall pre suf,
        ("*." +:+ suf) ∈ fst (Cert_DNSNames env obj) ->
        no_dot pre ->
        sni (r_certs r') !! (pre +:+ "." +:+ suf) = None ->
        GetCertificate r' (pre +:+ "." +:+ suf) = served).
Proof.
  intros Hp r' served.
  assert (Hc' : r_certs r' = set_one env (r_certs r) (Some p)) by reflexivity.
  rewrite (CacheFacts.set_one_eq env _ p obj Hp) in Hc'.
  assert (Hexact : forall dn, dn ∈ fst (Cert_DNSNames env obj) ->
                              sni (r_certs r') !! dn = Some p).
  { intros dn Hdn. rewrite Hc'. simpl.
    rewrite CacheFacts.lookup_foldl_insert. now rewrite decide_True. }
  assert (Hobj : heap (r_certs r') !! p = Some (snd (Cert_DNSNames env obj))).
  { rewrite Hc'. simpl. apply lookup_insert_eq. }
  split.
  - intros dn Hdn. apply (GetCertificate_found r' dn p); [|exact Hobj].
    unfold GetSNI. now rewrite (Hexact dn Hdn).
  - intros pre suf Hwild Hno Hmiss. apply (GetCertificate_found r' _ p); [|exact Hobj].
    unfold GetSNI. rewrite Hmiss.
    rewrite CacheFacts.WildcardFor_first_dot by assumption.
    change (String.length ("*." +:+ suf) =? 0) with false. cbv iota.
    exact (Hexact _ Hwild).
Qed.

Lemma Set_then_GetCertificate_witness :
  GetCertificate
    (with_certs NewReloader
       (Cache_Set (Demo.env 100%Z) (mkCache {[5%positive := Demo.cert_wild]} ∅ ∅ ∅)
                  [Some 5%positive]))
    "example.com"
  = Some (mkTLS ["der-wild"] (Some Demo.leaf_wild)).
Proof.
  assert (Hp : heap (r_certs (with_certs NewReloader
                                    (mkCache {[5%positive := Demo.cert_wild]} ∅ ∅ ∅)))
                 !! 5%positive = Some Demo.cert_wild) by (vm_compute; reflexivity).
  destruct (Set_then_GetCertificate (Demo.env 100%Z) _ 5%positive Demo.cert_wild Hp)
    as [_ Hwild].
  apply (Hwild "example" "com").
  - vm_compute. left.
  - intros i. do 8 (try (destruct i as [|i]; [simpl; congruence|])). simpl. congruence.
  - vm_compute. reflexivity.
Defined.

(** What a certificate that [LoadCertPair] returns looks like. *)
Lemma LoadCertPair_loaded (env : Env) (name : string) (cutoff : Time) (obj : Cert) :
  LoadCertPair env name cutoff = Ok (Some obj) ->
  Name obj = name /\ Loaded obj = now_loaded env
  /\ exists der rest leaf,
       Certificate obj = mkTLS (der :: rest) (Some leaf)
       /\ (NotBefore leaf <= now_validity env <= NotAfter leaf)%Z.
Proof.
  unfold LoadCertPair.
  destruct (os_Stat env (name +:+ ".crt")); [|discriminate].
  destruct (os_Stat env (name +:+ ".key")); [|discriminate].
  destruct (After cutoff t && After cutoff t0); [discriminate|].
  destruct (tls_LoadX509KeyPair env _ _) as [kp|]; [|discriminate].
  destruct (Chain kp) as [|der rest] eqn:Hchain; [discriminate|].
  destruct (x509_ParseCertificate env der) as [leaf|]; [|discriminate].
  destruct (After _ _ || Before _ _) eqn:Hvalid; [discriminate|].
  intros [= <-]. simpl. repeat split.
  exists der, rest, leaf. split; [reflexivity|].
  now apply CacheFacts.validity_test.
Qed.

Lemma Cert_DNSNames_parsed (env : Env) (obj : Cert) (der : string) (rest : list string)
    (leaf : X509) :
  Certificate obj = mkTLS (der :: rest) (Some leaf) ->
  Cert_DNSNames env obj = (DNSNames leaf ++ [CommonName leaf], obj).
Proof. intros Hcert. unfold Cert_DNSNames. now rewrite Hcert. Qed.

(** [Reload] of a name the cache does not track, when the pair loads:
    the flag returned is false; the certificate is a new object, valid at
    the instant of the load, found under the name and under each DNS name
    of its leaf; the objects and names that were there are as they were. *)
Theorem Reload_loads_untracked (env : Env) (c : Cache) (name : string) (obj : Cert) :
  certs c !! name = None ->
  LoadCertPair env name zeroTime = Ok (Some obj) ->
  exists p c' leaf,
    Reload env c name = (Ok false, c')
    /\ heap c !! p = None /\ heap c' !! p = Some obj
    /\ Get c' name = Some p
    /\ Leaf (Certificate obj) = Some leaf
    /\ (NotBefore leaf <= now_validity env <= NotAfter leaf)%Z
    /\ (forall dn, dn ∈ DNSNames leaf ++ [CommonName leaf] -> GetSNI c' dn = Some p)
    /\ (forall q, q <> p -> heap c' !! q = heap c !! q)
    /\ (forall k, k <> name -> Get c' k = Get c k).
Proof.
  intros Hnone Hload.
  destruct (LoadCertPair_loaded env name zeroTime obj Hload)
    as (Hname & _ & der & rest & leaf & Hcert & Hvalid).
  set (p := fresh (dom (heap c))).
  assert (Hfresh : heap c !! p = None).
  { apply not_elem_of_dom. apply is_fresh. }
  set (c0 := mkCache (<[p := obj]> (heap c)) (certs c) (sni c) (modified c)).
  assert (Hp0 : heap c0 !! p = Some obj) by apply lookup_insert_eq.
  pose proof (CacheFacts.set_one_eq env c0 p obj Hp0) as Hset.
  rewrite (Cert_DNSNames_parsed env obj der rest leaf Hcert) in Hset.
  unfold c0 in Hset at 2 3 4 5. cbn [fst snd heap certs sni modified] in Hset.
  exists p, (set_one env c0 (Some p)), leaf.
  split.
  { unfold Reload. rewrite Hnone. simpl. rewrite Hload. reflexivity. }
  rewrite Hset. unfold Get, GetSNI. simpl.
  split; [exact Hfresh|]. split; [rewrite insert_insert_eq; apply lookup_insert_eq|].
  split; [rewrite Hname; apply lookup_insert_eq|].
  split; [now rewrite Hcert|]. split; [exact Hvalid|]. split; [|split].
  - intros dn Hdn. rewrite CacheFacts.lookup_foldl_insert. now rewrite decide_True.
  - intros q Hq. rewrite insert_insert_eq. now apply lookup_insert_ne.
  - intros k Hk. rewrite Hname. now apply lookup_insert_ne.
Qed.

Lemma Reload_loads_untracked_witness :
  exists p c', Reload (Demo.env 100%Z) (Demo.loaded ["b"]) "a" = (Ok false, c')
               /\ Get c' "a" = Some p /\ GetSNI c' "shared.example.com" = Some p.
Proof.
  destruct (Reload_loads_untracked (Demo.env 100%Z) (Demo.loaded ["b"]) "a" Demo.cert_a)
    as (p & c' & leaf & Hreload & _ & _ & Hget & Hleaf & _ & Hsni & _).
  - vm_compute. reflexivity.
  - vm_compute. reflexivity.
  - exists p, c'. split; [exact Hreload|]. split; [exact Hget|].
    apply Hsni. injection Hleaf as <-. vm_compute. right. left.
Defined.

(** [Reload] of a tracked name whose files are newer, when the pair
    loads: the flag returned is true; the object is updated where it is
    (new chain, leaf and watermark; the name and the two [File] fields,
    with the modification times of the first load, stay), so the name and
    every DNS name that mapped to it still map to it, the names dropped
    from the new leaf included; and each DNS name of the new leaf maps to
    it. *)
Theorem Reload_tracked_in_place
    (env : Env) (c : Cache) (name : string) (p : ptr) (obj nc : Cert) :
  certs c !! name = Some p -> heap c !! p = Some obj ->
  LoadCertPair env (Name obj) (Loaded obj) = Ok (Some nc) ->
  exists c' leaf,
    Reload env c name = (Ok true, c')
    /\ heap c' !! p = Some (mkCert (Name obj) (CertFile obj) (KeyFile obj)
                                   (Loaded nc) (Certificate nc))
    /\ Get c' name = Some p
    /\ Leaf (Certificate nc) = Some leaf
    /\ (forall dn, sni c !! dn = Some p -> sni c' !! dn = Some p)
    /\ (forall dn, dn ∈ DNSNames leaf ++ [CommonName leaf] -> sni c' !! dn = Some p)
    /\ (forall q, q <> p -> heap c' !! q = heap c !! q).
Proof.
  intros Hname Hp Hload.
  destruct (LoadCertPair_loaded env _ _ nc Hload)
    as (_ & _ & der & rest & leaf & Hcert & _).
  set (obj' := mkCert (Name obj) (CertFile obj) (KeyFile obj) (Loaded nc) (Certificate nc)).
  set (c0 := mkCache (<[p := obj']> (heap c)) (certs c) (sni c) (modified c)).
  assert (Hp0 : heap c0 !! p = Some obj') by apply lookup_insert_eq.
  pose proof (CacheFacts.set_one_eq env c0 p obj' Hp0) as Hset.
  rewrite (Cert_DNSNames_parsed env obj' der rest leaf Hcert) in Hset.
  unfold c0 in Hset at 2 3 4 5. cbn [fst snd heap certs sni modified] in Hset.
  exists (set_one env c0 (Some p)), leaf.
  split.
  { unfold Reload. rewrite Hname. simpl. rewrite Hp. simpl.
    unfold Cert_Reload. rewrite Hload. reflexivity. }
  rewrite Hset. unfold Get. simpl.
  split; [rewrite insert_insert_eq; apply lookup_insert_eq|].
  split. { rewrite lookup_insert. now destruct (decide (Name obj = name)). }
  split; [now rewrite Hcert|]. split; [|split].
  - intros dn Hdn. rewrite CacheFacts.lookup_foldl_insert.
    now destruct (decide (dn ∈ DNSNames leaf ++ [CommonName leaf])).
  - intros dn Hdn. rewrite CacheFacts.lookup_foldl_insert. now rewrite decide_True.
  - intros q Hq. rewrite insert_insert_eq. now apply lookup_insert_ne.
Qed.

Lemma Reload_tracked_in_place_witness :
  exists c' obj',
    Reload (Demo.rewritten 200%Z) (Demo.loaded ["a"]) "a" = (Ok true, c')
    /\ Get c' "a" = Some 1%positive
    /\ heap c' !! 1%positive = Some obj'
    /\ Loaded obj' = 200%Z /\ Mod (CertFile obj') = 50%Z.
Proof.
  assert (Hname : certs (Demo.loaded ["a"]) !! "a" = Some 1%positive)
    by (vm_compute; reflexivity).
  assert (Hp : heap (Demo.loaded ["a"]) !! 1%positive = Some Demo.cert_a)
    by (vm_compute; reflexivity).
  destruct (Reload_tracked_in_place (Demo.rewritten 200%Z) (Demo.loaded ["a"]) "a"
              1%positive Demo.cert_a
              (mkCert "a" (mkFile "a.crt" 150%Z) (mkFile "a.key" 150%Z) 200%Z
                      (mkTLS ["der-a"] (Some Demo.leaf_a)))
              Hname Hp eq_refl)
    as (c' & leaf & Hreload & Hobj & Hget & _).
  exists c'. eexists. split; [exact Hreload|]. split; [exact Hget|].
  split; [exact Hobj|]. split; reflexivity.
Defined.

(** *** What runs of calls keep *)

(** The three ways a round of [set] can go. *)
Lemma set_one_cases (env : Env) (c : Cache) (cert : option ptr) :
  set_one env c cert = c
  \/ exists p obj, cert = Some p /\ heap c !! p = Some obj
       /\ set_one env c cert
          = mkCache (<[p := snd (Cert_DNSNames env obj)]> (heap c))
                    (<[Name obj := p]> (certs c))
                    (foldl (fun m dn => <[dn := p]> m) (sni c) (fst (Cert_DNSNames env obj)))
                    (modified c).
Proof.
  destruct cert as [p|]; [|now left].
  destruct (heap c !! p) as [obj|] eqn:Hp.
  - right. exists p, obj. split; [reflexivity|]. split; [exact Hp|].
    now apply CacheFacts.set_one_eq.
  - left. unfold set_one. now rewrite Hp.
Qed.

Lemma sound_set_one (env : Env) (c : Cache) (cert : option ptr) :
  sound c -> sound (set_one env c cert).
Proof.
  intros (Hcerts & Hsni & Hmod).
  destruct (set_one_cases env c cert) as [->|(p & obj & _ & Hp & ->)]; [now repeat split|].
  destruct (CacheFacts.Cert_DNSNames_keeps env obj) as [Hname _].
  split; [|split]; simpl; [| |exact Hmod].
  - intros k q. rewrite lookup_insert. destruct (decide (Name obj = k)) as [<-|Hne].
    + intros [= <-]. rewrite lookup_insert_eq. eauto.
    + intros Hk. destruct (Hcerts k q Hk) as (o & Hq & Ho).
      destruct (decide (p = q)) as [->|Hpq]; [congruence|].
      rewrite lookup_insert_ne by assumption. eauto.
  - intros dn q. rewrite CacheFacts.lookup_foldl_insert.
    destruct (decide (dn ∈ _)).
    + intros [= <-]. rewrite lookup_insert_eq. eauto.
    + intros Hdn. apply lookup_insert_is_Some'. right. eauto.
Qed.

Lemma sound_set (env : Env) (l : list (option ptr)) (c : Cache) :
  sound c -> sound (set env c l).
Proof.
  revert c. induction l as [|cert l IH]; intros c Hc; [exact Hc|].
  unfold set in *. simpl. apply IH. now apply sound_set_one.
Qed.

(** Writing an object of the same name over one in the store, or a new
    object at a fresh address, keeps the cache sound. *)
Lemma sound_store (c : Cache) (p : ptr) (obj' : Cert) :
  sound c ->
  (forall obj, heap c !! p = Some obj -> Name obj' = Name obj) ->
  sound (mkCache (<[p := obj']> (heap c)) (certs c) (sni c) (modified c)).
Proof.
  intros (Hcerts & Hsni & Hmod) Hsame. split; [|split]; simpl; [| |exact Hmod].
  - intros k q Hk. destruct (Hcerts k q Hk) as (o & Hq & Ho).
    destruct (decide (p = q)) as [->|Hpq].
    + rewrite lookup_insert_eq. exists obj'. split; [reflexivity|].
      rewrite (Hsame o Hq). exact Ho.
    + rewrite lookup_insert_ne by assumption. eauto.
  - intros dn q Hdn. apply lookup_insert_is_Some'. right. eauto.
Qed.

Lemma fresh_unused (c : Cache) : heap c !! fresh (dom (heap c)) = None.
Proof. apply not_elem_of_dom. apply is_fresh. Qed.

Lemma Set_objects_cons (env : Env) (c : Cache) (obj : Cert) (objs : list Cert) :
  Set_objects env c (obj :: objs)
  = Set_objects env
      (set env (mkCache (<[fresh (dom (heap c)) := obj]> (heap c)) (certs c) (sni c)
                        (modified c))
           [Some (fresh (dom (heap c)))])
      objs.
Proof. reflexivity. Qed.

Lemma sound_Set_objects (env : Env) (objs : list Cert) (c : Cache) :
  sound c -> sound (Set_objects env c objs).
Proof.
  revert c. induction objs as [|obj objs IH]; intros c Hc; [exact Hc|].
  rewrite Set_objects_cons. apply IH. apply sound_set.
  apply sound_store; [exact Hc|]. intros o Ho. rewrite fresh_unused in Ho. discriminate.
Qed.

Lemma Cert_Reload_keeps_name (env : Env) (obj obj' : Cert) :
  Cert_Reload env obj = Ok obj' -> Name obj' = Name obj.
Proof.
  unfold Cert_Reload. destruct (LoadCertPair env _ _) as [[nc|]|]; [| |discriminate];
    now intros [= <-].
Qed.

Lemma sound_Reload (env : Env) (c : Cache) (name : string) :
  sound c -> sound (snd (Reload env c name)).
Proof.
  intros Hc. unfold Reload.
  destruct (certs c !! name ≫= _) as [[p obj]|] eqn:Htracked.
  - destruct (certs c !! name) as [p'|]; [|discriminate]. simpl in Htracked.
    destruct (heap c !! p') as [o|] eqn:Hp; [|discriminate].
    injection Htracked as -> ->.
    destruct (Cert_Reload env obj) as [obj'|e] eqn:Hreload; [|exact Hc].
    cbn [snd]. apply sound_set. apply sound_store; [exact Hc|].
    intros o Ho. rewrite Hp in Ho. injection Ho as <-.
    exact (Cert_Reload_keeps_name env obj obj' Hreload).
  - destruct (LoadCertPair env name zeroTime) as [[obj|]|e]; cbn [snd]; [| |exact Hc].
    + apply sound_set. apply sound_store; [exact Hc|].
      intros o Ho. rewrite fresh_unused in Ho. discriminate.
    + now apply sound_set.
Qed.

Lemma SetModified_cases (c : Cache) (file : string) (t : Time) :
  SetModified c file t = c
  \/ exists p obj f, heap c !! p = Some obj
       /\ SetModified c file t
          = mkCache (<[p := set_Mod obj f t]> (heap c)) (certs c) (sni c) (modified c).
Proof.
  unfold SetModified. destruct (FilePairNameAndType file) as [name ft].
  destruct (Get c name) as [p|]; [|now left]. simpl.
  destruct (heap c !! p) as [obj|] eqn:Hp; [|now left]. simpl.
  destruct (Cert_File ft) as [f|]; [|now left].
  right. exists p, obj, f. auto.
Qed.

Lemma sound_SetModified (c : Cache) (file : string) (t : Time) :
  sound c -> sound (SetModified c file t).
Proof.
  intros Hc. destruct (SetModified_cases c file t) as [->|(p & obj & f & Hp & ->)];
    [exact Hc|].
  apply sound_store; [exact Hc|]. intros o Ho. rewrite Hp in Ho. injection Ho as <-.
  now destruct f.
Qed.

Lemma sound_cstep (c : Cache) (o : COp) : sound c -> sound (cstep c o).
Proof.
  intros Hc. destruct o as [env objs|env name|file t|]; simpl.
  - now apply sound_Set_objects.
  - now apply sound_Reload.
  - now apply sound_SetModified.
  - destruct Hc as (Hcerts & Hsni & _). now repeat split.
Qed.

Lemma sound_crun (ops : list COp) (c : Cache) : sound c -> sound (crun ops c).
Proof.
  revert c. induction ops as [|o ops IH]; intros c Hc; [exact Hc|].
  unfold crun in *. simpl. apply IH. now apply sound_cstep.
Qed.

(** After any run of calls on a new cache: the certificate [Get] returns
    for a name is an object of that name; the certificate [GetSNI] returns
    is an object in the store; and [PopModified] returns no name, since no
    call ever writes the map it reads. *)
Theorem cache_run_sound (ops : list COp) :
  let c := crun ops NewCache in
  (forall name p, Get c name = Some p ->
     exists obj, heap c !! p = Some obj /\ Name obj = name)
  /\ (forall dn p, GetSNI c dn = Some p -> is_Some (heap c !! p))
  /\ fst (PopModified c) = [].
Proof.
  intros c.
  assert (Hc : sound c).
  { apply sound_crun. split; [|split]; [| |reflexivity];
      intros k q Hk; simpl in Hk; now rewrite lookup_empty in Hk. }
  destruct Hc as (Hcerts & Hsni & Hmod).
  split; [exact Hcerts|]. split.
  - intros dn p. unfold GetSNI. destruct (sni c !! dn) as [q|] eqn:Hdn.
    + intros [= <-]. eauto.
    + destruct (String.length (WildcardFor dn) =? 0); [discriminate|]. apply Hsni.
  - unfold PopModified. simpl. rewrite Hmod, dom_empty_L. apply elements_empty.
Qed.

Lemma extends_refl (c : Cache) : extends c c.
Proof. split; auto. Qed.

Lemma extends_store (c : Cache) (h : gmap ptr Cert) :
  extends c (mkCache h (certs c) (sni c) (modified c)).
Proof. split; auto. Qed.

Lemma extends_trans (c1 c2 c3 : Cache) : extends c1 c2 -> extends c2 c3 -> extends c1 c3.
Proof. intros [H1 H2] [H3 H4]. split; auto. Qed.

Lemma extends_set_one (env : Env) (c : Cache) (cert : option ptr) :
  extends c (set_one env c cert).
Proof.
  destruct (set_one_cases env c cert) as [->|(p & obj & _ & _ & ->)]; [apply extends_refl|].
  split; simpl.
  - intros k Hk. apply lookup_insert_is_Some'. now right.
  - intros dn Hdn. rewrite CacheFacts.lookup_foldl_insert.
    destruct (decide (dn ∈ _)); [eauto|exact Hdn].
Qed.

Lemma extends_set (env : Env) (l : list (option ptr)) (c : Cache) : extends c (set env c l).
Proof.
  revert c. induction l as [|cert l IH]; intros c; [apply extends_refl|].
  unfold set in *. simpl. eapply extends_trans; [apply extends_set_one|apply IH].
Qed.

Lemma extends_Set_objects (env : Env) (objs : list Cert) (c : Cache) :
  extends c (Set_objects env c objs).
Proof.
  revert c. induction objs as [|obj objs IH]; intros c; [apply extends_refl|].
  rewrite Set_objects_cons. eapply extends_trans; [|apply IH].
  eapply extends_trans; [|apply extends_set]. apply extends_store.
Qed.

Lemma extends_Reload (env : Env) (c : Cache) (name : string) :
  extends c (snd (Reload env c name)).
Proof.
  unfold Reload. destruct (certs c !! name ≫= _) as [[p obj]|].
  - destruct (Cert_Reload env obj); cbn [snd]; [|apply extends_refl].
    eapply extends_trans; [|apply extends_set]. apply extends_store.
  - destruct (LoadCertPair env name zeroTime) as [[obj|]|e]; cbn [snd];
      [| |apply extends_refl].
    + eapply extends_trans; [|apply extends_set]. apply extends_store.
    + apply extends_set.
Qed.

Lemma extends_cstep (c : Cache) (o : COp) : extends c (cstep c o).
Proof.
  destruct o as [env objs|env name|file t|]; simpl.
  - apply extends_Set_objects.
  - apply extends_Reload.
  - destruct (SetModified_cases c file t) as [->|(p & obj & f & _ & ->)];
      [apply extends_refl|apply extends_store].
  - split; auto.
Qed.

Lemma extends_crun (ops : list COp) (c : Cache) : extends c (crun ops c).
Proof.
  revert c. induction ops as [|o ops IH]; intros c; [apply extends_refl|].
  unfold crun in *. simpl. eapply extends_trans; [apply extends_cstep|apply IH].
Qed.

(** No call removes anything: through any run of calls, a name that [Get]
    finds stays found, a server name that [GetSNI] finds a certificate for
    stays served (also a DNS name that a reloaded certificate no longer
    carries), and [Len] does not go down. *)
Theorem names_never_dropped (ops : list COp) (c : Cache) :
  (forall name, is_Some (Get c name) -> is_Some (Get (crun ops c) name))
  /\ (forall dn, is_Some (GetSNI c dn) -> is_Some (GetSNI (crun ops c) dn))
  /\ Cache_Len c <= Cache_Len (crun ops c).
Proof.
  destruct (extends_crun ops c) as [Hcerts Hsni].
  split; [exact Hcerts|]. split.
  - intros dn. unfold GetSNI.
    destruct (sni c !! dn) as [p|] eqn:Hdn.
    + intros _. destruct (Hsni dn) as [q Hq]; [rewrite Hdn; eauto|]. rewrite Hq. eauto.
    + destruct (String.length (WildcardFor dn) =? 0); [intros [? ?]; discriminate|].
      intros Hwild. destruct (sni (crun ops c) !! dn); [eauto|]. now apply Hsni.
  - unfold Cache_Len. rewrite <- !size_dom. apply subseteq_size.
    intros k. rewrite !elem_of_dom. apply Hcerts.
Qed.


Lemma Reload_failed_same (env : Env) (c : Cache) (name : string) :
  (forall b, fst (Reload env c name) <> Ok b) -> snd (Reload env c name) = c.
Proof.
  unfold Reload.
  destruct (certs c !! name ≫= _) as [[p obj]|].
  - destruct (Cert_Reload env obj); cbn [fst snd]; [intros Hno; now destruct (Hno true)|auto].
  - destruct (LoadCertPair env name zeroTime) as [[obj|]|e']; cbn [fst snd]; auto;
      intros Hno; now destruct (Hno false).
Qed.


End CacheMore.

(** ** The scan of a directory *)

Module ScanFacts.
Import Certs CertsMore.

(** The names the walk collects. *)
Lemma walk_files_names (ctxDone : bool) (visits : list Visit) :
  forall files files',
    walk_files ctxDone visits files = inr files' ->
    forall name, is_Some (files' !! name) <-> is_Some (files !! name) \/ found visits name.
Proof.
  induction visits as [|v visits IH]; intros files files'; simpl.
  - intros [= <-] name. split; [auto|]. intros [?|(_ & u & Hu & _)]; [auto|].
    now apply elem_of_nil in Hu.
  - assert (Hskip : forall name,
              ~ (v_err v = None /\ v_isDir v = false /\ FilePairName (v_path v) = name
                 /\ name <> "") ->
              (found (v :: visits) name <-> found visits name)).
    { intros name Hnot. split; intros (Hne & u & Hu & He & Hd & Hn).
      - apply elem_of_cons in Hu as [->|Hu]; [destruct Hnot; auto|].
        split; [exact Hne|]. exists u. auto.
      - split; [exact Hne|]. exists u. split; [now right|auto]. }
    destruct (v_err v) as [notExist|] eqn:Herr.
    + destruct notExist; simpl; [|discriminate].
      intros Hwalk name. rewrite (IH _ _ Hwalk name), Hskip; [reflexivity|].
      intros (He & _). discriminate.
    + destruct ctxDone; [discriminate|].
      destruct (v_isDir v) eqn:Hdir.
      * intros Hwalk name. rewrite (IH _ _ Hwalk name), Hskip; [reflexivity|].
        intros (_ & Hd & _). discriminate.
      * destruct (String.length (FilePairName (v_path v)) =? 0) eqn:Hlen.
        -- apply DirFacts.length_zero in Hlen.
           intros Hwalk name. rewrite (IH _ _ Hwalk name), Hskip; [reflexivity|].
           intros (_ & _ & Hn & Hne). congruence.
        -- assert (Hne : FilePairName (v_path v) <> "").
           { intros Heq. rewrite Heq in Hlen. discriminate. }
           intros Hwalk name. rewrite (IH _ _ Hwalk name).
           rewrite lookup_insert_is_Some.
           destruct (decide (FilePairName (v_path v) = name)) as [Heq|Hneq].
           ++ split; intros _.
              ** right. split; [congruence|]. exists v. split; [now left|auto].
              ** left. left. exact Heq.
           ++ rewrite Hskip by (intros (_ & _ & Hn & _); congruence).
              split; [intros [[?|[_ ?]]|?]; auto; contradiction|intros [?|?]; auto].
Qed.

(** With a live context and no error other than "not exist", the walk
    comes to its end. *)
Lemma walk_files_completes (visits : list Visit) :
  (forall v, v ∈ visits -> v_err v <> Some false) ->
  forall files, exists files', walk_files false visits files = inr files'.
Proof.
  induction visits as [|v visits IH]; intros Hok files; simpl; [eauto|].
  assert (Hrest : forall u, u ∈ visits -> v_err u <> Some false)
    by (intros u Hu; apply Hok; now right).
  destruct (v_err v) as [[|]|] eqn:Herr; simpl.
  - now apply IH.
  - destruct (Hok v); [now left|exact Herr].
  - destruct (v_isDir v); [now apply IH|].
    destruct (String.length _ =? 0); now apply IH.
Qed.

(** The loop over the names, with a live context. *)
Lemma load_names_live (env : Env) (names : list string) :
  exists certs,
    load_names env false names = inr certs
    /\ (forall c, c ∈ certs <->
                  exists name, name ∈ names /\ LoadCertPair env name zeroTime = Ok (Some c))
    /\ (NoDup names -> NoDup (Name <$> certs))
    /\ (forall c, c ∈ certs -> Name c ∈ names).
Proof.
  induction names as [|name names (certs & Hload & Hin & Hnodup & Hnames)]; simpl.
  - exists []. split; [reflexivity|]. split; [|split].
    + intros c. split; [intros Hc; now apply elem_of_nil in Hc|].
      intros (name & Hname & _). now apply elem_of_nil in Hname.
    + intros _. constructor.
    + intros c Hc. now apply elem_of_nil in Hc.
  - rewrite Hload.
    destruct (LoadCertPair env name zeroTime) as [[cert|]|e] eqn:Hpair.
    + exists (cert :: certs). split; [reflexivity|].
      destruct (CacheMore.LoadCertPair_loaded env name zeroTime cert Hpair) as (Hcn & _).
      split; [|split].
      * intros c. rewrite elem_of_cons, Hin. split.
        -- intros [->|(n & Hn & Hc)]; [exists name; split; [now left|exact Hpair]|].
           exists n. split; [now right|exact Hc].
        -- intros (n & Hn & Hc). apply elem_of_cons in Hn as [->|Hn].
           ++ left. congruence.
           ++ right. eauto.
      * intros Hnd. apply NoDup_cons in Hnd as [Hfresh Hnd]. simpl.
        apply NoDup_cons. split; [|auto].
        rewrite Hcn. intros Hdup. apply list_elem_of_fmap in Hdup as (c & Hc & Hcin).
        apply Hfresh. rewrite Hc. now apply Hnames.
      * intros c Hc. apply elem_of_cons in Hc as [->|Hc]; [rewrite Hcn; now left|].
        right. now apply Hnames.
    + exists certs. split; [reflexivity|]. split; [|split].
      * intros c. rewrite Hin. split.
        -- intros (n & Hn & Hc). exists n. split; [now right|exact Hc].
        -- intros (n & Hn & Hc). apply elem_of_cons in Hn as [->|Hn]; [congruence|eauto].
      * intros Hnd. apply NoDup_cons in Hnd as [_ Hnd]. auto.
      * intros c Hc. right. now apply Hnames.
    + exists certs. split; [reflexivity|]. split; [|split].
      * intros c. rewrite Hin. split.
        -- intros (n & Hn & Hc). exists n. split; [now right|exact Hc].
        -- intros (n & Hn & Hc). apply elem_of_cons in Hn as [->|Hn]; [congruence|eauto].
      * intros Hnd. apply NoDup_cons in Hnd as [_ Hnd]. auto.
      * intros c Hc. right. now apply Hnames.
Qed.

(** With a live context and a walk without an error other than "not
    exist", [LoadDirectoryCerts] returns, once each, the certificates of
    the pairs that load among the names the walk found: a file that is
    neither ".crt" nor ".key", a directory, a pair that does not load or is
    not valid are passed over without an error. *)
Theorem LoadDirectoryCerts_loads_what_loads (w : World) (dir : string) :
  ranges w ->
  (forall v, v ∈ w_walk w dir -> v_err v <> Some false) ->
  exists certs,
    LoadDirectoryCerts w false dir = inr certs
    /\ (forall c, c ∈ certs <->
                  found (w_walk w dir) (Name c)
                  /\ LoadCertPair (w_env w) (Name c) zeroTime = Ok (Some c))
    /\ NoDup (Name <$> certs).
Proof.
  intros Hrange Hok. unfold LoadDirectoryCerts.
  destruct (walk_files_completes (w_walk w dir) Hok ∅) as [files Hwalk]. rewrite Hwalk.
  pose proof (walk_files_names false (w_walk w dir) ∅ files Hwalk) as Hfiles.
  destruct (load_names_live (w_env w) (w_range w files)) as (certs & Hload & Hin & Hnodup & _).
  exists certs. split; [exact Hload|].
  assert (Hrangein : forall name, name ∈ w_range w files <-> found (w_walk w dir) name).
  { intros name. rewrite (Hrange files), elem_of_elements, elem_of_dom, Hfiles.
    rewrite lookup_empty. split; [intros [[? ?]|?]; [discriminate|assumption]|auto]. }
  split.
  - intros c. rewrite Hin. split.
    + intros (name & Hname & Hpair).
      destruct (CacheMore.LoadCertPair_loaded _ _ _ _ Hpair) as (Hcn & _). subst name.
      split; [now apply Hrangein|exact Hpair].
    + intros [Hfound Hpair]. exists (Name c). split; [now apply Hrangein|exact Hpair].
  - apply Hnodup. rewrite (Hrange files). apply NoDup_elements.
Qed.

(** The errors of the scan. A root that does not exist (the walk makes
    one call, with an error that [os.IsNotExist] accepts) gives no
    certificate and no error, whatever the context. With a live context,
    the first other error of the walk is the result of the scan. *)
Theorem LoadDirectoryCerts_errors (w : World) (ctxDone : bool) (dir : string) :
  ranges w ->
  ((forall v, v ∈ w_walk w dir -> v_err v = Some true) ->
     LoadDirectoryCerts w ctxDone dir = inr [])
  /\ (forall pre v rest,
        w_walk w dir = pre ++ v :: rest ->
        (forall u, u ∈ pre -> v_err u <> Some false) ->
        v_err v = Some false -> ctxDone = false ->
        LoadDirectoryCerts w ctxDone dir = inl (ErrWalk (v_path v))).
Proof.
  intros Hrange. split.
  - intros Hall. unfold LoadDirectoryCerts.
    assert (Hwalk : forall files, walk_files ctxDone (w_walk w dir) files = inr files).
    { revert Hall. generalize (w_walk w dir). intros visits.
      induction visits as [|v visits IH]; intros Hall files; simpl; [reflexivity|].
      rewrite (Hall v) by now left. simpl. apply IH. intros u Hu. apply Hall. now right. }
    rewrite Hwalk.
    assert (Hnil : w_range w ∅ = []).
    { apply Permutation_nil_r. rewrite (Hrange ∅), dom_empty_L. now rewrite elements_empty. }
    now rewrite Hnil.
  - intros pre v rest Hvisits Hpre Hv ->. unfold LoadDirectoryCerts. rewrite Hvisits.
    assert (Hwalk : forall files,
              walk_files false (pre ++ v :: rest) files = inl (ErrWalk (v_path v))).
    { clear Hvisits. induction pre as [|u pre IH]; intros files; simpl.
      - now rewrite Hv.
      - assert (Hrest : forall x, x ∈ pre -> v_err x <> Some false)
          by (intros x Hx; apply Hpre; now right).
        destruct (v_err u) as [[|]|] eqn:Hu; simpl.
        + now apply IH.
        + destruct (Hpre u); [now left|exact Hu].
        + destruct (v_isDir u); [now apply IH|].
          destruct (String.length _ =? 0); now apply IH. }
    now rewrite Hwalk.
Qed.

Lemma ranges_world (t : Time) : ranges (DemoScan.world t).
Proof. intros m. reflexivity. Qed.

Lemma LoadDirectoryCerts_loads_what_loads_witness :
  exists certs,
    LoadDirectoryCerts (DemoScan.world 100%Z) false "." = inr certs
    /\ (Demo.cert_a ∈ certs)
    /\ NoDup (Name <$> certs).
Proof.
  destruct (LoadDirectoryCerts_loads_what_loads (DemoScan.world 100%Z) "."
              (ranges_world 100%Z)) as (certs & Hload & Hin & Hnodup).
  - intros v Hv. vm_compute in Hv.
    repeat (apply elem_of_cons in Hv as [->|Hv]; [discriminate|]).
    now apply elem_of_nil in Hv.
  - exists certs. split; [exact Hload|]. split; [|exact Hnodup].
    apply Hin. split; [|reflexivity]. split; [discriminate|].
    exists (mkVisit "a.crt" false None). split; [|repeat split].
    vm_compute. right. right. left.
Defined.

Lemma LoadDirectoryCerts_loads_what_loads_aux :
  exists certs,
    LoadDirectoryCerts (DemoScan.world 100%Z) false "." = inr certs
    /\ Demo.cert_a ∈ certs.
Proof.
  eexists. split; [vm_compute; reflexivity|]. left.
Qed.

Lemma LoadDirectoryCerts_errors_witness :
  LoadDirectoryCerts (DemoScan.world 100%Z) true "/nowhere" = inr [].
Proof.
  apply (proj1 (LoadDirectoryCerts_errors (DemoScan.world 100%Z) true "/nowhere"
                  (ranges_world 100%Z))).
  intros v Hv. vm_compute in Hv.
  apply elem_of_cons in Hv as [->|Hv]; [reflexivity|]. now apply elem_of_nil in Hv.
Defined.

End ScanFacts.

(** ** The Reloader at work *)

Module LoopFacts.
Import Certs CertsMore Collections QueueOps.

Lemma with_queue_same (r : Reloader) : with_queue r (reloadQueue r) = r.
Proof. now destruct r. Qed.

(** On a queue as the calls keep it, the growth step changes nothing:
    with room for a value the guard of [Expand] returns early, and a queue
    of capacity 0 is replaced by one of capacity 0. *)
Lemma grow_steady (r : Reloader) : steady (reloadQueue r) -> grow r = Some r.
Proof.
  intros (Hlen & Hopen & Hset). unfold grow.
  destruct (_ <=? _); [|reflexivity].
  destruct (Nat.eq_dec (Cap (reloadQueue r)) 0) as [Hzero|Hpos].
  - rewrite Hzero. destruct r as [run st ctx c [m [b k cl]]].
    unfold Cap, Channel in Hzero. simpl in *. subst k cl.
    destruct b; [|simpl in Hlen; lia]. reflexivity.
  - rewrite QueueFacts.Expand_larger_skipped by lia. now rewrite with_queue_same.
Qed.

Lemma steady_Poll (ctxDone preferDone : bool) (q : SetT string) :
  steady q ->
  steady (snd (Poll ctxDone preferDone q))
  /\ Cap (snd (Poll ctxDone preferDone q)) = Cap q.
Proof.
  intros Hq. split.
  - now apply (QueueMore.steady_qstep q (QPoll ctxDone preferDone)).
  - unfold Poll, Cap, Channel. destruct (ctxDone && _); [reflexivity|].
    destruct (buf (ch q)); [now destruct (closed (ch q))|reflexivity].
Qed.

Lemma steady_Push (name : string) (q : SetT string) :
  steady q -> steady (Push name q) /\ Cap (Push name q) = Cap q.
Proof.
  intros Hq. split.
  - now apply (QueueMore.steady_qstep q (QPush name)).
  - unfold Push, Cap, Channel. destruct (set q !! name); [reflexivity|].
    now destruct (_ =? _).
Qed.

(** Once the queue is made, its capacity is fixed: a round of the queue
    loop, a tick of the timer and a file event all leave the capacity as
    it is, since the growth step both loops end with changes nothing. No
    round hangs in [Expand], and a tick leaves the queue empty. *)
Theorem queue_capacity_is_fixed (r : Reloader) :
  steady (reloadQueue r) ->
  (forall env ctxDone preferDone,
     match processQueue_round env ctxDone preferDone r with
     | Continue r' =>
         steady (reloadQueue r') /\ Cap (reloadQueue r') = Cap (reloadQueue r)
     | Return _ r' => r' = r
     | Waiting => True
     | Hangs => False
     end)
  /\ (forall w ctxDone dirs,
        exists r', watch_tick w ctxDone dirs r = Some r'
                   /\ steady (reloadQueue r')
                   /\ Cap (reloadQueue r') = Cap (reloadQueue r)
                   /\ buf (ch (reloadQueue r')) = [])
  /\ (forall op file,
        steady (reloadQueue (handleEvent r op file))
        /\ Cap (reloadQueue (handleEvent r op file)) = Cap (reloadQueue r)).
Proof.
  intros Hq. split; [|split].
  - intros env ctxDone preferDone. unfold processQueue_round.
    destruct (steady_Poll ctxDone preferDone (reloadQueue r) Hq) as [Hst Hcap].
    destruct (Poll ctxDone preferDone (reloadQueue r)) as [[name| | |] q]; simpl in *; auto.
    destruct (Reload env (r_certs r) name) as [[add|e] c]; [|auto].
    destruct add; [|auto].
    rewrite grow_steady by exact Hst. auto.
  - intros w ctxDone dirs. unfold watch_tick.
    destruct (loadAllCerts w ctxDone dirs _) as [err c].
    assert (Hst : steady (Empty (reloadQueue r))).
    { now apply (QueueMore.steady_qstep (reloadQueue r) QEmpty). }
    rewrite grow_steady by exact Hst. eexists. split; [reflexivity|]. simpl.
    split; [exact Hst|]. split; reflexivity.
  - intros op file. unfold handleEvent.
    case_bool_decide; [|auto].
    destruct (String.length _ =? 0); [auto|]. simpl. now apply steady_Push.
Qed.

Lemma queue_capacity_is_fixed_witness :
  exists r', watch_tick (DemoScan.world 100%Z) false ["."]
                        (handleEvent NewReloader fsnotify_Write "a.crt") = Some r'
             /\ Cap (reloadQueue r') = 32.
Proof.
  destruct (queue_capacity_is_fixed (handleEvent NewReloader fsnotify_Write "a.crt"))
    as (_ & Htick & _).
  - vm_compute. repeat split. lia.
  - destruct (Htick (DemoScan.world 100%Z) false ["."]) as (r' & Hr' & _ & Hcap & _).
    exists r'. split; [exact Hr'|]. rewrite Hcap. vm_compute. reflexivity.
Defined.

(** A reload that fails costs the queue its request and nothing else: the
    round goes on to the next one with the cache as it was and the rest of
    the queue in order. *)
Theorem failed_reload_is_isolated
    (env : Env) (r : Reloader) (name : string) (rest : list string) (e : error)
    (preferDone : bool) :
  buf (ch (reloadQueue r)) = name :: rest ->
  fst (Reload env (r_certs r) name) = Err e ->
  exists r',
    processQueue_round env false preferDone r = Continue r'
    /\ r_certs r' = r_certs r
    /\ buf (ch (reloadQueue r')) = rest
    /\ running r' = running r.
Proof.
  intros Hbuf Hfail. unfold processQueue_round, Poll, Channel. rewrite Hbuf. simpl.
  assert (Hsame : snd (Reload env (r_certs r) name) = r_certs r).
  { apply CacheMore.Reload_failed_same. intros b. rewrite Hfail. discriminate. }
  destruct (Reload env (r_certs r) name) as [[add|e'] c]; simpl in *; [discriminate|].
  subst c. eexists. split; [reflexivity|]. simpl. auto.
Qed.

Lemma failed_reload_is_isolated_witness :
  let r := with_certs (handleEvent NewReloader fsnotify_Write "old.crt")
                      (Demo.loaded ["a"]) in
  exists r', processQueue_round (Demo.env 100%Z) false false r = Continue r'
             /\ r_certs r' = r_certs r
             /\ buf (ch (reloadQueue r')) = [].
Proof.
  intros r.
  destruct (failed_reload_is_isolated (Demo.env 100%Z) r "old" [] ErrInvalidCertParsed false)
    as (r' & Hround & Hcerts & Hbuf & _).
  - vm_compute. reflexivity.
  - vm_compute. reflexivity.
  - exists r'. auto.
Defined.

(** A file event reaches the queue only as a Create or a Write on a file
    of a pair, and then as a [Push] of the name of the pair; any other
    operation, and any other file, leaves the Reloader as it is. The
    cache and the running flag are never touched. *)
Theorem handleEvent_pushes_pair_name (r : Reloader) (op : fsnotify_Op) (file : string) :
  r_certs (handleEvent r op file) = r_certs r
  /\ running (handleEvent r op file) = running r
  /\ (op <> fsnotify_Create -> op <> fsnotify_Write -> handleEvent r op file = r)
  /\ ((forall n, file <> n +:+ ".crt") -> (forall n, file <> n +:+ ".key") ->
      handleEvent r op file = r)
  /\ (op = fsnotify_Create \/ op = fsnotify_Write ->
      forall name, name <> "" -> file = name +:+ ".crt" \/ file = name +:+ ".key" ->
      handleEvent r op file = with_queue r (Push name (reloadQueue r))).
Proof.
  unfold handleEvent. split; [|split; [|split; [|split]]].
  - case_bool_decide; [|reflexivity]. now destruct (String.length _ =? 0).
  - case_bool_decide; [|reflexivity]. now destruct (String.length _ =? 0).
  - intros Hc Hw. rewrite bool_decide_eq_false_2; [reflexivity|]. intros [?|?]; contradiction.
  - intros Hcrt Hkey. case_bool_decide; [|reflexivity].
    unfold FilePairName. now rewrite (NameFacts.FilePairNameAndType_other file Hcrt Hkey).
  - intros Hop name Hname Hfile. rewrite bool_decide_eq_true_2 by exact Hop.
    assert (Hpair : FilePairName file = name).
    { unfold FilePairName. destruct Hfile as [-> | ->].
      - now rewrite NameFacts.FilePairNameAndType_crt.
      - now rewrite NameFacts.FilePairNameAndType_key. }
    rewrite Hpair.
    destruct (String.length name =? 0) eqn:Hlen; [|reflexivity].
    apply DirFacts.length_zero in Hlen. contradiction.
Qed.

Lemma handleEvent_pushes_pair_name_witness :
  buf (ch (reloadQueue (handleEvent NewReloader fsnotify_Create "/certs/a.key")))
  = ["/certs/a"]
  /\ handleEvent NewReloader 4%N "/certs/a.key" = NewReloader.
Proof.
  destruct (handleEvent_pushes_pair_name NewReloader fsnotify_Create "/certs/a.key")
    as (_ & _ & _ & _ & Hpush).
  destruct (handleEvent_pushes_pair_name NewReloader 4%N "/certs/a.key")
    as (_ & _ & Hother & _).
  split.
  - rewrite (Hpush (or_introl eq_refl) "/certs/a"); [reflexivity|discriminate|now right].
  - apply Hother; discriminate.
Defined.

(** A Reloader whose first scan loads no certificate gets a queue of
    capacity 0, and from then on every file event is dropped: [Push]
    finds the channel at capacity each time. *)
Theorem no_certificate_no_event
    (w : World) (ctxDone : bool) (dirs : list string) (r r' : Reloader) :
  initializeAllCerts w ctxDone dirs r = (None, r') ->
  Cache_Len (r_certs r') = 0 ->
  Cap (reloadQueue r') = 0
  /\ forall op file, handleEvent r' op file = r'.
Proof.
  unfold initializeAllCerts. destruct (loadAllCerts w ctxDone dirs (r_certs r)) as [[e|] c];
    [discriminate|].
  intros [= <-]. simpl. intros ->. split; [reflexivity|].
  intros op file. unfold handleEvent. case_bool_decide; [|reflexivity].
  now destruct (String.length _ =? 0).
Qed.

Lemma no_certificate_no_event_witness :
  exists r', initializeAllCerts (DemoScan.world 100%Z) false ["/nowhere"] NewReloader
             = (None, r')
             /\ handleEvent r' fsnotify_Write "a.crt" = r'.
Proof.
  eexists. split; [vm_compute; reflexivity|].
  match goal with |- handleEvent ?x _ _ = _ =>
    apply (proj2 (no_certificate_no_event (DemoScan.world 100%Z) false ["/nowhere"]
                    NewReloader x ltac:(vm_compute; reflexivity)
                    ltac:(vm_compute; reflexivity)))
  end.
Defined.

(** Every object handed to [Set] is tracked under its name afterwards. *)
Lemma Set_objects_tracks (env : Env) (objs : list Cert) (c : Cache) :
  extends c (Set_objects env c objs)
  /\ forall obj, obj ∈ objs -> is_Some (Get (Set_objects env c objs) (Name obj)).
Proof.
  split; [apply CacheMore.extends_Set_objects|].
  revert c. induction objs as [|o objs IH]; intros c obj Hobj.
  - now apply elem_of_nil in Hobj.
  - rewrite CacheMore.Set_objects_cons.
    apply elem_of_cons in Hobj as [->|Hobj]; [|now apply IH].
    apply (CacheMore.extends_Set_objects env objs). unfold set. simpl.
    rewrite lookup_insert_eq.
    destruct (CacheFacts.Cert_DNSNames_keeps env o) as [Hname _].
    destruct (Cert_DNSNames env o) as [names o']. simpl in *. rewrite Hname.
    rewrite lookup_insert_eq. eauto.
Qed.

Lemma loadAllCerts_loop_spec (w : World) (dirs : list string) :
  forall (c : Cache) (errs : list scan_error),
    let '(err, c') := loadAllCerts_loop w false dirs c errs in
    extends c c'
    /\ (forall dir objs obj, dir ∈ dirs -> LoadDirectoryCerts w false dir = inr objs ->
          obj ∈ objs -> is_Some (Get c' (Name obj)))
    /\ (err = None <->
        errs = [] /\ forall dir, dir ∈ dirs -> exists objs, LoadDirectoryCerts w false dir = inr objs)
    /\ err <> Some LoadCanceled.
Proof.
  induction dirs as [|dir dirs IH]; intros c errs; simpl.
  - split; [apply CacheMore.extends_refl|]. split; [|split].
    + intros dir objs obj Hdir. now apply elem_of_nil in Hdir.
    + destruct errs; split; try discriminate; auto.
      * intros _. split; [reflexivity|]. intros dir Hdir. now apply elem_of_nil in Hdir.
      * intros [? _]. discriminate.
    + now destruct errs.
  - destruct (LoadDirectoryCerts w false dir) as [e|objs] eqn:Hdir.
    + specialize (IH c (errs ++ [e])).
      destruct (loadAllCerts_loop w false dirs c (errs ++ [e])) as [err c'].
      destruct IH as (Hext & Hall & Herr & Hcancel).
      split; [exact Hext|]. split; [|split; [|exact Hcancel]].
      * intros d objs obj Hd Hobjs Hobj. apply elem_of_cons in Hd as [->|Hd]; [congruence|].
        eauto.
      * split.
        -- intros Hnone. apply Herr in Hnone as [Hnil _]. now destruct errs.
        -- intros [_ Hok]. destruct (Hok dir) as [objs Hobjs]; [now left|congruence].
    + destruct (Set_objects_tracks (w_env w) objs c) as [Hext0 Htracked].
      specialize (IH (Set_objects (w_env w) c objs) errs).
      destruct (loadAllCerts_loop w false dirs _ errs) as [err c'].
      destruct IH as (Hext & Hall & Herr & Hcancel).
      split; [eapply CacheMore.extends_trans; eauto|]. split; [|split; [|exact Hcancel]].
      * intros d objs' obj Hd Hobjs Hobj. apply elem_of_cons in Hd as [->|Hd]; [|eauto].
        assert (objs' = objs) by congruence. subst objs'.
        apply Hext. now apply Htracked.
      * rewrite Herr. split; intros [Hnil Hok]; (split; [exact Hnil|]).
        -- intros d Hd. apply elem_of_cons in Hd as [->|Hd]; eauto.
        -- intros d Hd. apply Hok. now right.
Qed.

(** With a live context, [loadAllCerts] goes through every directory: a
    directory whose scan fails does not keep the others from loading.
    Every certificate a directory's scan returns is tracked under its name
    afterwards, nothing tracked before is dropped, and the result is nil
    exactly when every scan succeeded. With the context done and a
    directory to scan, the call returns at once with the cache as it
    was. *)
Theorem loadAllCerts_scans_every_directory
    (w : World) (dirs : list string) (c : Cache) :
  (forall name, is_Some (Get c name) ->
     is_Some (Get (snd (loadAllCerts w false dirs c)) name))
  /\ (forall dir objs obj,
        dir ∈ dirs -> LoadDirectoryCerts w false dir = inr objs -> obj ∈ objs ->
        is_Some (Get (snd (loadAllCerts w false dirs c)) (Name obj)))
  /\ (fst (loadAllCerts w false dirs c) = None <->
      forall dir, dir ∈ dirs -> exists objs, LoadDirectoryCerts w false dir = inr objs)
  /\ (dirs <> [] -> loadAllCerts w true dirs c = (Some LoadCanceled, c)).
Proof.
  unfold loadAllCerts.
  pose proof (loadAllCerts_loop_spec w dirs c []) as Hspec.
  destruct (loadAllCerts_loop w false dirs c []) as [err c'].
  destruct Hspec as ([Hcerts _] & Hall & Herr & _). simpl.
  split; [exact Hcerts|]. split; [exact Hall|]. split.
  - rewrite Herr. split; [now intros [_ ?]|auto].
  - intros Hne. destruct dirs; [contradiction|reflexivity].
Qed.

Lemma loadAllCerts_scans_every_directory_witness :
  is_Some (Get (snd (loadAllCerts (DemoScan.world 100%Z) false ["/nowhere"; "."] NewCache))
               "a").
Proof.
  destruct (loadAllCerts_scans_every_directory (DemoScan.world 100%Z)
              ["/nowhere"; "."] NewCache) as (_ & Hall & _).
  destruct ScanFacts.LoadDirectoryCerts_loads_what_loads_aux as (certs & Hload & Hin).
  apply (Hall "." certs Demo.cert_a); [right; left|exact Hload|exact Hin].
Defined.

End LoopFacts.

(** ** More on directory lists *)

Module DirMore.
Import Certs CertsMore Statements.

Lemma app_assoc (a b c : string) : (a +:+ b) +:+ c = a +:+ (b +:+ c).
Proof.
  induction a as [|x a IH]; [reflexivity|].
  change (String x ((a +:+ b) +:+ c) = String x (a +:+ (b +:+ c))). now f_equal.
Qed.

Lemma slashes_snoc (n : nat) : slashes n +:+ "/" = slashes (S n).
Proof.
  induction n as [|n IH]; [reflexivity|].
  change (String "/" (slashes n +:+ "/") = String "/" (slashes (S n))). now f_equal.
Qed.

(** A string whose last character is [c] is the string before it and [c]. *)
Lemma last_split (s : string) (c : ascii) :
  String.get (String.length s - 1) s = Some c ->
  s = String.substring 0 (String.length s - 1) s +:+ String c "".
Proof.
  intros Hget. destruct (DirFacts.get_split s _ c Hget) as [rest Hrest].
  assert (Hlen : String.length s = String.length s - 1 + S (String.length rest)).
  { rewrite Hrest at 1. rewrite DirFacts.length_app. simpl.
    rewrite DirFacts.length_substring_prefix; lia. }
  apply DirFacts.get_lt in Hget.
  destruct rest; [exact Hrest|]. simpl in Hlen. lia.
Qed.

Lemma trimSlashes_loop_cut (fuel : nat) (dir : string) :
  exists n, dir = trimSlashes_loop fuel dir +:+ slashes n.
Proof.
  revert dir. induction fuel as [|fuel IH]; intros dir; simpl.
  - exists 0. now rewrite NameFacts.app_empty_r.
  - destruct (0 <? String.length dir); simpl; [|exists 0; now rewrite NameFacts.app_empty_r].
    case_bool_decide as Hlast; [|exists 0; now rewrite NameFacts.app_empty_r].
    destruct (IH (String.substring 0 (String.length dir - 1) dir)) as [n Hn].
    exists (S n). rewrite <- slashes_snoc, <- app_assoc, <- Hn.
    now apply last_split.
Qed.

(** The trimming loop cuts the separators at the end of a path, all of
    them and nothing else, so that trimming twice is trimming once; the
    root "/" is cut down to the empty string. *)
Theorem trimSlashes_cuts_trailing_separators (dir : string) :
  no_trailing_separator (trimSlashes dir)
  /\ (exists n, dir = trimSlashes dir +:+ slashes n)
  /\ trimSlashes (trimSlashes dir) = trimSlashes dir
  /\ trimSlashes "/" = "".
Proof.
  split; [apply DirFacts.trimSlashes_done|]. split; [apply trimSlashes_loop_cut|].
  split; [|reflexivity].
  apply DirFacts.trimSlashes_clean. apply DirFacts.trimSlashes_done.
Qed.

(** [isSubdirOf] holds of a path exactly when the path is selected or
    lies below a selected directory: some directory of the set, followed
    by a separator, starts the path. A path that only starts with the
    characters of a selected directory ("/ab" against "/a") does not
    count. *)
Theorem isSubdirOf_selected_or_below (set : gmap string bool) (dir : string) :
  isSubdirOf set dir = true <->
  member set dir \/ exists a, member set a /\ below dir a.
Proof. apply DirFacts.isSubdirOf_spec. Qed.

Lemma isSubdirOf_selected_or_below_witness :
  isSubdirOf {["/a" := true]} "/a/b" = true
  /\ isSubdirOf {["/a" := true]} "/ab" = false.
Proof.
  split.
  - apply isSubdirOf_selected_or_below. right. exists "/a". split; [|now exists "b"].
    vm_compute. reflexivity.
  - vm_compute. reflexivity.
Defined.

(** Whatever [filepath.Abs] and the sort do: when [filepath.Abs] fails on
    a non-empty entry the call fails, and a list that is returned has no
    directory twice and no directory with a trailing separator. *)
Theorem RemoveSubdirectories_any_input
    (Abs : string -> option string) (sortSlice : list string -> list string)
    (dirs : list string) :
  (forall d, d ∈ dirs -> d <> "" -> Abs d = None ->
     exists e, RemoveSubdirectories Abs sortSlice dirs = Err e)
  /\ (forall out, RemoveSubdirectories Abs sortSlice dirs = Ok out ->
        NoDup out /\ forall o, o ∈ out -> no_trailing_separator o).
Proof.
  split.
  - intros d Hd Hne Hnone.
    destruct (DirFacts.absAll_fails Abs dirs d Hd Hne Hnone) as (e & _ & He). eauto.
  - unfold RemoveSubdirectories. destruct (absAll Abs dirs) as [l|e]; [|discriminate].
    intros out [= <-]. split; [apply NoDup_elements|].
    intros o Ho. apply elem_of_elements, elem_of_dom in Ho as [v Hv].
    assert (Htrue : all_true (foldl selectDir ∅ (sortSlice l))).
    { apply DirFacts.foldl_selectDir_all_true. intros k b. now rewrite lookup_empty. }
    apply (DirFacts.foldl_selectDir_trimmed (sortSlice l) ∅).
    + intros k Hk. unfold member in Hk. now rewrite lookup_empty in Hk.
    + unfold member. rewrite Hv. f_equal. exact (Htrue o v Hv).
Qed.

Lemma RemoveSubdirectories_any_input_witness :
  exists out, RemoveSubdirectories (Demo.AbsUnder "/srv") Demo.sortByLength
                ["/"; "/a/b"; "/a"] = Ok out
              /\ NoDup out.
Proof.
  eexists. split; [vm_compute; reflexivity|].
  match goal with |- NoDup ?x =>
    apply (proj2 (RemoveSubdirectories_any_input (Demo.AbsUnder "/srv") Demo.sortByLength
                    ["/"; "/a/b"; "/a"]) x)
  end.
  vm_compute. reflexivity.
Defined.

(** The selection, for entries that resolve to absolute paths other
    than the root. *)
Lemma selects_absolute_forms
    (Abs : string -> option string) (sortSlice : list string -> list string)
    (dirs : list string) :
  sorts_by_length sortSlice ->
  (forall d, d ∈ dirs -> d <> "" ->
     exists a, Abs d = Some a /\ is_absolute a /\ no_trailing_separator a) ->
  exists out,
    RemoveSubdirectories Abs sortSlice dirs = Ok out
    /\ (forall o, o ∈ out ->
          is_absolute o /\ no_trailing_separator o
          /\ exists d, d ∈ dirs /\ d <> "" /\ Abs d = Some o)
    /\ (forall o1 o2, o1 ∈ out -> o2 ∈ out -> ~ below o2 o1)
    /\ (forall d a, d ∈ dirs -> d <> "" -> Abs d = Some a ->
          a ∈ out \/ exists o, o ∈ out /\ below a o).
Proof.
  intros Hsort Habs.
  destruct (DirFacts.absAll_spec Abs dirs) as (l & Hl & Hfrom & Hto).
  { intros d Hd Hne. destruct (Habs d Hd Hne) as (a & -> & _). eauto. }
  destruct (Hsort l) as [Hperm Hsorted].
  assert (Hclean : Forall no_trailing_separator (sortSlice l)).
  { apply Forall_forall. intros a Ha. rewrite Hperm in Ha.
    destruct (Hfrom a Ha) as [->|(d & Hd & Hne & Hda)].
    - unfold no_trailing_separator. simpl. congruence.
    - destruct (Habs d Hd Hne) as (a' & Ha' & _ & Htrim). congruence. }
  destruct (DirFacts.foldl_selectDir_sorted (sortSlice l) ∅ Hsorted Hclean)
    as (Hanti & _ & Hnew & Hcover).
  { intros k Hk. unfold member in Hk. now rewrite lookup_empty in Hk. }
  { intros k1 k2 Hk1. unfold member in Hk1. now rewrite lookup_empty in Hk1. }
  assert (Htrue : all_true (foldl selectDir ∅ (sortSlice l))).
  { apply DirFacts.foldl_selectDir_all_true. intros k v. now rewrite lookup_empty. }
  assert (Hout : forall o, o ∈ elements (dom (foldl selectDir ∅ (sortSlice l)))
                           <-> member (foldl selectDir ∅ (sortSlice l)) o).
  { intros o. rewrite elem_of_elements, elem_of_dom. unfold member. split.
    - intros [v Hv]. rewrite Hv. f_equal. exact (Htrue o v Hv).
    - intros Ho. eauto. }
  exists (elements (dom (foldl selectDir ∅ (sortSlice l)))).
  split; [unfold RemoveSubdirectories; now rewrite Hl|]. split; [|split].
  - intros o Ho. apply Hout in Ho. destruct (Hnew o Ho) as [Hempty|[Hin Hne]].
    { unfold member in Hempty. now rewrite lookup_empty in Hempty. }
    rewrite Hperm in Hin. destruct (Hfrom o Hin) as [?|(d & Hd & Hdne & Hdo)]; [contradiction|].
    destruct (Habs d Hd Hdne) as (a & Ha & Habsolute & Htrim).
    assert (a = o) by congruence. subst a. eauto 8.
  - intros o1 o2 Ho1 Ho2. apply Hout in Ho1, Ho2. now apply Hanti.
  - intros d a Hd Hne Ha.
    destruct (Habs d Hd Hne) as (a' & Ha' & Habsolute & _).
    assert (a' = a) by congruence. subst a'.
    assert (Hane : a <> "") by (intros ->; discriminate).
    assert (Hin : a ∈ sortSlice l) by (rewrite Hperm; eauto).
    destruct (Hcover a Hin Hane) as [Hself|(o & Ho & Hbelow)].
    + left. now apply Hout.
    + right. exists o. split; [now apply Hout|exact Hbelow].
Qed.

(** Normalizing a second time changes nothing: when [filepath.Abs]
    resolves the non-empty entries to absolute paths other than the root
    and leaves an absolute form as it is, the list [RemoveSubdirectories]
    returns is, up to its order, what it returns on that list again. *)
Theorem RemoveSubdirectories_again
    (Abs : string -> option string) (sortSlice : list string -> list string)
    (dirs out : list string) :
  sorts_by_length sortSlice ->
  (forall d, d ∈ dirs -> d <> "" ->
     exists a, Abs d = Some a /\ is_absolute a /\ no_trailing_separator a) ->
  (forall d a, Abs d = Some a -> Abs a = Some a) ->
  RemoveSubdirectories Abs sortSlice dirs = Ok out ->
  exists out', RemoveSubdirectories Abs sortSlice out = Ok out' /\ out' ≡ₚ out.
Proof.
  intros Hsort Habs Hidem Hout.
  destruct (selects_absolute_forms Abs sortSlice dirs Hsort Habs)
    as (out0 & Hout0 & Hforms & Hanti & _).
  assert (out0 = out) by congruence. subst out0.
  assert (Hfix : forall o, o ∈ out -> o <> "" /\ Abs o = Some o
                                        /\ is_absolute o /\ no_trailing_separator o).
  { intros o Ho. destruct (Hforms o Ho) as (Ha & Ht & d & _ & _ & Hd).
    split; [intros ->; discriminate|]. split; [exact (Hidem d o Hd)|auto]. }
  destruct (selects_absolute_forms Abs sortSlice out Hsort)
    as (out' & Hout' & Hforms' & _ & Hcover').
  { intros o Ho _. exists o. destruct (Hfix o Ho) as (_ & ? & ? & ?). auto. }
  exists out'. split; [exact Hout'|].
  assert (Hsub : forall o, o ∈ out' -> o ∈ out).
  { intros o Ho. destruct (Hforms' o Ho) as (_ & _ & d & Hd & _ & Hdo).
    destruct (Hfix d Hd) as (_ & Hdd & _). assert (d = o) by congruence. now subst d. }
  apply NoDup_Permutation.
  - unfold RemoveSubdirectories in Hout'. destruct (absAll Abs out); [|discriminate].
    injection Hout' as <-. apply NoDup_elements.
  - unfold RemoveSubdirectories in Hout. destruct (absAll Abs dirs); [|discriminate].
    injection Hout as <-. apply NoDup_elements.
  - intros o. split; [apply Hsub|].
    intros Ho. destruct (Hfix o Ho) as (Hne & Hoo & _).
    destruct (Hcover' o o Ho Hne Hoo) as [Hin|(o' & Ho' & Hbelow)]; [exact Hin|].
    destruct (Hanti o' o (Hsub o' Ho') Ho Hbelow).
Qed.

Lemma AbsUnder_again (wd d a : string) :
  is_absolute wd -> Demo.AbsUnder wd d = Some a -> Demo.AbsUnder wd a = Some a.
Proof.
  intros Hwd. unfold Demo.AbsUnder.
  destruct d as [|c d]; [|destruct (Ascii.eqb c "/") eqn:Hc].
  - intros [= <-]. destruct wd as [|c wd]; [reflexivity|].
    unfold is_absolute in Hwd. simpl in Hwd. injection Hwd as ->. reflexivity.
  - intros [= <-]. now rewrite Hc.
  - intros [= <-]. destruct wd as [|c' wd]; [discriminate|].
    unfold is_absolute in Hwd. simpl in Hwd. injection Hwd as ->. reflexivity.
Qed.

Lemma RemoveSubdirectories_again_witness :
  exists out out',
    RemoveSubdirectories (Demo.AbsUnder "/srv") Demo.sortByLength
      ["/a/b"; "/c"; ""; "/a"] = Ok out
    /\ RemoveSubdirectories (Demo.AbsUnder "/srv") Demo.sortByLength out = Ok out'
    /\ out' ≡ₚ out.
Proof.
  destruct (RemoveSubdirectories (Demo.AbsUnder "/srv") Demo.sortByLength
              ["/a/b"; "/c"; ""; "/a"]) as [out|e] eqn:Hout;
    [|vm_compute in Hout; discriminate].
  destruct (RemoveSubdirectories_again (Demo.AbsUnder "/srv") Demo.sortByLength
              ["/a/b"; "/c"; ""; "/a"] out DirFacts.sortByLength_sorts)
    as (out' & Hout' & Hperm).
  - intros d Hd Hne.
    repeat (apply elem_of_cons in Hd as [->|Hd];
            [first [ congruence
                   | eexists; split; [reflexivity|]; split;
                     [reflexivity|unfold no_trailing_separator; simpl; congruence] ]|]).
    now apply elem_of_nil in Hd.
  - intros d a. now apply AbsUnder_again.
  - exact Hout.
  - exists out, out'. auto.
Defined.

End DirMore.

(** ** The vendored package [collections]: slices and the generic set *)

Module GenericFacts.
Import Generic.

Section Slices.
Context {T : Type} (zero : T) `{EqDecision T}.

Lemma Reverse_loop_spec (s : list T) (n : nat) (res : list T) :
  n <= length s ->
  Reverse_loop s n res = res ++ reverse (take n s).
Proof.
  revert res. induction n as [|i IH]; intros res Hn.
  - simpl. rewrite take_0. now rewrite app_nil_r.
  - simpl. destruct (lookup_lt_is_Some_2 s i) as [x Hx]; [lia|].
    rewrite Hx. rewrite IH by lia.
    rewrite (take_S_r s i x Hx). rewrite reverse_snoc.
    now rewrite <- app_assoc.
Qed.

Lemma Reverse_reverse (s : list T) : Reverse s = reverse s.
Proof.
  unfold Reverse. rewrite Reverse_loop_spec by lia.
  now rewrite firstn_all.
Qed.

Lemma ReverseInPlace_loop_spec (fuel : nat) :
  forall (m a b : list T),
    length m <= fuel ->
    ReverseInPlace_loop fuel (a ++ m ++ b)
      (Z.of_nat (length a)) (Z.of_nat (length a + length m) - 1)
    = a ++ reverse m ++ b.
Proof.
  induction fuel as [|fuel IH]; intros m a b Hm.
  - destruct m; [reflexivity | simpl in Hm; lia].
  - destruct m as [|x m].
    { cbn [ReverseInPlace_loop].
      destruct (Z.ltb_spec (Z.of_nat (length a))
                  (Z.of_nat (length a + length (@nil T)) - 1)) as [Hlt|_];
        [simpl in Hlt; lia | reflexivity]. }
    destruct (decide (m = [])) as [->|Hne].
    { cbn [ReverseInPlace_loop].
      destruct (Z.ltb_spec (Z.of_nat (length a))
                  (Z.of_nat (length a + length [x]) - 1)) as [Hlt|_];
        [simpl in Hlt; lia | reflexivity]. }
    destruct (exists_last Hne) as (m' & y & ->).
    cbn [ReverseInPlace_loop].
    rewrite length_cons, length_app in *. cbn [length] in *.
    destruct (Z.ltb_spec (Z.of_nat (length a))
                (Z.of_nat (length a + S (length m' + 1)) - 1)) as [_|Hge]; [|lia].
    rewrite Nat2Z.id.
    replace (Z.to_nat (Z.of_nat (length a + S (length m' + 1)) - 1))
      with (length (a ++ x :: m')) by (rewrite length_app; simpl; lia).
    assert (Hi : (a ++ (x :: m' ++ [y]) ++ b) !! length a = Some x).
    { rewrite lookup_app_r by lia. now rewrite Nat.sub_diag. }
    assert (Hj : (a ++ (x :: m' ++ [y]) ++ b) !! length (a ++ x :: m') = Some y).
    { replace (a ++ (x :: m' ++ [y]) ++ b) with ((a ++ x :: m') ++ y :: b)
        by (rewrite <- ?app_assoc; simpl; rewrite <- ?app_assoc; reflexivity).
      rewrite lookup_app_r by lia. now rewrite Nat.sub_diag. }
    rewrite Hi, Hj.
    assert (Heq : <[length (a ++ x :: m') := x]>
                    (<[length a := y]> (a ++ (x :: m' ++ [y]) ++ b))
                  = (a ++ [y]) ++ m' ++ (x :: b)).
    { rewrite insert_app_r_alt by lia. rewrite Nat.sub_diag. cbn [app].
      change (<[0:=y]> (x :: (m' ++ [y]) ++ b)) with (y :: (m' ++ [y]) ++ b).
      replace (a ++ y :: (m' ++ [y]) ++ b) with ((a ++ y :: m') ++ y :: b)
        by (rewrite <- ?app_assoc; simpl; rewrite <- ?app_assoc; reflexivity).
      replace (length (a ++ x :: m')) with (length (a ++ y :: m'))
        by (rewrite !length_app; reflexivity).
      rewrite insert_app_r_alt by lia. rewrite Nat.sub_diag.
      rewrite <- !app_assoc. reflexivity. }
    rewrite Heq.
    replace (Z.of_nat (length a) + 1)%Z with (Z.of_nat (length (a ++ [y])))
      by (rewrite length_app; simpl; lia).
    replace (Z.of_nat (length a + S (length m' + 1)) - 1 - 1)%Z
      with (Z.of_nat (length (a ++ [y]) + length m') - 1)%Z
      by (rewrite length_app; simpl; lia).
    rewrite IH by lia.
    rewrite reverse_cons, reverse_snoc.
    rewrite <- !app_assoc. reflexivity.
Qed.

Lemma ReverseInPlace_reverse (s : list T) : ReverseInPlace s = reverse s.
Proof.
  unfold ReverseInPlace.
  pose proof (ReverseInPlace_loop_spec (length s) s [] [] (le_n _)) as Hs.
  rewrite !app_nil_r in Hs. cbn [app length Nat.add] in Hs.
  exact Hs.
Qed.

Lemma Contains_elem (s : list T) (target : T) :
  Contains s target = true <-> target ∈ s.
Proof.
  induction s as [|e s IH]; simpl.
  - split; [discriminate | intros Hin; inversion Hin].
  - rewrite elem_of_cons. case_bool_decide as He.
    + split; [intros _; left; now symmetry | reflexivity].
    + rewrite IH. split; [now right | intros [->|Hin]; [congruence | exact Hin]].
Qed.

Lemma Last_last (s : list T) : Last zero s = default zero (last s).
Proof.
  unfold Last. destruct (Nat.eqb_spec (length s) 0) as [Hz|Hz].
  - destruct s; [reflexivity | discriminate].
  - rewrite last_lookup. now replace (pred (length s)) with (length s - 1) by lia.
Qed.

Lemma First_head (s : list T) : First zero s = default zero (head s).
Proof.
  unfold First. destruct s; reflexivity.
Qed.

(** Both ways of reversing a slice give the reversed slice, of any length:
    reversing is its own inverse, keeps the elements, and swaps the first
    and the last element, the zero value standing for both on the empty
    slice. *)
Theorem Reverse_and_ReverseInPlace (s : list T) (target : T) :
  Reverse s = reverse s /\
  ReverseInPlace s = Reverse s /\
  Reverse (Reverse s) = s /\
  ReverseInPlace (ReverseInPlace s) = s /\
  Contains (Reverse s) target = Contains s target /\
  First zero (Reverse s) = Last zero s /\
  Last zero (Reverse s) = First zero s.
Proof.
  rewrite !ReverseInPlace_reverse, !Reverse_reverse, reverse_involutive.
  repeat split.
  - apply eq_true_iff_eq. rewrite !Contains_elem. apply elem_of_reverse.
  - rewrite First_head, Last_last. now rewrite head_reverse.
  - rewrite First_head, Last_last. now rewrite last_reverse.
Qed.

End Slices.

Section SetOf.
Context {T : Type} `{Countable T}.
Variable range : gset T -> list T.
Hypothesis Hrange : ranges_over range.

Lemma range_elem (s : gset T) (x : T) : x ∈ range s <-> x ∈ s.
Proof. rewrite (Hrange s). apply elem_of_elements. Qed.

Lemma foldl_Add_if (f : T -> bool) (l : list T) (acc : gset T) (x : T) :
  x ∈ foldl (fun acc k => if f k then Add k acc else acc) acc l
  <-> x ∈ acc \/ (x ∈ l /\ f x = true).
Proof.
  revert acc. induction l as [|k l IH]; intros acc; simpl.
  - split; [now left | intros [Hx|[Hx _]]; [exact Hx | inversion Hx]].
  - rewrite IH, elem_of_cons. unfold Add. destruct (f k) eqn:Hk.
    + rewrite elem_of_union, elem_of_singleton. split.
      * intros [[->|Hx]|[Hx Hf]]; [right; split; [now left | exact Hk] | now left
                                   | right; split; [now right | exact Hf]].
      * intros [Hx|[[->|Hx] Hf]]; [left; now right | left; now left
                                   | right; split; [exact Hx | exact Hf]].
    + split.
      * intros [Hx|[Hx Hf]]; [now left | right; split; [now right | exact Hf]].
      * intros [Hx|[[->|Hx] Hf]]; [now left | congruence
                                   | right; split; [exact Hx | exact Hf]].
Qed.

Lemma foldl_Add (l : list T) (acc : gset T) (x : T) :
  x ∈ foldl (fun acc k => Add k acc) acc l <-> x ∈ acc \/ x ∈ l.
Proof.
  rewrite (foldl_Add_if (fun _ => true) l acc x). intuition.
Qed.

Lemma NewSet_elem (values : list T) (x : T) : x ∈ NewSet values <-> x ∈ values.
Proof.
  unfold NewSet. rewrite (foldl_Add values ∅ x). rewrite elem_of_empty. intuition.
Qed.

Lemma SetContains_elem (s : gset T) (x : T) : SetContains s x = true <-> x ∈ s.
Proof. unfold SetContains. apply bool_decide_eq_true. Qed.

Lemma SetContains_not_elem (s : gset T) (x : T) :
  negb (SetContains s x) = true <-> x ∉ s.
Proof.
  unfold SetContains. rewrite negb_true_iff. apply bool_decide_eq_false.
Qed.

Lemma IsSubsetOf_loop_spec (keys : list T) (other : gset T) :
  IsSubsetOf_loop keys other = true <-> forall x, x ∈ keys -> x ∈ other.
Proof.
  induction keys as [|k keys IH]; simpl.
  - split; [intros _ x Hx; inversion Hx | reflexivity].
  - destruct (SetContains other k) eqn:Hk; simpl.
    + rewrite IH. apply SetContains_elem in Hk. split.
      * intros Hall x [->|Hx]%elem_of_cons; [exact Hk | now apply Hall].
      * intros Hall x Hx. apply Hall. now right.
    + split; [discriminate|]. intros Hall.
      assert (Hin : k ∈ other) by (apply Hall; now left).
      apply SetContains_elem in Hin. congruence.
Qed.

Lemma AsSlice_range (s : gset T) : AsSlice range s = range s.
Proof.
  unfold AsSlice.
  assert (Hgen : forall (l acc : list T),
             foldl (fun output key => output ++ [key]) acc l = acc ++ l).
  { induction l as [|k l IH]; intros acc; simpl.
    - now rewrite app_nil_r.
    - rewrite IH. now rewrite <- app_assoc. }
  apply Hgen.
Qed.

(** In whatever order the elements of a set are ranged over, the set
    operations compute the union, the intersection, the relative complement
    and the symmetric difference; IsSubsetOf decides inclusion, a copy has
    the elements of the original, and AsSlice lists each element once. *)
Theorem Set_operations_any_order (s other : gset T) :
  Union range s other = s ∪ other /\
  Intersect range s other = s ∩ other /\
  Subtract range s other = s ∖ other /\
  Difference range s other = (s ∖ other) ∪ (other ∖ s) /\
  (IsSubsetOf range s other = true <-> s ⊆ other) /\
  Copy range s = s /\
  NoDup (AsSlice range s) /\
  (forall x, x ∈ AsSlice range s <-> SetContains s x = true) /\
  length (AsSlice range s) = Len s.
Proof.
  split; [|split; [|split; [|split; [|split; [|split; [|split; [|split]]]]]]].
  - apply set_eq; intros x. unfold Union.
    rewrite !foldl_Add, NewSet_elem, !range_elem, elem_of_union.
    rewrite elem_of_nil. intuition.
  - apply set_eq; intros x. unfold Intersect.
    rewrite (foldl_Add_if (SetContains other)), NewSet_elem, range_elem.
    rewrite SetContains_elem, elem_of_intersection, elem_of_nil. intuition.
  - apply set_eq; intros x. unfold Subtract.
    rewrite (foldl_Add_if (fun k => negb (SetContains other k))), NewSet_elem.
    rewrite range_elem, SetContains_not_elem, elem_of_difference, elem_of_nil.
    intuition.
  - apply set_eq; intros x. unfold Difference.
    rewrite (foldl_Add_if (fun k => negb (SetContains s k))).
    rewrite (foldl_Add_if (fun k => negb (SetContains other k))), NewSet_elem.
    rewrite !range_elem, !SetContains_not_elem, elem_of_union.
    rewrite !elem_of_difference, elem_of_nil. intuition.
  - unfold IsSubsetOf. rewrite IsSubsetOf_loop_spec.
    split; intros Hall x Hx; [apply Hall; now apply range_elem|].
    apply Hall. now apply range_elem.
  - apply set_eq; intros x. unfold Copy.
    rewrite foldl_Add, NewSet_elem, range_elem, elem_of_nil. intuition.
  - rewrite AsSlice_range, (Hrange s). apply NoDup_elements.
  - intros x. rewrite AsSlice_range, range_elem. symmetry. apply SetContains_elem.
  - rewrite AsSlice_range, (Hrange s). reflexivity.
Qed.

End SetOf.

Lemma Set_operations_any_order_witness :
  ranges_over (elements : gset nat -> list nat) /\
  Union elements ({[1; 2]} : gset nat) {[2; 3]} = {[1; 2]} ∪ {[2; 3]}.
Proof.
  assert (Hr : ranges_over (elements : gset nat -> list nat))
    by (intros s; reflexivity).
  split; [exact Hr|].
  exact (proj1 (Set_operations_any_order elements Hr {[1; 2]} {[2; 3]})).
Defined.

End GenericFacts.

(** ** The ring buffer *)

Module RingBufFacts.
Import RingBuf.

Section WithElem.
Context {T : Type} (zero : T).

Lemma index_spec (s : list T) (i : Z) :
  (0 <= i)%Z -> index s i = s !! Z.to_nat i.
Proof.
  intros Hi. unfold index.
  destruct (Z.ltb_spec i 0); [lia | reflexivity].
Qed.

Lemma assign_spec (s : list T) (i : Z) (v : T) :
  (0 <= i < len s)%Z -> assign s i v = Some (<[Z.to_nat i := v]> s).
Proof.
  intros Hi. unfold assign.
  destruct (Z.leb_spec 0 i); [|lia].
  destruct (Z.ltb_spec i (len s)); [reflexivity | lia].
Qed.

Lemma remainder_spec (a b : Z) :
  (0 <= a)%Z -> (0 < b)%Z -> remainder a b = Some (a mod b)%Z.
Proof.
  intros Ha Hb. unfold remainder.
  destruct (Z.eqb_spec b 0); [lia|].
  now rewrite Z.rem_mod_nonneg by lia.
Qed.

Lemma make_spec (n : Z) :
  (0 <= n)%Z -> make zero n = Some (replicate (Z.to_nat n) zero).
Proof.
  intros Hn. unfold make. destruct (Z.ltb_spec n 0); [lia | reflexivity].
Qed.

Lemma sliceCopy_loop_spec (src : list T) (si di : nat) (n : nat) :
  forall (x : nat) (dst : list T),
    si + x + n <= length src ->
    di + x + n <= length dst ->
    sliceCopy_loop n src (Z.of_nat si) dst (Z.of_nat di) (Z.of_nat x)
    = Some (take (di + x) dst ++ take n (drop (si + x) src)
              ++ drop (di + x + n) dst).
Proof.
  induction n as [|n IH]; intros x dst Hs Hd.
  - cbn [sliceCopy_loop]. rewrite take_0, Nat.add_0_r. cbn [app].
    now rewrite take_drop.
  - cbn [sliceCopy_loop].
    destruct (lookup_lt_is_Some_2 src (si + x)) as [v Hv]; [lia|].
    rewrite index_spec by lia.
    replace (Z.to_nat (Z.of_nat si + Z.of_nat x)) with (si + x) by lia.
    rewrite Hv. cbn [mbind option_bind].
    rewrite assign_spec by (unfold len; lia).
    replace (Z.to_nat (Z.of_nat di + Z.of_nat x)) with (di + x) by lia.
    cbn [mbind option_bind].
    replace (Z.of_nat x + 1)%Z with (Z.of_nat (S x)) by lia.
    rewrite IH by (rewrite ?length_insert; lia).
    f_equal.
    replace (di + S x) with (S (di + x)) by lia.
    rewrite (take_S_r (<[di + x := v]> dst) (di + x) v)
      by (apply list_lookup_insert_eq; lia).
    rewrite take_insert_ge by lia.
    rewrite drop_insert_lt by lia.
    rewrite (drop_S src v (si + x) Hv). cbn [take].
    replace (si + S x) with (S (si + x)) by lia.
    replace (S (di + x) + n) with (di + x + S n) by lia.
    rewrite <- app_assoc. reflexivity.
Qed.

Lemma sliceCopy_spec (src : list T) (si : Z) (dst : list T) (di n : Z) :
  (0 <= si)%Z -> (0 <= di)%Z -> (0 <= n)%Z ->
  (si + n <= len src)%Z -> (di + n <= len dst)%Z ->
  sliceCopy src si dst di n
  = Some (take (Z.to_nat di) dst ++ take (Z.to_nat n) (drop (Z.to_nat si) src)
            ++ drop (Z.to_nat (di + n)) dst).
Proof.
  intros Hsi Hdi Hn Hs Hd. unfold sliceCopy, len in *.
  pose proof (sliceCopy_loop_spec src (Z.to_nat si) (Z.to_nat di) (Z.to_nat n)
                0 dst) as Hloop.
  rewrite !Z2Nat.id in Hloop by lia. rewrite !Nat.add_0_r in Hloop.
  change (Z.of_nat 0) with 0%Z in Hloop.
  rewrite Hloop by lia.
  now replace (Z.to_nat (di + n)) with (Z.to_nat di + Z.to_nat n) by lia.
Qed.

Lemma sliceClear_loop_spec (i : nat) (n : nat) :
  forall (x : nat) (s : list T),
    i + x + n <= length s ->
    sliceClear_loop zero n s (Z.of_nat i) (Z.of_nat x)
    = Some (take (i + x) s ++ replicate n zero ++ drop (i + x + n) s).
Proof.
  induction n as [|n IH]; intros x s Hs.
  - cbn [sliceClear_loop replicate app]. rewrite Nat.add_0_r.
    now rewrite take_drop.
  - cbn [sliceClear_loop].
    rewrite assign_spec by (unfold len; lia).
    replace (Z.to_nat (Z.of_nat x + Z.of_nat i)) with (i + x) by lia.
    cbn [mbind option_bind].
    replace (Z.of_nat x + 1)%Z with (Z.of_nat (S x)) by lia.
    rewrite IH by (rewrite ?length_insert; lia).
    f_equal.
    replace (i + S x) with (S (i + x)) by lia.
    rewrite (take_S_r (<[i + x := zero]> s) (i + x) zero)
      by (apply list_lookup_insert_eq; lia).
    rewrite take_insert_ge by lia.
    rewrite drop_insert_lt by lia.
    replace (S (i + x) + n) with (i + x + S n) by lia.
    cbn [replicate]. rewrite <- app_assoc. reflexivity.
Qed.

Lemma sliceClear_spec (s : list T) (i n : Z) :
  (0 <= i)%Z -> (0 <= n)%Z -> (i + n <= len s)%Z ->
  sliceClear zero s i n
  = Some (take (Z.to_nat i) s ++ replicate (Z.to_nat n) zero
            ++ drop (Z.to_nat (i + n)) s).
Proof.
  intros Hi Hn Hs. unfold sliceClear, len in *.
  pose proof (sliceClear_loop_spec (Z.to_nat i) (Z.to_nat n) 0 s) as Hloop.
  rewrite !Z2Nat.id in Hloop by lia. rewrite !Nat.add_0_r in Hloop.
  change (Z.of_nat 0) with 0%Z in Hloop.
  rewrite Hloop by lia.
  now replace (Z.to_nat (i + n)) with (Z.to_nat i + Z.to_nat n) by lia.
Qed.

Lemma length_rotated (h : nat) (s : list T) :
  length (rotated h s) = length s.
Proof.
  unfold rotated. rewrite length_app, length_drop, length_take. lia.
Qed.

Lemma rotated_lookup_l (h i : nat) (s : list T) :
  h + i < length s -> rotated h s !! i = s !! (h + i).
Proof.
  intros Hi. unfold rotated.
  rewrite lookup_app_l by (rewrite length_drop; lia).
  apply lookup_drop.
Qed.

Lemma rotated_lookup_r (h i : nat) (s : list T) :
  h <= length s -> length s <= h + i -> h + i - length s < h ->
  rotated h s !! i = s !! (h + i - length s).
Proof.
  intros Hh Hi Hlt. unfold rotated.
  rewrite lookup_app_r by (rewrite length_drop; lia).
  rewrite length_drop. rewrite lookup_take_lt by lia.
  f_equal. lia.
Qed.

Lemma rotated_insert_l (h i : nat) (s : list T) (v : T) :
  h + i < length s ->
  rotated h (<[h + i := v]> s) = <[i := v]> (rotated h s).
Proof.
  intros Hi. unfold rotated.
  rewrite drop_insert_ge by lia. rewrite take_insert_ge by lia.
  replace (h + i - h) with i by lia.
  rewrite insert_app_l by (rewrite length_drop; lia). reflexivity.
Qed.

Lemma rotated_insert_r (h i : nat) (s : list T) (v : T) :
  h <= length s -> length s <= h + i -> h + i - length s < h ->
  rotated h (<[h + i - length s := v]> s) = <[i := v]> (rotated h s).
Proof.
  intros Hh Hi Hlt. unfold rotated.
  rewrite drop_insert_lt by lia. rewrite take_insert_lt by lia.
  rewrite insert_app_r_alt by (rewrite length_drop; lia).
  rewrite length_drop. f_equal. f_equal. lia.
Qed.

Lemma take_snoc_insert (l : list T) (i : nat) (v : T) :
  i < length l -> take (S i) (<[i := v]> l) = take i l ++ [v].
Proof.
  intros Hi.
  rewrite (take_S_r (<[i := v]> l) i v) by (apply list_lookup_insert_eq; lia).
  now rewrite take_insert_ge by lia.
Qed.

Lemma wf_tail (rb : @RingBuffer T) :
  well_formed rb -> (0 < len (slice rb))%Z ->
  (0 <= head rb < len (slice rb))%Z /\
  ((head rb + size rb < len (slice rb) /\ tail rb = head rb + size rb)%Z \/
   (len (slice rb) <= head rb + size rb /\
    tail rb = head rb + size rb - len (slice rb))%Z).
Proof.
  intros [Hsz [[Hz _]|[Hh Ht]]] Hn; [lia|].
  split; [exact Hh|].
  destruct (Z.lt_ge_cases (head rb + size rb) (len (slice rb))) as [Hlt|Hge].
  - left. split; [exact Hlt|]. rewrite Ht. apply Z.mod_small. lia.
  - right. split; [exact Hge|]. rewrite Ht. symmetry.
    apply (Z.mod_unique _ _ 1); lia.
Qed.

Lemma wf_intro (s : list T) (h t sz : Z) :
  (0 <= sz <= len s)%Z -> (0 <= h < len s)%Z ->
  ((h + sz < len s /\ t = h + sz) \/ (len s <= h + sz /\ t = h + sz - len s))%Z ->
  well_formed {| slice := s; head := h; tail := t; size := sz |}.
Proof.
  intros Hsz Hh Ht. split; [exact Hsz|]. right. split; [exact Hh|].
  cbn [head tail size slice].
  destruct Ht as [[Hlt ->]|[Hge ->]].
  - symmetry. apply Z.mod_small. lia.
  - apply (Z.mod_unique _ _ 1); lia.
Qed.

Lemma length_queued (rb : @RingBuffer T) :
  well_formed rb -> length (queued rb) = Z.to_nat (size rb).
Proof.
  intros [Hsz _]. unfold queued, len in *.
  rewrite length_take, length_rotated. lia.
Qed.

Lemma store_spec (v : T) (rb : @RingBuffer T) :
  well_formed rb -> (size rb < len (slice rb))%Z ->
  exists rb',
    (s ← assign (slice rb) (tail rb) v;
     t ← remainder (tail rb + 1) (len (s : list T));
     Some {| slice := s; head := head rb; tail := t; size := size rb + 1 |})
    = Some rb' /\
    well_formed rb' /\ queued rb' = queued rb ++ [v] /\
    size rb' = (size rb + 1)%Z /\ len (slice rb') = len (slice rb).
Proof.
  intros Hwf Hroom. pose proof Hwf as [Hsz _].
  destruct (wf_tail rb Hwf) as [Hh Ht]; [lia|].
  destruct rb as [s h t sz]. cbn [slice head tail size] in *.
  assert (Hlen : len (<[Z.to_nat t := v]> s) = len s)
    by (unfold len; now rewrite length_insert).
  rewrite assign_spec by lia. cbn [mbind option_bind].
  rewrite Hlen. rewrite remainder_spec by lia. cbn [mbind option_bind].
  eexists. split; [reflexivity|].
  unfold queued. cbn [slice head tail size]. rewrite Hlen.
  split; [|split; [|split; reflexivity]].
  - split; [cbn [size slice]; lia|]. right. cbn [slice head tail size].
    rewrite Hlen. split; [lia|].
    destruct Ht as [[_ ->]|[_ ->]].
    + f_equal. lia.
    + replace (h + (sz + 1))%Z with ((h + sz - len s + 1) + 1 * len s)%Z by lia.
      now rewrite Z.mod_add by lia.
  - replace (Z.to_nat (sz + 1)) with (S (Z.to_nat sz)) by lia.
    unfold len in *.
    destruct Ht as [[Hlt ->]|[Hge ->]].
    + replace (Z.to_nat (h + sz)) with (Z.to_nat h + Z.to_nat sz) by lia.
      rewrite rotated_insert_l by lia.
      apply take_snoc_insert. rewrite length_rotated. lia.
    + replace (Z.to_nat (h + sz - Z.of_nat (length s)))
        with (Z.to_nat h + Z.to_nat sz - length s) by lia.
      rewrite rotated_insert_r by lia.
      apply take_snoc_insert. rewrite length_rotated. lia.
Qed.

(** The two copies that move the queued values, oldest first, to the front
    of a new slice, as [setCapacity], [Drain] and [Contents] make them. *)
Lemma copy_out (rb : @RingBuffer T) (new : list T) :
  well_formed rb -> (0 < size rb)%Z -> (size rb <= len new)%Z ->
  (if (head rb <? tail rb)%Z then
     sliceCopy (slice rb) (head rb) new 0 (size rb)
   else
     n1 ← sliceCopy (slice rb) (head rb) new 0 (len (slice rb) - head rb);
     sliceCopy (slice rb) 0 n1 (len (slice rb) - head rb) (tail rb))
  = Some (queued rb ++ drop (Z.to_nat (size rb)) new).
Proof.
  intros Hwf Hpos Hnew. pose proof Hwf as [Hsz _].
  destruct (wf_tail rb Hwf) as [Hh Ht]; [lia|].
  destruct rb as [s h t sz]. unfold queued. cbn [slice head tail size] in *.
  unfold rotated.
  destruct (Z.ltb_spec h t) as [Hlt|Hge].
  - assert (Hs : (h + sz < len s)%Z /\ t = (h + sz)%Z) by lia.
    destruct Hs as [Hs ->].
    rewrite sliceCopy_spec by lia. f_equal.
    change (Z.to_nat 0) with 0. rewrite take_0. cbn [app].
    rewrite Z.add_0_l. f_equal.
    rewrite take_app_le by (rewrite length_drop; unfold len in *; lia).
    reflexivity.
  - assert (Hs : (len s <= h + sz)%Z /\ t = (h + sz - len s)%Z) by lia.
    destruct Hs as [Hs ->].
    rewrite sliceCopy_spec by lia. cbn [mbind option_bind].
    change (Z.to_nat 0) with 0. rewrite take_0. cbn [app]. rewrite Z.add_0_l.
    assert (Hfirst : take (Z.to_nat (len s - h)) (drop (Z.to_nat h) s)
                     = drop (Z.to_nat h) s).
    { apply take_ge. rewrite length_drop. unfold len. lia. }
    rewrite Hfirst.
    assert (Hl : length (drop (Z.to_nat h) s) = Z.to_nat (len s - h))
      by (rewrite length_drop; unfold len; lia).
    rewrite sliceCopy_spec;
      [| lia | lia | lia | lia
       | unfold len in *; rewrite length_app, length_drop, length_drop; lia].
    f_equal.
    rewrite take_app_length' by (symmetry; exact Hl).
    rewrite drop_app_ge by (rewrite Hl; lia).
    rewrite drop_drop. change (Z.to_nat 0) with 0. rewrite drop_0.
    rewrite (take_app_ge (drop (Z.to_nat h) s)) by (rewrite Hl; lia).
    rewrite Hl, take_take. rewrite <- app_assoc. f_equal.
    f_equal; f_equal; lia.
Qed.

Lemma setCapacity_spec (rb : @RingBuffer T) (capacity : Z) :
  well_formed rb -> (size rb <= capacity)%Z ->
  setCapacity zero rb capacity
  = Some {| slice := queued rb ++ replicate (Z.to_nat (capacity - size rb)) zero;
            head := 0;
            tail := (if (size rb =? capacity)%Z then 0 else size rb);
            size := size rb |}.
Proof.
  intros Hwf Hcap. pose proof Hwf as [Hsz _]. unfold setCapacity.
  rewrite make_spec by lia. cbn [mbind option_bind].
  destruct (Z.ltb_spec 0 (size rb)) as [Hpos|Hzero].
  - rewrite copy_out;
      [| exact Hwf | lia | unfold len; rewrite length_replicate; lia].
    cbn [mbind option_bind]. rewrite drop_replicate.
    now replace (Z.to_nat capacity - Z.to_nat (size rb))
      with (Z.to_nat (capacity - size rb)) by lia.
  - cbn [mbind option_bind].
    assert (Hq : queued rb = []).
    { unfold queued. replace (Z.to_nat (size rb)) with 0 by lia. apply take_0. }
    rewrite Hq. cbn [app].
    now replace (Z.to_nat (capacity - size rb)) with (Z.to_nat capacity) by lia.
Qed.

Lemma setCapacity_grown (rb : @RingBuffer T) (capacity : Z) :
  well_formed rb -> (size rb < capacity)%Z ->
  exists rb',
    setCapacity zero rb capacity = Some rb' /\
    well_formed rb' /\ queued rb' = queued rb /\
    size rb' = size rb /\ len (slice rb') = capacity.
Proof.
  intros Hwf Hcap. pose proof Hwf as [Hsz _].
  pose proof (length_queued rb Hwf) as Hq.
  eexists. split; [apply setCapacity_spec; [exact Hwf | lia]|].
  destruct (Z.eqb_spec (size rb) capacity) as [Heq|_]; [lia|].
  assert (Hlen : len (queued rb ++ replicate (Z.to_nat (capacity - size rb)) zero)
                 = capacity).
  { unfold len. rewrite length_app, length_replicate, Hq. lia. }
  split; [|split; [|split; [reflexivity | exact Hlen]]].
  - apply wf_intro; rewrite ?Hlen; lia.
  - unfold queued at 1. cbn [slice head size]. unfold rotated.
    change (Z.to_nat 0) with 0. rewrite drop_0, take_0, app_nil_r.
    rewrite take_app_length' by (symmetry; exact Hq). reflexivity.
Qed.

Lemma Enqueue_spec (v : T) (rb : @RingBuffer T) :
  well_formed rb ->
  exists rb',
    Enqueue zero v rb = Some rb' /\
    well_formed rb' /\ queued rb' = queued rb ++ [v] /\
    Len rb' = (Len rb + 1)%Z /\
    Capacity rb' = (if (Len rb =? Capacity rb)%Z
                    then Z.max (2 * Capacity rb) (Capacity rb + 4)
                    else Capacity rb).
Proof.
  intros Hwf. pose proof Hwf as [Hsz _]. unfold Enqueue, Len, Capacity.
  destruct (Z.eqb_spec (size rb) (len (slice rb))) as [Hfull|Hroom].
  - change (ringBufferGrowFactor / 100)%Z with 2%Z.
    unfold ringBufferMinimumGrow.
    set (newCapacity := if (len (slice rb) * 2 <? len (slice rb) + 4)%Z
                        then (len (slice rb) + 4)%Z else (len (slice rb) * 2)%Z).
    assert (Hnew : newCapacity = Z.max (2 * len (slice rb)) (len (slice rb) + 4)).
    { unfold newCapacity.
      destruct (Z.ltb_spec (len (slice rb) * 2) (len (slice rb) + 4)); lia. }
    destruct (setCapacity_grown rb newCapacity Hwf) as (rb1 & -> & Hwf1 & Hq1 & Hs1 & Hl1);
      [lia|].
    cbn [mbind option_bind].
    destruct (store_spec v rb1 Hwf1) as (rb' & -> & Hwf' & Hq' & Hs' & Hl'); [lia|].
    exists rb'. split; [reflexivity|]. split; [exact Hwf'|].
    split; [now rewrite Hq', Hq1|]. split; [now rewrite Hs', Hs1|].
    now rewrite Hl', Hl1, Hnew.
  - cbn [mbind option_bind].
    destruct (store_spec v rb Hwf) as (rb' & -> & Hwf' & Hq' & Hs' & Hl'); [lia|].
    exists rb'. split; [reflexivity|]. split; [exact Hwf'|].
    split; [exact Hq'|]. split; [exact Hs' | exact Hl'].
Qed.

Lemma queued_unwrapped (rb : @RingBuffer T) :
  (0 <= head rb)%Z -> (0 <= size rb)%Z ->
  (head rb + size rb <= len (slice rb))%Z ->
  queued rb = take (Z.to_nat (size rb)) (drop (Z.to_nat (head rb)) (slice rb)).
Proof.
  intros Hh Hs Hle. unfold queued, rotated, len in *.
  apply take_app_le. rewrite length_drop. lia.
Qed.

Lemma queued_wrapped (rb : @RingBuffer T) :
  (0 <= head rb <= len (slice rb))%Z -> (size rb <= len (slice rb))%Z ->
  (len (slice rb) <= head rb + size rb)%Z ->
  queued rb = drop (Z.to_nat (head rb)) (slice rb)
              ++ take (Z.to_nat (head rb + size rb - len (slice rb))) (slice rb).
Proof.
  intros Hh Hs Hle. unfold queued, rotated, len in *.
  rewrite take_app_ge by (rewrite length_drop; lia).
  rewrite length_drop, take_take. do 2 f_equal. lia.
Qed.

Lemma queued_empty (rb : @RingBuffer T) : size rb = 0%Z -> queued rb = [].
Proof. intros Hz. unfold queued. rewrite Hz. apply take_0. Qed.

Lemma rotated_step_l (h : nat) (s : list T) (x : T) :
  s !! h = Some x -> S h < length s ->
  rotated (S h) s = drop 1 (rotated h s) ++ [x].
Proof.
  intros Hx Hlt. unfold rotated.
  rewrite (take_S_r s h x Hx).
  rewrite drop_app_le by (rewrite length_drop; lia).
  rewrite drop_drop. rewrite <- app_assoc.
  now replace (h + 1) with (S h) by lia.
Qed.

Lemma rotated_step_r (h : nat) (s : list T) (x : T) :
  s !! h = Some x -> S h = length s ->
  rotated 0 s = drop 1 (rotated h s) ++ [x].
Proof.
  intros Hx Hlt. unfold rotated.
  rewrite drop_0, take_0, app_nil_r.
  rewrite (drop_S s x h Hx). rewrite (drop_ge s (S h)) by lia.
  cbn [app drop]. rewrite drop_0. rewrite <- (take_S_r s h x Hx).
  symmetry. apply take_ge. lia.
Qed.

Lemma Dequeue_spec (rb : @RingBuffer T) :
  well_formed rb ->
  exists rb',
    Dequeue zero rb = Some (default zero (queued rb !! 0), rb') /\
    well_formed rb' /\ queued rb' = drop 1 (queued rb) /\
    Len rb' = Z.max 0 (Len rb - 1) /\ Capacity rb' = Capacity rb.
Proof.
  intros Hwf. pose proof Hwf as [Hsz _]. unfold Dequeue, Len, Capacity.
  destruct (Z.eqb_spec (size rb) 0) as [Hz|Hnz].
  - exists rb. rewrite (queued_empty rb Hz). cbn [lookup list_lookup default drop].
    repeat split; try apply Hwf; lia.
  - destruct (wf_tail rb Hwf) as [Hh Ht]; [lia|].
    destruct rb as [s h t sz]. cbn [slice head tail size] in *.
    destruct (lookup_lt_is_Some_2 s (Z.to_nat h)) as [x Hx];
      [unfold len in *; lia|].
    rewrite index_spec by lia. rewrite Hx. cbn [mbind option_bind].
    rewrite remainder_spec by lia. cbn [mbind option_bind].
    assert (Hq0 : queued {| slice := s; head := h; tail := t; size := sz |} !! 0
                  = Some x).
    { unfold queued. cbn [slice head size]. rewrite lookup_take_lt by lia.
      rewrite rotated_lookup_l by (unfold len in *; lia).
      now rewrite Nat.add_0_r. }
    rewrite Hq0. cbn [default]. eexists. split; [reflexivity|].
    cbn [slice head tail size].
    split; [|split; [|split; [lia | reflexivity]]].
    + split; [cbn [size slice]; lia|]. right. cbn [slice head tail size].
      split; [apply Z.mod_pos_bound; lia|].
      rewrite Zplus_mod_idemp_l.
      replace (h + 1 + (sz - 1))%Z with (h + sz)%Z by lia.
      destruct Ht as [[Hlt ->]|[Hge ->]].
      * symmetry. apply Z.mod_small. lia.
      * apply (Z.mod_unique _ _ 1); lia.
    + unfold queued. cbn [slice head size].
      replace (Z.to_nat sz) with (1 + Z.to_nat (sz - 1)) by lia.
      rewrite <- take_drop_commute.
      assert (Hlen : length (drop 1 (rotated (Z.to_nat h) s)) = length s - 1)
        by (rewrite length_drop, length_rotated; reflexivity).
      destruct (Z.eq_dec (h + 1)%Z (len s)) as [Hlast|Hmore].
      * rewrite Hlast, Z.mod_same by lia. change (Z.to_nat 0) with 0.
        rewrite (rotated_step_r (Z.to_nat h) s x Hx) by (unfold len in *; lia).
        apply take_app_le. rewrite Hlen. unfold len in *. lia.
      * rewrite Z.mod_small by lia.
        replace (Z.to_nat (h + 1)) with (S (Z.to_nat h)) by lia.
        rewrite (rotated_step_l (Z.to_nat h) s x Hx) by (unfold len in *; lia).
        apply take_app_le. rewrite Hlen. unfold len in *. lia.
Qed.

Lemma queued_last (rb : @RingBuffer T) (i : T) :
  (0 < size rb <= len (slice rb))%Z ->
  rotated (Z.to_nat (head rb)) (slice rb) !! (Z.to_nat (size rb) - 1) = Some i ->
  last (queued rb) = Some i /\
  take (length (queued rb) - 1) (queued rb)
  = take (Z.to_nat (size rb - 1)) (rotated (Z.to_nat (head rb)) (slice rb)).
Proof.
  intros Hsz Hi. unfold queued.
  assert (Hl : length (take (Z.to_nat (size rb))
                         (rotated (Z.to_nat (head rb)) (slice rb)))
               = Z.to_nat (size rb)).
  { rewrite length_take, length_rotated. unfold len in *. lia. }
  split.
  - rewrite last_lookup, Hl.
    replace (Init.Nat.pred (Z.to_nat (size rb))) with (Z.to_nat (size rb) - 1) by lia.
    rewrite lookup_take_lt by lia. exact Hi.
  - rewrite Hl, take_take. f_equal. lia.
Qed.

Lemma back_slot (rb : @RingBuffer T) :
  well_formed rb -> (0 < size rb)%Z ->
  let back := (if (tail rb =? 0)%Z then len (slice rb) - 1 else tail rb - 1)%Z in
  (0 <= back < len (slice rb))%Z /\
  rotated (Z.to_nat (head rb)) (slice rb) !! (Z.to_nat (size rb) - 1)
  = slice rb !! Z.to_nat back /\
  well_formed {| slice := slice rb; head := head rb; tail := back;
                 size := size rb - 1 |}.
Proof.
  intros Hwf Hpos back. pose proof Hwf as [Hsz _].
  destruct (wf_tail rb Hwf) as [Hh Ht]; [lia|].
  destruct rb as [s h t sz]. cbn [slice head tail size] in *.
  assert (Hb : (h + (sz - 1) < len s /\ back = h + (sz - 1))%Z \/
               (len s <= h + (sz - 1) /\ back = h + (sz - 1) - len s)%Z).
  { unfold back. destruct (Z.eqb_spec t 0); lia. }
  clearbody back. split; [lia|]. split.
  - unfold len in *. destruct Hb as [[Hlt ->]|[Hge ->]].
    + rewrite rotated_lookup_l by lia. f_equal. lia.
    + rewrite rotated_lookup_r by lia. f_equal. lia.
  - apply wf_intro; lia.
Qed.

Lemma DequeueBack_spec (rb : @RingBuffer T) :
  well_formed rb ->
  exists rb',
    DequeueBack zero rb = Some (default zero (last (queued rb)), rb') /\
    well_formed rb' /\
    queued rb' = take (length (queued rb) - 1) (queued rb) /\
    Len rb' = Z.max 0 (Len rb - 1) /\ Capacity rb' = Capacity rb.
Proof.
  intros Hwf. pose proof Hwf as [Hsz _]. unfold DequeueBack, Len, Capacity.
  destruct (Z.eqb_spec (size rb) 0) as [Hz|Hnz].
  - exists rb. rewrite (queued_empty rb Hz). cbn [last default length take].
    repeat split; try apply Hwf; lia.
  - destruct (back_slot rb Hwf) as (Hb & Hlk & Hwf'); [lia|].
    destruct (lookup_lt_is_Some_2 (slice rb)
                (Z.to_nat (if (tail rb =? 0)%Z then len (slice rb) - 1
                           else tail rb - 1)%Z)) as [x Hx];
      [unfold len in *; lia|].
    rewrite Hx in Hlk.
    destruct (queued_last rb x) as [Hlast Hrest]; [lia | exact Hlk |].
    rewrite Hlast, Hrest. cbn [default].
    destruct (Z.eqb_spec (tail rb) 0) as [Hz|Hz].
    + rewrite index_spec by lia. rewrite Hx. cbn [mbind option_bind].
      eexists. split; [reflexivity|]. split; [exact Hwf'|].
      split; [reflexivity|]. cbn [size slice]. split; [lia | reflexivity].
    + rewrite index_spec by lia. rewrite Hx. cbn [mbind option_bind].
      eexists. split; [reflexivity|]. split; [exact Hwf'|].
      split; [reflexivity|]. cbn [size slice]. split; [lia | reflexivity].
Qed.

Lemma Peek_spec (rb : @RingBuffer T) :
  well_formed rb -> Peek zero rb = Some (default zero (queued rb !! 0)).
Proof.
  intros Hwf. pose proof Hwf as [Hsz _]. unfold Peek.
  destruct (Z.eqb_spec (size rb) 0) as [Hz|Hnz].
  - now rewrite (queued_empty rb Hz).
  - destruct (wf_tail rb Hwf) as [Hh _]; [lia|].
    destruct (lookup_lt_is_Some_2 (slice rb) (Z.to_nat (head rb))) as [x Hx];
      [unfold len in *; lia|].
    rewrite index_spec by lia. unfold queued.
    rewrite lookup_take_lt by lia.
    rewrite rotated_lookup_l by (unfold len in *; lia).
    rewrite Nat.add_0_r, Hx. reflexivity.
Qed.

Lemma PeekBack_spec (rb : @RingBuffer T) :
  well_formed rb -> PeekBack zero rb = Some (default zero (last (queued rb))).
Proof.
  intros Hwf. pose proof Hwf as [Hsz _]. unfold PeekBack.
  destruct (Z.eqb_spec (size rb) 0) as [Hz|Hnz].
  - now rewrite (queued_empty rb Hz).
  - destruct (back_slot rb Hwf) as (Hb & Hlk & _); [lia|].
    destruct (lookup_lt_is_Some_2 (slice rb)
                (Z.to_nat (if (tail rb =? 0)%Z then len (slice rb) - 1
                           else tail rb - 1)%Z)) as [x Hx];
      [unfold len in *; lia|].
    rewrite Hx in Hlk.
    destruct (queued_last rb x) as [Hlast _]; [lia | exact Hlk |].
    rewrite Hlast. cbn [default].
    destruct (Z.eqb_spec (tail rb) 0) as [Hz|Hz];
      rewrite index_spec by lia; exact Hx.
Qed.

Lemma wf_reset (s : list T) :
  well_formed {| slice := s; head := 0%Z; tail := 0%Z; size := 0%Z |}.
Proof.
  split; [cbn [size slice]; unfold len; lia|]. cbn [slice head tail size].
  destruct (Z.eq_dec (len s) 0%Z) as [Hz|Hnz]; [left; lia|].
  right. split; [unfold len in *; lia|]. now rewrite Z.mod_0_l by lia.
Qed.

Lemma Drain_spec (rb : @RingBuffer T) :
  well_formed rb ->
  exists rb',
    Drain zero rb = Some (queued rb, rb') /\
    well_formed rb' /\ queued rb' = [] /\ Len rb' = 0%Z /\
    Capacity rb' = Capacity rb.
Proof.
  intros Hwf. pose proof Hwf as [Hsz _]. unfold Drain, Len, Capacity.
  rewrite make_spec by lia. cbn [mbind option_bind].
  destruct (Z.eqb_spec (size rb) 0) as [Hz|Hnz].
  - exists rb. rewrite (queued_empty rb Hz), Hz.
    repeat split; try apply Hwf; lia.
  - rewrite copy_out;
      [| exact Hwf | lia | unfold len; rewrite length_replicate; lia].
    cbn [mbind option_bind].
    rewrite drop_replicate, Nat.sub_diag. cbn [replicate]. rewrite app_nil_r.
    eexists. split; [reflexivity|]. split; [apply wf_reset|].
    split; [now apply queued_empty|]. split; reflexivity.
Qed.

Lemma Contents_spec (rb : @RingBuffer T) :
  well_formed rb ->
  exists rb',
    Contents zero rb = Some (queued rb, rb') /\
    well_formed rb' /\ queued rb' = replicate (Z.to_nat (Len rb)) zero /\
    Len rb' = Len rb /\ Capacity rb' = Capacity rb.
Proof.
  intros Hwf. pose proof Hwf as [Hsz _]. unfold Contents, Len, Capacity.
  rewrite make_spec by lia. cbn [mbind option_bind].
  destruct (Z.eqb_spec (size rb) 0) as [Hz|Hnz].
  - exists rb. rewrite (queued_empty rb Hz), Hz.
    repeat split; try apply Hwf; lia.
  - destruct (wf_tail rb Hwf) as [Hh Ht]; [lia|].
    destruct rb as [s h t sz]. cbn [slice head tail size] in *.
    assert (Hlh : length (take (Z.to_nat h) s) = Z.to_nat h)
      by (rewrite length_take; unfold len in *; lia).
    destruct (Z.ltb_spec h t) as [Hlt|Hge].
    + assert (Hs : (h + sz < len s)%Z /\ t = (h + sz)%Z) by lia.
      destruct Hs as [Hs ->].
      rewrite sliceCopy_spec;
        [| lia | lia | lia | lia | unfold len in *; rewrite length_replicate; lia].
      cbn [mbind option_bind].
      rewrite sliceClear_spec by lia. cbn [mbind option_bind].
      change (Z.to_nat 0) with 0. rewrite take_0. cbn [app]. rewrite Z.add_0_l.
      rewrite drop_replicate, Nat.sub_diag. cbn [replicate]. rewrite app_nil_r.
      assert (Hq : queued {| slice := s; head := h; tail := h + sz; size := sz |}
                   = take (Z.to_nat sz) (drop (Z.to_nat h) s))
        by (apply queued_unwrapped; cbn [slice head size]; lia).
      rewrite <- Hq.
      eexists. split; [reflexivity|].
      assert (Hlen : len (take (Z.to_nat h) s ++ replicate (Z.to_nat sz) zero
                            ++ drop (Z.to_nat (h + sz)) s) = len s).
      { unfold len in *. rewrite !length_app, length_replicate, length_drop, Hlh.
        lia. }
      split; [|split; [|split; [reflexivity | exact Hlen]]].
      * apply wf_intro; rewrite ?Hlen; lia.
      * unfold queued, rotated. cbn [slice head size].
        rewrite drop_app_length' by (symmetry; exact Hlh).
        rewrite <- app_assoc.
        apply take_app_length'. now rewrite length_replicate.
    + assert (Hs : (len s <= h + sz)%Z /\ t = (h + sz - len s)%Z) by lia.
      destruct Hs as [Hs ->].
      rewrite sliceCopy_spec;
        [| lia | lia | lia | lia | unfold len in *; rewrite length_replicate; lia].
      cbn [mbind option_bind].
      rewrite sliceClear_spec by lia. cbn [mbind option_bind].
      change (Z.to_nat 0) with 0. rewrite take_0. cbn [app]. rewrite Z.add_0_l.
      replace (h + (len s - h))%Z with (len s) by lia.
      rewrite (drop_ge s (Z.to_nat (len s))) by (unfold len; lia).
      rewrite app_nil_r.
      rewrite (take_ge (drop (Z.to_nat h) s)) by (rewrite length_drop; unfold len; lia).
      rewrite drop_replicate.
      set (s1 := take (Z.to_nat h) s ++ replicate (Z.to_nat (len s - h)) zero).
      set (n1 := drop (Z.to_nat h) s
                 ++ replicate (Z.to_nat sz - Z.to_nat (len s - h)) zero).
      assert (Hl1 : len s1 = len s).
      { unfold s1, len in *. rewrite length_app, length_replicate, Hlh. lia. }
      assert (Hld : length (drop (Z.to_nat h) s) = Z.to_nat (len s - h))
        by (rewrite length_drop; unfold len; lia).
      assert (Hn1 : len n1 = sz).
      { unfold n1, len in *. rewrite length_app, length_replicate, Hld. lia. }
      rewrite Hl1.
      rewrite sliceCopy_spec by lia. cbn [mbind option_bind].
      rewrite sliceClear_spec by lia. cbn [mbind option_bind].
      change (Z.to_nat 0) with 0. rewrite !take_0, !drop_0. cbn [app].
      rewrite !Z.add_0_l.
      assert (Ht1 : take (Z.to_nat (h + sz - len s)) s1
                    = take (Z.to_nat (h + sz - len s)) s).
      { unfold s1. rewrite take_app_le by (rewrite Hlh; lia).
        rewrite take_take. f_equal. lia. }
      assert (Hnew : take (Z.to_nat (len s - h)) n1
                     ++ take (Z.to_nat (h + sz - len s)) s1
                     ++ drop (Z.to_nat (len s - h + (h + sz - len s))) n1
                     = queued {| slice := s; head := h;
                                 tail := h + sz - len s; size := sz |}).
      { assert (Hq : queued {| slice := s; head := h; tail := h + sz - len s;
                               size := sz |}
                     = drop (Z.to_nat h) s ++ take (Z.to_nat (h + sz - len s)) s)
          by (apply queued_wrapped; cbn [slice head size]; lia).
        rewrite Hq, Ht1. unfold n1.
        rewrite take_app_length' by (symmetry; exact Hld).
        rewrite (drop_ge _ (Z.to_nat (len s - h + (h + sz - len s))))
          by (fold n1; unfold len in Hn1; lia).
        now rewrite app_nil_r. }
      rewrite Hnew. eexists. split; [reflexivity|].
      set (s2 := replicate (Z.to_nat (h + sz - len s)) zero
                 ++ drop (Z.to_nat (h + sz - len s)) s1).
      assert (Hl2 : len s2 = len s).
      { unfold s2, len in *. rewrite length_app, length_replicate, length_drop.
        lia. }
      split; [|split; [|split; [reflexivity | exact Hl2]]].
      * apply wf_intro; rewrite ?Hl2; lia.
      * unfold queued, rotated. cbn [slice head size].
        assert (Hs2 : s2 = (replicate (Z.to_nat (h + sz - len s)) zero
                            ++ drop (Z.to_nat (h + sz - len s)) (take (Z.to_nat h) s))
                           ++ replicate (Z.to_nat (len s - h)) zero).
        { unfold s2, s1. rewrite drop_app_le by (rewrite Hlh; lia).
          now rewrite <- app_assoc. }
        assert (Hfront : length (replicate (Z.to_nat (h + sz - len s)) zero
                            ++ drop (Z.to_nat (h + sz - len s)) (take (Z.to_nat h) s))
                         = Z.to_nat h).
        { rewrite length_app, length_replicate, length_drop, Hlh. lia. }
        rewrite Hs2.
        rewrite drop_app_length' by (symmetry; exact Hfront).
        rewrite (take_app_length' _ _ (Z.to_nat h)) by (symmetry; exact Hfront).
        rewrite take_app_ge by (rewrite length_replicate; lia).
        rewrite length_replicate.
        rewrite take_app_le by (rewrite length_replicate; lia).
        rewrite take_replicate, <- replicate_add. f_equal. lia.
Qed.

Lemma Clear_spec (rb : @RingBuffer T) :
  well_formed rb ->
  exists rb',
    Clear zero rb = Some rb' /\
    well_formed rb' /\ queued rb' = [] /\ Len rb' = 0%Z /\
    Capacity rb' = Capacity rb.
Proof.
  intros Hwf. pose proof Hwf as [Hsz Hcase]. unfold Clear, Len, Capacity.
  assert (Hclear : exists s,
             (if (head rb <? tail rb)%Z then
                sliceClear zero (slice rb) (head rb) (size rb)
              else
                s1 ← sliceClear zero (slice rb) (head rb)
                       (len (slice rb) - head rb);
                sliceClear zero s1 0 (tail rb)) = Some s /\
             len s = len (slice rb)).
  { destruct rb as [s h t sz]. cbn [slice head tail size] in *.
    assert (Hlh : length (take (Z.to_nat h) s) = Z.to_nat h).
    { rewrite length_take. unfold len in *. lia. }
    assert (Ht : (0 <= t <= len s)%Z /\ (h < t -> t = h + sz)%Z).
    { destruct Hcase as [(? & ? & ?)|[Hh Ht]]; [lia|].
      destruct (wf_tail _ Hwf) as [_ Hc]; [cbn [slice]; lia|].
      cbn [slice head tail size] in Hc. lia. }
    destruct (Z.ltb_spec h t) as [Hlt|Hge].
    - rewrite sliceClear_spec by lia. eexists. split; [reflexivity|].
      unfold len in *. rewrite !length_app, length_replicate, length_drop, Hlh.
      lia.
    - rewrite sliceClear_spec by lia. cbn [mbind option_bind].
      assert (Hl1 : len (take (Z.to_nat h) s
                         ++ replicate (Z.to_nat (len s - h)) zero
                         ++ drop (Z.to_nat (h + (len s - h))) s) = len s).
      { unfold len in *. rewrite !length_app, length_replicate, length_drop, Hlh.
        lia. }
      set (s1 := take (Z.to_nat h) s
                 ++ replicate (Z.to_nat (len s - h)) zero
                 ++ drop (Z.to_nat (h + (len s - h))) s) in *.
      rewrite sliceClear_spec by lia. eexists. split; [reflexivity|].
      rewrite <- Hl1. clearbody s1. unfold len in *.
      rewrite !length_app, length_replicate, length_drop, length_take.
      lia. }
  destruct Hclear as (s & -> & Hlen). cbn [mbind option_bind].
  eexists. split; [reflexivity|]. split; [apply wf_reset|].
  split; [now apply queued_empty|]. split; [reflexivity | exact Hlen].
Qed.

Lemma each_loop_spec (s : list T) (n : nat) :
  forall (from : nat),
    from + n <= length s ->
    each_loop n s (Z.of_nat from) (Z.of_nat (from + n))
    = Some (take n (drop from s)).
Proof.
  induction n as [|n IH]; intros from Hle; [reflexivity|].
  cbn [each_loop].
  destruct (Z.ltb_spec (Z.of_nat from) (Z.of_nat (from + S n))) as [_|Hge]; [|lia].
  destruct (lookup_lt_is_Some_2 s from) as [x Hx]; [lia|].
  rewrite index_spec by lia. rewrite Nat2Z.id, Hx. cbn [mbind option_bind].
  replace (Z.of_nat from + 1)%Z with (Z.of_nat (S from)) by lia.
  replace (from + S n) with (S from + n) by lia.
  rewrite IH by lia. cbn [mbind option_bind].
  now rewrite (drop_S s x from Hx).
Qed.

Lemma each_range_spec (s : list T) (from bound : Z) :
  (0 <= from <= bound)%Z -> (bound <= len s)%Z ->
  each_range s from bound
  = Some (take (Z.to_nat (bound - from)) (drop (Z.to_nat from) s)).
Proof.
  intros Hf Hb. unfold each_range, len in *.
  pose proof (each_loop_spec s (Z.to_nat (bound - from)) (Z.to_nat from)) as Hloop.
  replace (Z.of_nat (Z.to_nat from + Z.to_nat (bound - from))) with bound
    in Hloop by lia.
  rewrite Z2Nat.id in Hloop by lia. apply Hloop. lia.
Qed.

Lemma Each_spec (rb : @RingBuffer T) :
  well_formed rb -> Each rb = Some (queued rb).
Proof.
  intros Hwf. pose proof Hwf as [Hsz _]. unfold Each.
  destruct (Z.eqb_spec (size rb) 0) as [Hz|Hnz].
  - now rewrite (queued_empty rb Hz).
  - destruct (wf_tail rb Hwf) as [Hh Ht]; [lia|].
    destruct (Z.ltb_spec (head rb) (tail rb)) as [Hlt|Hge].
    + assert (Hs : (head rb + size rb < len (slice rb))%Z
                   /\ tail rb = (head rb + size rb)%Z) by lia.
      destruct Hs as [Hs Htl].
      rewrite each_range_spec by lia.
      rewrite queued_unwrapped by lia. do 2 f_equal. lia.
    + assert (Hs : (len (slice rb) <= head rb + size rb)%Z
                   /\ tail rb = (head rb + size rb - len (slice rb))%Z) by lia.
      destruct Hs as [Hs Htl].
      rewrite each_range_spec by lia. cbn [mbind option_bind].
      rewrite each_range_spec by lia. cbn [mbind option_bind].
      rewrite queued_wrapped by lia. f_equal.
      change (Z.to_nat 0) with 0. rewrite drop_0. f_equal.
      * apply take_ge. rewrite length_drop. unfold len. lia.
      * f_equal. lia.
Qed.

Lemma Consume_loop_spec (n : nat) :
  forall (rb : @RingBuffer T),
    well_formed rb -> size rb = Z.of_nat n ->
    exists rb',
      Consume_loop zero n rb = Some (queued rb, rb') /\
      well_formed rb' /\ queued rb' = [] /\ Len rb' = 0%Z /\
      Capacity rb' = Capacity rb.
Proof.
  induction n as [|n IH]; intros rb Hwf Hn.
  - exists rb. cbn [Consume_loop]. rewrite (queued_empty rb Hn).
    repeat split; try apply Hwf; exact Hn.
  - cbn [Consume_loop].
    destruct (Dequeue_spec rb Hwf) as (rb1 & -> & Hwf1 & Hq1 & Hs1 & Hc1).
    cbn [mbind option_bind]. unfold Len in *.
    destruct (IH rb1 Hwf1) as (rb' & -> & Hwf' & Hq' & Hs' & Hc'); [lia|].
    cbn [mbind option_bind]. exists rb'.
    split; [|split; [exact Hwf' | split; [exact Hq' | split; [exact Hs' | congruence]]]].
    do 2 f_equal. rewrite Hq1.
    pose proof (length_queued rb Hwf) as Hlen.
    destruct (queued rb) as [|x l]; [cbn [length] in Hlen; lia | reflexivity].
Qed.

Lemma Consume_spec (rb : @RingBuffer T) :
  well_formed rb ->
  exists rb',
    Consume zero rb = Some (queued rb, rb') /\
    well_formed rb' /\ queued rb' = [] /\ Len rb' = 0%Z /\
    Capacity rb' = Capacity rb.
Proof.
  intros Hwf. pose proof Hwf as [Hsz _]. unfold Consume.
  destruct (Z.eqb_spec (size rb) 0) as [Hz|Hnz].
  - exists rb. rewrite (queued_empty rb Hz).
    repeat split; try apply Hwf; exact Hz.
  - apply Consume_loop_spec; [exact Hwf | unfold Len; lia].
Qed.

(** A well-formed ring buffer is a double-ended queue of its queued values:
    Enqueue appends at the back, growing a full buffer to twice its capacity
    or by four slots, whichever is more; Dequeue and Peek give the oldest
    value, DequeueBack and PeekBack the newest, and the zero value when
    nothing is queued. No operation panics, and each leaves the buffer well
    formed. *)
Theorem RingBuffer_is_a_deque (v : T) (rb : @RingBuffer T) :
  well_formed rb ->
  (exists rb',
      Enqueue zero v rb = Some rb' /\
      well_formed rb' /\ queued rb' = queued rb ++ [v] /\
      Len rb' = (Len rb + 1)%Z /\
      Capacity rb' = (if (Len rb =? Capacity rb)%Z
                      then Z.max (2 * Capacity rb) (Capacity rb + 4)
                      else Capacity rb)) /\
  (exists rb',
      Dequeue zero rb = Some (default zero (queued rb !! 0), rb') /\
      well_formed rb' /\ queued rb' = drop 1 (queued rb) /\
      Len rb' = Z.max 0 (Len rb - 1) /\ Capacity rb' = Capacity rb) /\
  (exists rb',
      DequeueBack zero rb = Some (default zero (last (queued rb)), rb') /\
      well_formed rb' /\
      queued rb' = take (length (queued rb) - 1) (queued rb) /\
      Len rb' = Z.max 0 (Len rb - 1) /\ Capacity rb' = Capacity rb) /\
  Peek zero rb = Some (default zero (queued rb !! 0)) /\
  PeekBack zero rb = Some (default zero (last (queued rb))) /\
  Len rb = Z.of_nat (length (queued rb)).
Proof.
  intros Hwf.
  split; [now apply Enqueue_spec|].
  split; [now apply Dequeue_spec|].
  split; [now apply DequeueBack_spec|].
  split; [now apply Peek_spec|].
  split; [now apply PeekBack_spec|].
  rewrite (length_queued rb Hwf). destruct Hwf as [Hsz _]. unfold Len. lia.
Qed.

(** On a well-formed ring buffer Each hands the queued values to the
    consumer, oldest first, and so does Consume, which leaves the buffer
    empty; Drain returns them and leaves the buffer empty; Clear empties the
    buffer. The capacity stays. Contents returns the queued values too, but
    clears their slots and keeps the size: the buffer then holds as many
    zero values. *)
Theorem RingBuffer_reads_queued_values (rb : @RingBuffer T) :
  well_formed rb ->
  Each rb = Some (queued rb) /\
  (exists rb',
      Consume zero rb = Some (queued rb, rb') /\
      well_formed rb' /\ queued rb' = [] /\ Len rb' = 0%Z /\
      Capacity rb' = Capacity rb) /\
  (exists rb',
      Drain zero rb = Some (queued rb, rb') /\
      well_formed rb' /\ queued rb' = [] /\ Len rb' = 0%Z /\
      Capacity rb' = Capacity rb) /\
  (exists rb',
      Clear zero rb = Some rb' /\
      well_formed rb' /\ queued rb' = [] /\ Len rb' = 0%Z /\
      Capacity rb' = Capacity rb) /\
  (exists rb',
      Contents zero rb = Some (queued rb, rb') /\
      well_formed rb' /\ queued rb' = replicate (Z.to_nat (Len rb)) zero /\
      Len rb' = Len rb /\ Capacity rb' = Capacity rb).
Proof.
  intros Hwf.
  split; [now apply Each_spec|].
  split; [now apply Consume_spec|].
  split; [now apply Drain_spec|].
  split; [now apply Clear_spec|].
  now apply Contents_spec.
Qed.

Lemma FromValues_back (l : list T) (a b : T) :
  let values := l ++ [a; b] in
  (len values - 1 - 1 = len l)%Z /\ (0 < len values - 1)%Z /\
  values !! length l = Some a /\ take (length l + 1) values = l ++ [a].
Proof.
  intros values. unfold values, len. rewrite length_app. cbn [length].
  split; [lia|]. split; [lia|]. split.
  - rewrite lookup_app_r by lia. now rewrite Nat.sub_diag.
  - replace (l ++ [a; b]) with ((l ++ [a]) ++ [b])
      by (now rewrite <- app_assoc).
    apply take_app_length'. rewrite length_app. cbn [length]. lia.
Qed.

(** The constructors. A new buffer is well formed and empty, with four
    slots or the capacity asked for; a negative capacity panics. A buffer
    made from a slice of values has its tail on the last value, not after
    it: with two values or more it is not well formed; Peek gives the first
    value and Drain all of them, but PeekBack gives the value before the
    last, and Each leaves the last value out. *)
Theorem RingBuffer_constructors :
  (exists rb,
      NewRingBuffer zero = Some rb /\ well_formed rb /\ queued rb = [] /\
      Len rb = 0%Z /\ Capacity rb = 4%Z) /\
  (forall capacity : nat,
      exists rb,
        NewRingBufferWithCapacity zero (Z.of_nat capacity) = Some rb /\
        well_formed rb /\ queued rb = [] /\
        Len rb = 0%Z /\ Capacity rb = Z.of_nat capacity) /\
  (forall capacity : positive,
      NewRingBufferWithCapacity zero (Z.neg capacity) = None) /\
  (forall (l : list T) (a b : T),
      let values := l ++ [a; b] in
      let rb := NewRingBufferFromValues values in
      ~ well_formed rb /\
      Len rb = len values /\
      Peek zero rb = Some (default zero (values !! 0)) /\
      (exists rb', Drain zero rb = Some (values, rb')) /\
      PeekBack zero rb = Some a /\
      Each rb = Some (l ++ [a])).
Proof.
  split; [|split; [|split]].
  - eexists. split; [reflexivity|]. split; [apply wf_reset|].
    repeat split.
  - intros capacity. unfold NewRingBufferWithCapacity.
    rewrite make_spec by lia. cbn [mbind option_bind].
    eexists. split; [reflexivity|]. split; [apply wf_reset|].
    split; [reflexivity|]. split; [reflexivity|].
    unfold Capacity, len. cbn [slice]. rewrite length_replicate. lia.
  - intros capacity. reflexivity.
  - intros l a b values rb.
    destruct (FromValues_back l a b) as (Hb & Hpos & Ha & Htake).
    fold values in Hb, Hpos, Ha, Htake.
    assert (Hn : len values = (len l + 2)%Z) by lia.
    assert (Hl : (0 <= len l)%Z) by (unfold len; lia).
    split; [|split; [reflexivity|split; [|split; [|split]]]].
    + intros Hwf. destruct (wf_tail rb Hwf) as [_ Ht].
      { unfold rb. cbn [slice NewRingBufferFromValues]. lia. }
      unfold rb in Ht. cbn [slice head tail size NewRingBufferFromValues] in Ht.
      lia.
    + unfold Peek, rb. cbn [slice head tail size NewRingBufferFromValues].
      destruct (Z.eqb_spec (len values) 0) as [Hz|_]; [lia|].
      rewrite index_spec by lia. change (Z.to_nat 0) with 0.
      destruct (lookup_lt_is_Some_2 values 0) as [x Hx];
        [unfold len in *; lia|].
      now rewrite Hx.
    + unfold Drain, rb. cbn [slice head tail size NewRingBufferFromValues].
      rewrite make_spec by lia. cbn [mbind option_bind].
      destruct (Z.eqb_spec (len values) 0) as [Hz|_]; [lia|].
      destruct (Z.ltb_spec 0 (len values - 1)) as [_|Hge]; [|lia].
      rewrite sliceCopy_spec;
        [| lia | lia | lia | lia | unfold len; rewrite length_replicate; lia].
      cbn [mbind option_bind]. eexists. do 2 f_equal.
      change (Z.to_nat 0) with 0. rewrite take_0, drop_0. cbn [app].
      rewrite drop_replicate. rewrite Z.add_0_l, Nat.sub_diag.
      cbn [replicate]. rewrite app_nil_r.
      apply take_ge. unfold len. lia.
    + unfold PeekBack, rb. cbn [slice head tail size NewRingBufferFromValues].
      destruct (Z.eqb_spec (len values) 0) as [Hz|_]; [lia|].
      destruct (Z.eqb_spec (len values - 1) 0) as [Hz|_]; [lia|].
      rewrite index_spec by lia. rewrite Hb. unfold len. now rewrite Nat2Z.id.
    + unfold Each, rb. cbn [slice head tail size NewRingBufferFromValues].
      destruct (Z.eqb_spec (len values) 0) as [Hz|_]; [lia|].
      destruct (Z.ltb_spec 0 (len values - 1)) as [_|Hge]; [|lia].
      rewrite each_range_spec by lia. f_equal.
      change (Z.to_nat 0) with 0. rewrite drop_0. rewrite <- Htake.
      f_equal. unfold len in *. lia.
Qed.

End WithElem.

Lemma RingBuffer_is_a_deque_witness :
  well_formed {| slice := [3; 4; 1; 2]; head := 2; tail := 0; size := 2 |} /\
  exists rb',
    Enqueue 0 5 {| slice := [3; 4; 1; 2]; head := 2; tail := 0; size := 2 |}
    = Some rb' /\ queued rb' = [1; 2; 5].
Proof.
  set (rb := {| slice := [3; 4; 1; 2]; head := 2; tail := 0; size := 2 |}).
  assert (Hwf : well_formed rb).
  { unfold rb, well_formed, len. cbn [slice head tail size length].
    split; [lia|]. right. split; [lia | reflexivity]. }
  split; [exact Hwf|].
  destruct (RingBuffer_is_a_deque 0 5 rb Hwf) as [(rb' & He & _ & Hq & _) _].
  exists rb'. split; [exact He | exact Hq].
Defined.

Lemma RingBuffer_reads_queued_values_witness :
  well_formed {| slice := [3; 4; 1; 2]; head := 2; tail := 1; size := 3 |} /\
  Each {| slice := [3; 4; 1; 2]; head := 2; tail := 1; size := 3 |}
  = Some [1; 2; 3].
Proof.
  set (rb := {| slice := [3; 4; 1; 2]; head := 2; tail := 1; size := 3 |}).
  assert (Hwf : well_formed rb).
  { unfold rb, well_formed, len. cbn [slice head tail size length].
    split; [lia|]. right. split; [lia | reflexivity]. }
  split; [exact Hwf|].
  exact (proj1 (RingBuffer_reads_queued_values 0 rb Hwf)).
Defined.

End RingBufFacts.

(** ** The sequence of migrations *)

Module MigrationFacts.
Import Migrations.

Lemma reverseSlice_loop_spec (ms : list Migration) (n : nat) :
  forall (i : nat) (ret : list Migration),
    i + n = length ms ->
    ret = replicate (length ms - i) zeroMigration ++ reverse (take i ms) ->
    reverseSlice_loop n i ms ret = reverse ms.
Proof.
  induction n as [|n IH]; intros i ret Hlen Hret.
  - cbn [reverseSlice_loop]. rewrite Hret.
    replace (length ms - i) with 0 by lia. cbn [replicate app].
    rewrite take_ge by lia. reflexivity.
  - cbn [reverseSlice_loop].
    destruct (lookup_lt_is_Some_2 ms i) as [m Hm]; [lia|].
    rewrite Hm. apply IH; [lia|].
    rewrite Hret.
    rewrite insert_app_l by (rewrite length_replicate; lia).
    rewrite insert_replicate_lt by lia.
    replace (length ms - i - S (length ms - i - 1)) with 0 by lia.
    cbn [replicate]. rewrite <- app_assoc. cbn [app].
    rewrite (take_S_r ms i m Hm), reverse_snoc.
    now replace (length ms - i - 1) with (length ms - S i) by lia.
Qed.

Lemma reverseSlice_reverse (ms : list Migration) : reverseSlice ms = reverse ms.
Proof.
  unfold reverseSlice. apply reverseSlice_loop_spec; [lia|].
  rewrite take_0, Nat.sub_0_r. cbn [reverse rev_append]. now rewrite app_nil_r.
Qed.

Lemma Equal_same (m : Migration) : Equal (Some m) (Some m) = true.
Proof.
  cbn [Equal]. rewrite !bool_decide_eq_true_2 by reflexivity. reflexivity.
Qed.

(** The first loop, on migrations with distinct revisions that are new to
    the map, at most one of them a root *)
Lemma scan_spec (all : list Migration) :
  forall (s : Sequence) (previous : gmap string bool),
    NoDup (Revision <$> all) ->
    (forall m, m ∈ all -> order s !! Revision m = None) ->
    (forall m m', m ∈ all -> m' ∈ all ->
                  Previous m = "" -> Previous m' = "" -> m = m') ->
    (forall r m, root s = Some r -> m ∈ all -> Previous m <> "") ->
    exists s' previous',
      scan all (s, previous) = Ok (s', previous') /\
      (forall k v, order s' !! k = Some v
                   <-> order s !! k = Some v \/ (v ∈ all /\ Revision v = k)) /\
      size (order s') = size (order s) + length all /\
      (forall p, default false (previous' !! p) = true
                 <-> default false (previous !! p) = true
                     \/ exists m, m ∈ all /\ Previous m = p /\ p <> "") /\
      (forall r, root s = Some r -> root s' = Some r) /\
      (root s = None ->
       match root s' with
       | Some r => r ∈ all /\ Previous r = ""
       | None => forall m, m ∈ all -> Previous m <> ""
       end) /\
      tail s' = tail s.
Proof.
  induction all as [|m rest IH]; intros s previous Hnd Hnew Huniq Hroot.
  - exists s, previous. split; [reflexivity|].
    split; [intros k v; split; [now left | intros [?|[Hin _]]; [assumption | inversion Hin]]|].
    split; [cbn [length]; lia|].
    split; [intros p; split; [now left | intros [?|(m & Hin & _)]; [assumption | inversion Hin]]|].
    split; [tauto|]. split; [|reflexivity].
    intros ->. intros m Hin. inversion Hin.
  - cbn [fmap list_fmap] in Hnd. apply NoDup_cons in Hnd as [Hm Hnd].
    assert (Hfresh : order s !! Revision m = None) by (apply Hnew; now left).
    assert (Hrest : forall m', m' ∈ rest -> Revision m' <> Revision m).
    { intros m' Hin Heq. apply Hm. rewrite <- Heq.
      apply list_elem_of_fmap. now exists m'. }
    cbn [scan scan_one]. rewrite Hfresh.
    destruct (decide (Previous m = "")) as [Hp|Hp].
    + rewrite (bool_decide_eq_true_2 _ Hp). cbn [negb root order tail].
      destruct (root s) as [r|] eqn:Hr.
      { exfalso. apply (Hroot r m eq_refl); [now left | exact Hp]. }
      destruct (IH {| order := <[Revision m := m]> (order s);
                      root := Some m; tail := tail s |} previous Hnd)
        as (s' & previous' & -> & Ho & Hs & Hpv & Hrt & _ & Htl).
      * intros m' Hin. cbn [order]. rewrite lookup_insert_ne by (symmetry; now apply Hrest).
        apply Hnew. now right.
      * intros a b Ha Hb. apply Huniq; now right.
      * intros r a _ Ha Hpa.
        assert (a = m) by (apply Huniq; [now right | now left | assumption..]).
        subst a. now apply (Hrest m Ha).
      * exists s', previous'. split; [reflexivity|]. cbn [order root tail] in *.
        split; [|split; [|split; [|split; [|split]]]].
        -- intros k v. rewrite Ho, lookup_insert_Some, elem_of_cons. split.
           ++ intros [[[<- <-]|[_ ?]]|[? ?]]; [right; split; [now left | reflexivity] | now left
                                              | right; split; [now right | assumption]].
           ++ intros [?|[[->|?] <-]]; [|left; left; split; reflexivity
                                       | right; split; [assumption | reflexivity]].
              left. right. split; [|assumption]. intros <-. congruence.
        -- rewrite Hs, map_size_insert_None by exact Hfresh. cbn [length]. lia.
        -- intros p. rewrite Hpv. split.
           ++ intros [?|(a & Ha & Hpa)]; [now left|].
              right. exists a. split; [now right | exact Hpa].
           ++ intros [?|(a & [->|Ha]%elem_of_cons & Hpa & Hne)]; [now left | congruence|].
              right. exists a. split; [exact Ha | split; assumption].
        -- intros r Hfalse. discriminate.
        -- intros _. rewrite (Hrt m eq_refl). split; [now left | exact Hp].
        -- exact Htl.
    + rewrite (bool_decide_eq_false_2 _ Hp). cbn [negb].
      destruct (IH {| order := <[Revision m := m]> (order s);
                      root := root s; tail := tail s |}
                  (<[Previous m := true]> previous) Hnd)
        as (s' & previous' & -> & Ho & Hs & Hpv & Hrt & Hnone & Htl).
      * intros m' Hin. cbn [order]. rewrite lookup_insert_ne by (symmetry; now apply Hrest).
        apply Hnew. now right.
      * intros a b Ha Hb. apply Huniq; now right.
      * intros r a Hr Ha. cbn [root] in Hr. apply (Hroot r a Hr). now right.
      * exists s', previous'. split; [reflexivity|]. cbn [order root tail] in *.
        split; [|split; [|split; [|split; [|split]]]].
        -- intros k v. rewrite Ho, lookup_insert_Some, elem_of_cons. split.
           ++ intros [[[<- <-]|[_ ?]]|[? ?]]; [right; split; [now left | reflexivity] | now left
                                              | right; split; [now right | assumption]].
           ++ intros [?|[[->|?] <-]]; [|left; left; split; reflexivity
                                       | right; split; [assumption | reflexivity]].
              left. right. split; [|assumption]. intros <-. congruence.
        -- rewrite Hs, map_size_insert_None by exact Hfresh. cbn [length]. lia.
        -- intros p. rewrite Hpv. split.
           ++ intros [Hin|(a & Ha & Hpa)].
              ** destruct (decide (Previous m = p)) as [<-|Hne].
                 --- right. exists m. split; [now left | split; [reflexivity | exact Hp]].
                 --- left. now rewrite lookup_insert_ne in Hin by exact Hne.
              ** right. exists a. split; [now right | exact Hpa].
           ++ intros [Hin|(a & [->|Ha]%elem_of_cons & Hpa & Hne)].
              ** left. destruct (decide (Previous m = p)) as [<-|Hne].
                 --- now rewrite lookup_insert_eq.
                 --- now rewrite lookup_insert_ne by exact Hne.
              ** left. rewrite Hpa. now rewrite lookup_insert_eq.
              ** right. exists a. split; [exact Ha | split; assumption].
        -- exact Hrt.
        -- intros Hr. specialize (Hnone Hr). destruct (root s') as [r|].
           ++ destruct Hnone as [Hin Hpr]. split; [now right | exact Hpr].
           ++ intros a [->|Ha]%elem_of_cons; [exact Hp | now apply Hnone].
        -- exact Htl.
Qed.

Lemma pick_skip (previous : gmap string bool) (entries : list (string * Migration)) :
  forall (s : Sequence),
    (forall k v, (k, v) ∈ entries -> default false (previous !! k) = true) ->
    pick previous entries s = Ok s.
Proof.
  induction entries as [|[k v] rest IH]; intros s Hall; [reflexivity|].
  cbn [pick pick_one]. rewrite (Hall k v) by now left.
  apply IH. intros k' v' Hin. apply (Hall k' v'). now right.
Qed.

(** The second loop, when one entry only is no one's previous revision *)
Lemma pick_spec (previous : gmap string bool) (rev : string) (m : Migration)
    (entries : list (string * Migration)) :
  forall (s : Sequence),
    tail s = None ->
    NoDup entries.*1 ->
    (rev, m) ∈ entries ->
    default false (previous !! rev) = false ->
    (forall k v, (k, v) ∈ entries -> k <> rev ->
                 default false (previous !! k) = true) ->
    pick previous entries s
    = Ok {| order := order s; root := root s; tail := Some m |}.
Proof.
  induction entries as [|[k v] rest IH]; intros s Htl Hnd Hin Hrev Hall.
  - inversion Hin.
  - cbn [fmap list_fmap fst] in Hnd. apply NoDup_cons in Hnd as [Hk Hnd].
    cbn [pick pick_one].
    destruct (decide (k = rev)) as [->|Hne].
    + assert (v = m) as ->.
      { apply elem_of_cons in Hin as [Heq|Hin]; [congruence|].
        exfalso. apply Hk. apply list_elem_of_fmap. now exists (rev, m). }
      rewrite Hrev, Htl. apply pick_skip.
      intros k' v' Hin'. apply (Hall k' v'); [now right|].
      intros ->. apply Hk. apply list_elem_of_fmap. now exists (rev, v').
    + rewrite (Hall k v) by (now left || exact Hne).
      apply IH; try assumption.
      * apply elem_of_cons in Hin as [Heq|Hin]; [congruence | exact Hin].
      * intros k' v' Hin'. apply (Hall k' v'). now right.
Qed.

Lemma linked_lookup (ms : list Migration) :
  forall (prev : string) (i : nat) (a b : Migration),
    linked prev ms -> ms !! i = Some a -> ms !! S i = Some b ->
    Previous b = Revision a /\ Revision a <> "".
Proof.
  induction ms as [|m rest IH]; intros prev i a b Hl Ha Hb; [discriminate|].
  destruct Hl as (_ & Hne & Hl).
  destruct i as [|i].
  - cbn in Ha, Hb. injection Ha as ->.
    destruct rest as [|b' rest]; [discriminate|]. cbn in Hb. injection Hb as ->.
    destruct Hl as (Hp & _). split; [exact Hp|].
    destruct Hne as [Hnil|Hne]; [discriminate | exact Hne].
  - cbn in Ha, Hb. exact (IH _ i a b Hl Ha Hb).
Qed.

Lemma chain_root (ms : list Migration) (m : Migration) :
  chain ms -> ms !! 0 = Some m -> Previous m = "".
Proof.
  intros (_ & Hl & _) Hm. destruct ms as [|m0 rest]; [discriminate|].
  cbn in Hm. injection Hm as ->. now destruct Hl.
Qed.

Lemma chain_step (ms : list Migration) (i : nat) (b : Migration) :
  chain ms -> ms !! S i = Some b ->
  exists a, ms !! i = Some a /\ Previous b = Revision a /\ Revision a <> "".
Proof.
  intros (_ & Hl & _) Hb.
  destruct (lookup_lt_is_Some_2 ms i) as [a Ha].
  { apply lookup_lt_Some in Hb. lia. }
  exists a. split; [exact Ha|]. exact (linked_lookup ms "" i a b Hl Ha Hb).
Qed.

Lemma chain_revision_inj (ms : list Migration) (i j : nat) (a b : Migration) :
  chain ms -> ms !! i = Some a -> ms !! j = Some b ->
  Revision a = Revision b -> i = j.
Proof.
  intros (_ & _ & Hnd) Ha Hb Heq.
  apply (NoDup_lookup (Revision <$> ms) i j (Revision a) Hnd).
  - now rewrite list_lookup_fmap, Ha.
  - now rewrite list_lookup_fmap, Hb, Heq.
Qed.

Lemma chain_one_root (ms : list Migration) (m m' : Migration) :
  chain ms -> m ∈ ms -> m' ∈ ms -> Previous m = "" -> Previous m' = "" -> m = m'.
Proof.
  intros Hc [i Hi]%list_elem_of_lookup [j Hj]%list_elem_of_lookup Hp Hp'.
  destruct i as [|i].
  - destruct j as [|j]; [congruence|].
    destruct (chain_step ms j m' Hc Hj) as (a & _ & Heq & Hne). congruence.
  - destruct (chain_step ms i m Hc Hi) as (a & _ & Heq & Hne). congruence.
Qed.

Lemma chain_last_free (ms : list Migration) (mk m : Migration) :
  chain ms -> last ms = Some mk -> m ∈ ms ->
  Previous m = Revision mk -> Previous m = "".
Proof.
  intros Hc Hlast [j Hj]%list_elem_of_lookup Hp.
  destruct j as [|j]; [exact (chain_root ms m Hc Hj)|].
  destruct (chain_step ms j m Hc Hj) as (a & Ha & Heq & Hne).
  rewrite last_lookup in Hlast.
  assert (j = Init.Nat.pred (length ms))
    by (apply (chain_revision_inj ms _ _ a mk Hc Ha Hlast); congruence).
  apply lookup_lt_Some in Hj. lia.
Qed.

Lemma chain_inner_used (ms : list Migration) (mk v : Migration) :
  chain ms -> last ms = Some mk -> v ∈ ms -> Revision v <> Revision mk ->
  exists b, b ∈ ms /\ Previous b = Revision v /\ Revision v <> "".
Proof.
  intros Hc Hlast [i Hi]%list_elem_of_lookup Hne.
  rewrite last_lookup in Hlast.
  destruct (lookup_lt_is_Some_2 ms (S i)) as [b Hb].
  { pose proof (lookup_lt_Some _ _ _ Hi) as Hlt.
    destruct (decide (i = Init.Nat.pred (length ms))) as [->|]; [congruence | lia]. }
  exists b. split; [now apply list_elem_of_lookup_2 in Hb|].
  destruct Hc as (_ & Hl & _). exact (linked_lookup ms "" i v b Hl Hi Hb).
Qed.

Lemma MigrationsFrom_loop_unfold (fuel : nat) (s : Sequence) (start : Migration)
    (ret : list Migration) (count : nat) (curr : Migration) :
  MigrationsFrom_loop fuel s start ret count curr
  = if negb (bool_decide (Revision curr = Revision start)) then
      match fuel with
      | 0 => None
      | S fuel' =>
          if bool_decide (Previous curr = "") || (size (order s) <? count + 1) then
            Some (Err (ErrNotFound (Revision start)))
          else
            MigrationsFrom_loop fuel' s start (ret ++ [curr]) (count + 1)
              (default zeroMigration (order s !! Previous curr))
      end
    else Some (Ok (reverseSlice (ret ++ [start]))).
Proof. destruct fuel; reflexivity. Qed.

Section Walk.
Variables (ms : list Migration) (s : Sequence).
Hypothesis Hchain : chain ms.
Hypothesis Horder : forall m, m ∈ ms -> order s !! Revision m = Some m.
Hypothesis Hsize : size (order s) = length ms.

Lemma walk_found (start mi : Migration) (i : nat) (d : nat) :
  forall (j fuel : nat) (curr : Migration),
    j = i + d -> ms !! j = Some curr -> ms !! i = Some mi ->
    Revision start = Revision mi -> d <= fuel ->
    MigrationsFrom_loop fuel s start (reverse (drop (S j) ms))
                        (length ms - S j) curr
    = Some (Ok (start :: drop (S i) ms)).
Proof.
  induction d as [|d IH]; intros j fuel curr Hj Hcurr Hmi Hrev Hfuel.
  - rewrite Nat.add_0_r in Hj. subst j.
    assert (curr = mi) by congruence. subst curr.
    rewrite MigrationsFrom_loop_unfold.
    rewrite bool_decide_eq_true_2 by (now symmetry). cbn [negb].
    rewrite reverseSlice_reverse, reverse_snoc, reverse_involutive. reflexivity.
  - rewrite MigrationsFrom_loop_unfold.
    assert (Hne : Revision curr <> Revision start).
    { intros Heq.
      assert (j = i)
        by (apply (chain_revision_inj ms j i curr mi Hchain Hcurr Hmi); congruence).
      lia. }
    rewrite (bool_decide_eq_false_2 _ Hne). cbn [negb].
    destruct fuel as [|fuel]; [lia|].
    subst j. replace (i + S d) with (S (i + d)) in * by lia.
    destruct (chain_step ms (i + d) curr Hchain Hcurr) as (a & Ha & Hp & Hane).
    rewrite bool_decide_eq_false_2 by congruence.
    pose proof (lookup_lt_Some _ _ _ Hcurr) as Hlt.
    destruct (Nat.ltb_spec (size (order s)) (length ms - S (S (i + d)) + 1))
      as [Hbad|_]; [lia|].
    cbn [orb].
    rewrite Hp, (Horder a) by (now apply list_elem_of_lookup_2 in Ha).
    cbn [default].
    rewrite <- reverse_cons. rewrite <- (drop_S ms curr (S (i + d)) Hcurr).
    replace (length ms - S (S (i + d)) + 1) with (length ms - S (i + d)) by lia.
    apply (IH (i + d) fuel a eq_refl Ha Hmi Hrev). lia.
Qed.

Lemma walk_missing (start : Migration) :
  (forall m, m ∈ ms -> Revision m <> Revision start) ->
  forall (j fuel : nat) (ret : list Migration) (curr : Migration),
    ms !! j = Some curr -> j < fuel ->
    MigrationsFrom_loop fuel s start ret (length ms - S j) curr
    = Some (Err (ErrNotFound (Revision start))).
Proof.
  intros Hmiss. induction j as [|j IH]; intros fuel ret curr Hcurr Hfuel.
  - rewrite MigrationsFrom_loop_unfold.
    rewrite bool_decide_eq_false_2
      by (apply Hmiss; now apply list_elem_of_lookup_2 in Hcurr).
    cbn [negb]. destruct fuel as [|fuel]; [lia|].
    rewrite (bool_decide_eq_true_2 _ (chain_root ms curr Hchain Hcurr)).
    reflexivity.
  - rewrite MigrationsFrom_loop_unfold.
    rewrite bool_decide_eq_false_2
      by (apply Hmiss; now apply list_elem_of_lookup_2 in Hcurr).
    cbn [negb]. destruct fuel as [|fuel]; [lia|].
    destruct (chain_step ms j curr Hchain Hcurr) as (a & Ha & Hp & Hane).
    rewrite bool_decide_eq_false_2 by congruence.
    pose proof (lookup_lt_Some _ _ _ Hcurr) as Hlt.
    destruct (Nat.ltb_spec (size (order s)) (length ms - S (S j) + 1))
      as [Hbad|_]; [lia|].
    cbn [orb].
    rewrite Hp, (Horder a) by (now apply list_elem_of_lookup_2 in Ha).
    cbn [default].
    replace (length ms - S (S j) + 1) with (length ms - S j) by lia.
    apply IH; [exact Ha | lia].
Qed.

End Walk.

Lemma MigrationsFrom_found (ms : list Migration) (s : Sequence)
    (mk start mi : Migration) (i : nat) :
  chain ms ->
  (forall m, m ∈ ms -> order s !! Revision m = Some m) ->
  size (order s) = length ms ->
  tail s = Some mk -> last ms = Some mk ->
  ms !! i = Some mi -> Revision start = Revision mi ->
  MigrationsFrom s start = Some (Ok (start :: drop (S i) ms)).
Proof.
  intros Hc Horder Hsize Htail Hlast Hmi Hrev.
  unfold MigrationsFrom. rewrite Htail. cbn [mbind option_bind].
  rewrite last_lookup in Hlast.
  pose proof (lookup_lt_Some _ _ _ Hmi) as Hlt.
  pose proof (walk_found ms s Hc Horder Hsize start mi i
                (Init.Nat.pred (length ms) - i) (Init.Nat.pred (length ms))
                (size (order s) + 1) mk) as Hwalk.
  rewrite (drop_ge ms (S (Init.Nat.pred (length ms)))) in Hwalk by lia.
  replace (length ms - S (Init.Nat.pred (length ms))) with 0 in Hwalk by lia.
  apply Hwalk; [lia | exact Hlast | exact Hmi | exact Hrev | lia].
Qed.

Lemma MigrationsFrom_missing (ms : list Migration) (s : Sequence)
    (mk start : Migration) :
  chain ms ->
  (forall m, m ∈ ms -> order s !! Revision m = Some m) ->
  size (order s) = length ms ->
  tail s = Some mk -> last ms = Some mk ->
  (forall m, m ∈ ms -> Revision m <> Revision start) ->
  MigrationsFrom s start = Some (Err (ErrNotFound (Revision start))).
Proof.
  intros Hc Horder Hsize Htail Hlast Hmiss.
  unfold MigrationsFrom. rewrite Htail. cbn [mbind option_bind].
  rewrite last_lookup in Hlast.
  pose proof (lookup_lt_Some _ _ _ Hlast) as Hlt.
  pose proof (walk_missing ms s Hc Horder Hsize start Hmiss
                (Init.Nat.pred (length ms)) (size (order s) + 1) [] mk) as Hwalk.
  replace (length ms - S (Init.Nat.pred (length ms))) with 0 in Hwalk by lia.
  apply Hwalk; [exact Hlast | lia].
Qed.

(** Given the migrations of a chain in any order, NewSequence builds the
    sequence: its root is the first of the chain and its tail the last, Get
    finds each migration under its revision, All() lists the chain from the
    root to the tail, MigrationsFrom lists it from the migration that has
    the revision of its argument on, the argument itself standing first,
    and fails on a revision that is not in the chain. *)
Theorem NewSequence_of_a_chain
    (range : gmap string Migration -> list (string * Migration))
    (ms all : list Migration) :
  ranges_map range -> chain ms -> all ≡ₚ ms ->
  exists s,
    NewSequence range all = Ok s /\
    root s = head ms /\ tail s = last ms /\
    (forall m, m ∈ ms -> Get s (Revision m) = Ok m) /\
    (forall revision,
        (forall m, m ∈ ms -> Revision m <> revision) ->
        Get s revision = Err ErrNoMigration) /\
    All s = Some (Ok ms) /\
    (forall i m start,
        ms !! i = Some m -> Revision start = Revision m ->
        MigrationsFrom s start = Some (Ok (start :: drop (S i) ms))) /\
    (forall start,
        (forall m, m ∈ ms -> Revision m <> Revision start) ->
        MigrationsFrom s start = Some (Err (ErrNotFound (Revision start)))).
Proof.
  intros Hrange Hc Hperm.
  assert (Hin : forall m, m ∈ all <-> m ∈ ms) by (intros m; now rewrite Hperm).
  destruct ms as [|m0 rest] eqn:Hms; [now destruct Hc as ([] & _)|].
  rewrite <- Hms in *.
  assert (Hhead : ms !! 0 = Some m0) by (now rewrite Hms).
  assert (Hp0 : Previous m0 = "") by exact (chain_root ms m0 Hc Hhead).
  destruct (last ms) as [mk|] eqn:Hlast;
    [|rewrite Hms in Hlast; apply last_None in Hlast; discriminate].
  assert (Hmk : mk ∈ ms).
  { rewrite last_lookup in Hlast. now apply list_elem_of_lookup_2 in Hlast. }
  destruct (scan_spec all {| order := ∅; root := None; tail := None |} ∅)
    as (s1 & previous & Hscan & Ho & Hs & Hpv & _ & Hroot & Htl).
  { rewrite Hperm. apply Hc. }
  { intros m _. apply lookup_empty. }
  { intros m m' Hm Hm'. apply (chain_one_root ms m m' Hc); now apply Hin. }
  { intros r m Hr. discriminate. }
  cbn [order root tail] in *.
  assert (Horder : forall m, m ∈ ms -> order s1 !! Revision m = Some m).
  { intros m Hm. apply Ho. right. split; [now apply Hin | reflexivity]. }
  assert (Hkeys : forall k v, order s1 !! k = Some v -> v ∈ ms /\ Revision v = k).
  { intros k v [Hv|[Hv Hk]]%Ho; [now rewrite lookup_empty in Hv|].
    split; [now apply Hin | exact Hk]. }
  assert (Hsize : size (order s1) = length ms).
  { rewrite Hs, map_size_empty, (Permutation_length Hperm). reflexivity. }
  assert (Hr1 : root s1 = Some m0).
  { specialize (Hroot eq_refl). destruct (root s1) as [r|].
    - destruct Hroot as [Hr Hpr]. f_equal.
      apply (chain_one_root ms r m0 Hc); [now apply Hin | | assumption..].
      now apply list_elem_of_lookup_2 in Hhead.
    - exfalso. apply (Hroot m0); [|exact Hp0].
      apply Hin. now apply list_elem_of_lookup_2 in Hhead. }
  assert (Hpick : pick previous (range (order s1)) s1
                  = Ok {| order := order s1; root := root s1; tail := Some mk |}).
  { apply (pick_spec previous (Revision mk) mk).
    - exact Htl.
    - rewrite (Hrange (order s1)). apply NoDup_fst_map_to_list.
    - rewrite (Hrange (order s1)). apply elem_of_map_to_list. now apply Horder.
    - destruct (default false (previous !! Revision mk)) eqn:Hd; [|reflexivity].
      apply Hpv in Hd as [Hd|(m & Hm & Hpm & Hne)];
        [now rewrite lookup_empty in Hd|].
      exfalso. apply Hne. rewrite <- Hpm.
      apply (chain_last_free ms mk m Hc Hlast); [now apply Hin | exact Hpm].
    - intros k v Hkv Hne.
      rewrite (Hrange (order s1)) in Hkv. apply elem_of_map_to_list in Hkv.
      destruct (Hkeys k v Hkv) as [Hv <-].
      destruct (chain_inner_used ms mk v Hc Hlast Hv Hne) as (b & Hb & Hpb & Hvne).
      apply Hpv. right. exists b. split; [now apply Hin | split; assumption]. }
  set (s2 := {| order := order s1; root := root s1; tail := Some mk |}) in *.
  exists s2.
  split; [|split; [|split; [|split; [|split; [|split; [|split]]]]]].
  - unfold NewSequence. rewrite Hscan, Hr1, Hpick. reflexivity.
  - change (root s1 = head ms). rewrite Hr1, Hms. reflexivity.
  - reflexivity.
  - intros m Hm. unfold Get. change (order s2) with (order s1).
    now rewrite (Horder m Hm).
  - intros revision Hmiss. unfold Get. change (order s2) with (order s1).
    destruct (order s1 !! revision) as [v|] eqn:Hv; [|reflexivity].
    destruct (Hkeys revision v Hv) as [Hvin Hrev]. now destruct (Hmiss v Hvin).
  - unfold All. change (root s2) with (root s1). rewrite Hr1.
    cbn [mbind option_bind].
    rewrite (MigrationsFrom_found ms s2 mk m0 m0 0 Hc Horder Hsize eq_refl Hlast
               Hhead eq_refl).
    rewrite Hms. reflexivity.
  - intros i m start Hm Hrev.
    exact (MigrationsFrom_found ms s2 mk start m i Hc Horder Hsize eq_refl Hlast
             Hm Hrev).
  - intros start Hmiss.
    exact (MigrationsFrom_missing ms s2 mk start Hc Horder Hsize eq_refl Hlast
             Hmiss).
Qed.

Lemma NewSequence_of_a_chain_witness :
  ranges_map map_to_list /\
  chain [mkMigration "a" "" "create" 1; mkMigration "b" "a" "alter" 2;
         mkMigration "c" "b" "index" 3] /\
  [mkMigration "b" "a" "alter" 2; mkMigration "a" "" "create" 1;
   mkMigration "c" "b" "index" 3]
  ≡ₚ [mkMigration "a" "" "create" 1; mkMigration "b" "a" "alter" 2;
      mkMigration "c" "b" "index" 3] /\
  exists s,
    NewSequence map_to_list
      [mkMigration "b" "a" "alter" 2; mkMigration "a" "" "create" 1;
       mkMigration "c" "b" "index" 3] = Ok s /\
    All s = Some (Ok [mkMigration "a" "" "create" 1; mkMigration "b" "a" "alter" 2;
                      mkMigration "c" "b" "index" 3]).
Proof.
  assert (Hr : ranges_map map_to_list) by (intros m; reflexivity).
  assert (Hc : chain [mkMigration "a" "" "create" 1; mkMigration "b" "a" "alter" 2;
                      mkMigration "c" "b" "index" 3]).
  { split; [discriminate|]. split.
    - cbn [linked Previous Revision].
      repeat split; try (right; discriminate); now left.
    - cbn [fmap list_fmap Revision].
      repeat (apply NoDup_cons; split; [rewrite ?elem_of_cons, elem_of_nil;
                                         intuition discriminate|]).
      apply NoDup_nil_2. }
  split; [exact Hr|]. split; [exact Hc|]. split; [apply Permutation_swap|].
  destruct (NewSequence_of_a_chain map_to_list _
              [mkMigration "b" "a" "alter" 2; mkMigration "a" "" "create" 1;
               mkMigration "c" "b" "index" 3] Hr Hc (Permutation_swap _ _ _))
    as (s & Hnew & _ & _ & _ & _ & Hall & _).
  exists s. split; [exact Hnew | exact Hall].
Defined.

End MigrationFacts.
